(** * Logical replication writer processor

    A shallow embedding of
    [pkg/ccl/streamingccl/logical/logical_replication_writer_processor.go]:
    the ingestion buffer, the flush coordinator ([maybeFlush], [flush]), the
    event handler ([handleEvent], [bufferKVs], [bufferCheckpoint]) and the
    batch applier ([flushBuffer]) with its chunking loop and its workers.

    Go [int], [int64] and [time.Duration] values are integers of [Z] with the
    64-bit wrap-around of every addition and subtraction written out
    ([Int64.wrap]).  Run-time panics, and loops that need not terminate, are
    results of the type [result].  Tracing, logging and latency histograms are
    left out; the counters that tell a flush from a no-op are kept. *)

From Stdlib Require Import ZArith Lia Strings.Byte.
From stdpp Require Import base tactics option list sorting strings.

Local Open Scope Z_scope.

(** ** Machine integers *)

Module Int64.
Definition min_int : Z := - 2 ^ 63.
Definition max_int : Z := 2 ^ 63 - 1.
Definition max_int32 : Z := 2 ^ 31 - 1.
Definition min_int32 : Z := - 2 ^ 31.

(** Two's complement wrap-around of a 64-bit signed integer. *)
Definition wrap (z : Z) : Z := (z + 2 ^ 63) `mod` 2 ^ 64 - 2 ^ 63.

Definition add (a b : Z) : Z := wrap (a + b).
Definition sub (a b : Z) : Z := wrap (a - b).

Definition in_range (z : Z) : Prop := min_int <= z <= max_int.
Definition in_range32 (z : Z) : Prop := min_int32 <= z <= max_int32.
End Int64.

(** ** Results of code that may panic or loop *)

Inductive panic : Type :=
  | DivideByZero
  | IndexOutOfRange
  | SliceBoundsOutOfRange
  | AssertionFailed.

Inductive result (A : Type) : Type :=
  | Ok (a : A)
  | Panic (p : panic)
  | OutOfFuel.
Arguments Ok {A} a.
Arguments Panic {A} p.
Arguments OutOfFuel {A}.

Global Instance result_ret : MRet result := λ A a, Ok a.
Global Instance result_bind : MBind result := λ A B f m,
  match m with
  | Ok a => f a
  | Panic p => Panic p
  | OutOfFuel => OutOfFuel
  end.

(** Go's [error] values carry a message; [nil] is [None]. *)
Definition error : Type := string.

(** [errors.Wrap(err, msg)]. *)
Definition errors_Wrap (err : error) (msg : string) : error :=
  (msg +:+ ": " +:+ err)%string.

(** ** Slices *)

Definition len {A} (s : list A) : Z := Z.of_nat (length s).

(** [s[i]]: a panic outside [0 <= i < len(s)]. *)
Definition index {A} (s : list A) (i : Z) : result A :=
  if (0 <=? i) && (i <? len s)
  then match s !! Z.to_nat i with
       | Some x => Ok x
       | None => Panic IndexOutOfRange
       end
  else Panic IndexOutOfRange.

(** [s[lo:hi]] for a slice used within its length: a panic unless
    [0 <= lo <= hi <= len(s)]. *)
Definition slice {A} (s : list A) (lo hi : Z) : result (list A) :=
  if (0 <=? lo) && (lo <=? hi) && (hi <=? len s)
  then Ok (take (Z.to_nat (hi - lo)) (drop (Z.to_nat lo) s))
  else Panic SliceBoundsOutOfRange.

(** ** Package hlc *)

Module hlc.
(** The fields the processor reads and writes: [WallTime] is an [int64],
    [Logical] an [int32]. *)
Record Timestamp : Type := { WallTime : Z; Logical : Z }.

(** The values of the Go type. *)
Definition wf (t : Timestamp) : Prop :=
  Int64.in_range (WallTime t) ∧ Int64.in_range32 (Logical t).

(** Modelled from the spec: the methods of [hlc.Timestamp] are not among
    the sources.  [Less] orders timestamps by wall time, then by the logical
    component. *)
Definition Less (t s : Timestamp) : bool :=
  (WallTime t <? WallTime s)
  || ((WallTime t =? WallTime s) && (Logical t <? Logical s)).

(** Modelled from the spec: [LessEq], the same order, not strict. *)
Definition LessEq (t s : Timestamp) : bool :=
  (WallTime t <? WallTime s)
  || ((WallTime t =? WallTime s) && (Logical t <=? Logical s)).

(** Modelled from the spec: [After], strictly later in that order. *)
Definition After (t s : Timestamp) : bool := negb (LessEq t s).

(** Modelled from the spec: [Compare], the three-way comparison of that
    order, with results -1, 0 and 1. *)
Definition Compare (t s : Timestamp) : Z :=
  if WallTime s <? WallTime t then 1
  else if WallTime t <? WallTime s then -1
  else if Logical s <? Logical t then 1
  else if Logical t <? Logical s then -1
  else 0.

(** Modelled from the spec: [IsEmpty], the zero value of the type. *)
Definition IsEmpty (t : Timestamp) : bool :=
  (WallTime t =? 0) && (Logical t =? 0).

(** Modelled from the spec: [hlc.MaxTimestamp], the largest value of both
    fields. *)
Definition MaxTimestamp : Timestamp :=
  {| WallTime := Int64.max_int; Logical := Int64.max_int32 |}.
End hlc.

(** ** Package roachpb *)

Module roachpb.
(** [roachpb.Key] is a byte slice. *)
Definition Key : Type := list byte.

(** Modelled from the spec: [Key.Compare] is not among the sources; it is
    [bytes.Compare], the lexicographic comparison with results -1, 0 and
    1. *)
Fixpoint Compare (k l : Key) : Z :=
  match k, l with
  | [], [] => 0
  | [], _ :: _ => -1
  | _ :: _, [] => 1
  | x :: k', y :: l' =>
      match N.compare (Byte.to_N x) (Byte.to_N y) with
      | Lt => -1
      | Gt => 1
      | Eq => Compare k' l'
      end
  end.

(** Modelled from the spec: [Key.Equal] is not among the sources; it is
    [bytes.Equal]. *)
Fixpoint Equal (k l : Key) : bool :=
  match k, l with
  | [], [] => true
  | x :: k', y :: l' => Byte.eqb x y && Equal k' l'
  | _, _ => false
  end.

Record Span : Type := { Span_Key : Key; Span_EndKey : Key }.

Record Value : Type :=
  { Value_RawBytes : list byte; Value_Timestamp : hlc.Timestamp }.

Record KeyValue : Type := { KeyValue_Key : Key; KeyValue_Value : Value }.

Definition ts (kv : KeyValue) : hlc.Timestamp :=
  Value_Timestamp (KeyValue_Value kv).

(** [KeyValue.Size()] is generated protobuf code outside the sources: it is
    an operation of the environment. *)
Class Sizer : Type := Size : KeyValue → Z.
End roachpb.
Export roachpb (Sizer, Size).

(** ** Cluster settings *)

(** The values read through [settings.Values] by this file. *)
Record Values : Type := {
  minimumFlushInterval : Z;
  targetKVBufferLen : Z;
  maxKVBufferSize : Z;
  flushBatchSize : Z;
  quantize : Z
}.

(** ** The ingestion buffer *)

Record ingestionBuffer : Type := {
  curKVBatch : list roachpb.KeyValue;
  curKVBatchSize : Z;
  minTimestamp : hlc.Timestamp
}.

Definition NewIngestionBuffer : ingestionBuffer :=
  {| curKVBatch := []; curKVBatchSize := 0;
     minTimestamp := hlc.MaxTimestamp |}.

Definition addKV `{Sizer} (b : ingestionBuffer) (kv : roachpb.KeyValue)
  : ingestionBuffer :=
  {| curKVBatchSize := Int64.add (curKVBatchSize b) (Size kv);
     curKVBatch := curKVBatch b ++ [kv];
     minTimestamp :=
       if hlc.Less (roachpb.ts kv) (minTimestamp b)
       then roachpb.ts kv
       else minTimestamp b |}.

Definition reset (b : ingestionBuffer) : ingestionBuffer :=
  {| minTimestamp := hlc.MaxTimestamp;
     curKVBatchSize := 0;
     curKVBatch := take 0 (curKVBatch b) |}.

(** Returns [(shouldFlush, mustFlush)]. *)
Definition shouldFlushOnKVSize (b : ingestionBuffer) (sv : Values)
  : bool * bool :=
  let kvBufMax := maxKVBufferSize sv in
  let kvBufLenTarget := targetKVBufferLen sv in
  if (0 <? kvBufMax) && (kvBufMax <=? curKVBatchSize b) then (true, true)
  else if kvBufLenTarget <=? len (curKVBatch b) then (true, false)
  else (false, false).

(** [sync.Pool]: a released buffer is reset before it is put back, so the
    pool only ever hands out buffers in the state of a new one. *)
Definition getBuffer : ingestionBuffer := NewIngestionBuffer.

(** ** Package span: the frontier *)

Module span.
Inductive OpResult : Type := ContinueMatch | StopMatch.

(** [span.Frontier] is an interface implemented outside the sources.
    [Forward] returns the frontier it leaves behind together with its two
    Go results; [Frontier_ts] is the method [Frontier()], the least
    timestamp of the tracked spans; [Entries_list] is the sequence of
    entries that [Entries] offers to its callback, in visiting order. *)
Class Frontier (F : Type) : Type := {
  Forward : F → roachpb.Span → hlc.Timestamp → F * (bool * option error);
  Frontier_ts : F → hlc.Timestamp;
  Entries_list : F → list (roachpb.Span * hlc.Timestamp);
  Len : F → Z
}.

(** [Entries(fn)]: the callback sees the entries one by one until it
    answers [StopMatch]. *)
Fixpoint visit {S : Type} (es : list (roachpb.Span * hlc.Timestamp))
    (fn : roachpb.Span → hlc.Timestamp → S → S * OpResult) (s : S) : S :=
  match es with
  | [] => s
  | (sp, t) :: es' =>
      match fn sp t s with
      | (s', ContinueMatch) => visit es' fn s'
      | (s', StopMatch) => s'
      end
  end.

Definition Entries `{Frontier F} {S : Type} (f : F)
    (fn : roachpb.Span → hlc.Timestamp → S → S * OpResult) (s : S) : S :=
  visit (Entries_list f) fn s.
End span.

(** ** Package jobspb: checkpoints *)

Module jobspb.
Record ResolvedSpan : Type :=
  { Span : roachpb.Span; Timestamp : hlc.Timestamp }.
Record ResolvedSpans : Type :=
  { ResolvedSpans_list : list ResolvedSpan }.
End jobspb.

(** ** Package streamingccl: events *)

Module streamingccl.
Inductive EventType : Type :=
  | KVEvent
  | SSTableEvent
  | DeleteRangeEvent
  | CheckpointEvent
  | SplitEvent
  | OtherEvent (code : Z).

(** What the processor asks of an [Event].  A [nil] slice is [None]. *)
Record Event : Type := {
  Event_Type : EventType;
  GetKVs : option (list roachpb.KeyValue);
  GetResolvedSpans : option (list jobspb.ResolvedSpan)
}.
End streamingccl.

(** ** Testing knobs *)

(** [sql.StreamingTestingKnobs], as far as this file calls them: a hook is
    [None] when it is not installed.  [RunAfterReceivingEvent] is given by
    the error it returns, [ElideCheckpointEvent] by its answer on the
    frontier timestamp. *)
Record StreamingTestingKnobs : Type := {
  RunAfterReceivingEvent : option (option error);
  ElideCheckpointEvent : option (hlc.Timestamp → bool)
}.

(** ** The processor *)

Record Metrics : Type := {
  FlushOnSize : Z;
  FlushOnTime : Z;
  CheckpointEvents : Z
}.

Record flushableBuffer : Type := {
  fb_buffer : ingestionBuffer;
  fb_checkpoint : jobspb.ResolvedSpans
}.

(** The fields of [logicalReplicationWriterProcessor] that the event loop
    reads and writes.  [flushCh] is the sequence of values handed to the flush
    loop so far; [sv] and [knobs] stand for what is reached through
    [FlowCtx]. *)
Record logicalReplicationWriterProcessor (F : Type) : Type := {
  InitialScanTimestamp : hlc.Timestamp;
  sv : Values;
  knobs : option StreamingTestingKnobs;
  buffer : ingestionBuffer;
  frontier : F;
  lastFlushTime : Z;
  lastFlushFrontier : hlc.Timestamp;
  flushInProgress : bool;
  flushCh : list flushableBuffer;
  metrics : Metrics
}.
Arguments InitialScanTimestamp {F} _.
Arguments sv {F} _.
Arguments knobs {F} _.
Arguments buffer {F} _.
Arguments frontier {F} _.
Arguments lastFlushTime {F} _.
Arguments lastFlushFrontier {F} _.
Arguments flushInProgress {F} _.
Arguments flushCh {F} _.
Arguments metrics {F} _.

(** What the rest of the system decides while [flush] runs: whether the flush
    loop takes the buffer from [flushCh] before [stopCh] is closed, and the
    reading of the clock. *)
Record world : Type := { flushCh_ready : bool; timeutil_Now : Z }.

Inductive flushReason : Type := flushOnSize | flushOnTime | flushOnClose.

Section Processor.
Context `{!Sizer} `{!span.Frontier F}.
Local Abbreviation lrwp := (logicalReplicationWriterProcessor F).

Definition with_buffer (lrw : lrwp) (b : ingestionBuffer) : lrwp :=
  {| InitialScanTimestamp := InitialScanTimestamp lrw; sv := sv lrw;
     knobs := knobs lrw; buffer := b; frontier := frontier lrw;
     lastFlushTime := lastFlushTime lrw;
     lastFlushFrontier := lastFlushFrontier lrw;
     flushInProgress := flushInProgress lrw; flushCh := flushCh lrw;
     metrics := metrics lrw |}.

Definition with_frontier (lrw : lrwp) (f : F) : lrwp :=
  {| InitialScanTimestamp := InitialScanTimestamp lrw; sv := sv lrw;
     knobs := knobs lrw; buffer := buffer lrw; frontier := f;
     lastFlushTime := lastFlushTime lrw;
     lastFlushFrontier := lastFlushFrontier lrw;
     flushInProgress := flushInProgress lrw; flushCh := flushCh lrw;
     metrics := metrics lrw |}.

Definition with_metrics (lrw : lrwp) (m : Metrics) : lrwp :=
  {| InitialScanTimestamp := InitialScanTimestamp lrw; sv := sv lrw;
     knobs := knobs lrw; buffer := buffer lrw; frontier := frontier lrw;
     lastFlushTime := lastFlushTime lrw;
     lastFlushFrontier := lastFlushFrontier lrw;
     flushInProgress := flushInProgress lrw; flushCh := flushCh lrw;
     metrics := m |}.

(** The send on [flushCh] and the bookkeeping that follows it. *)
Definition handed_off (lrw : lrwp) (b : flushableBuffer)
    (thisFlushFrontier : hlc.Timestamp) (now : Z) : lrwp :=
  {| InitialScanTimestamp := InitialScanTimestamp lrw; sv := sv lrw;
     knobs := knobs lrw; buffer := buffer lrw; frontier := frontier lrw;
     lastFlushTime := now;
     lastFlushFrontier := thisFlushFrontier;
     flushInProgress := flushInProgress lrw;
     flushCh := flushCh lrw ++ [b];
     metrics := metrics lrw |}.

Definition count_flush (reason : flushReason) (m : Metrics) : Metrics :=
  match reason with
  | flushOnSize =>
      {| FlushOnSize := Int64.add (FlushOnSize m) 1;
         FlushOnTime := FlushOnTime m;
         CheckpointEvents := CheckpointEvents m |}
  | flushOnTime =>
      {| FlushOnSize := FlushOnSize m;
         FlushOnTime := Int64.add (FlushOnTime m) 1;
         CheckpointEvents := CheckpointEvents m |}
  | flushOnClose => m
  end.

(** The checkpoint built by [flush]: the callback given to
    [frontier.Entries]. *)
Definition checkpoint_of (f : F) : jobspb.ResolvedSpans :=
  {| jobspb.ResolvedSpans_list :=
       span.Entries f
         (λ sp t (acc : list jobspb.ResolvedSpan),
            (if negb (hlc.IsEmpty t)
             then acc ++ [ {| jobspb.Span := sp; jobspb.Timestamp := t |} ]
             else acc,
             span.ContinueMatch))
         [] |}.

Definition flush (w : world) (reason : flushReason) (lrw : lrwp)
  : lrwp * option error :=
  let lrw := with_metrics lrw (count_flush reason (metrics lrw)) in
  let bufferToFlush := buffer lrw in
  let lrw := with_buffer lrw getBuffer in
  let checkpoint := checkpoint_of (frontier lrw) in
  let thisFlushFrontier := span.Frontier_ts (frontier lrw) in
  if flushCh_ready w
  then (handed_off lrw
          {| fb_buffer := bufferToFlush; fb_checkpoint := checkpoint |}
          thisFlushFrontier (timeutil_Now w),
        None)
  else (lrw, None).

Definition maybeFlush (w : world) (reason : flushReason) (lrw : lrwp)
  : lrwp * option error :=
  if flushInProgress lrw then (lrw, None)
  else if (len (curKVBatch (buffer lrw)) =? 0)
          && hlc.LessEq (span.Frontier_ts (frontier lrw))
               (lastFlushFrontier lrw)
  then (lrw, None)
  else flush w reason lrw.

Definition bufferKVs (kvs : option (list roachpb.KeyValue)) (lrw : lrwp)
  : lrwp * option error :=
  match kvs with
  | None => (lrw, Some "kv event expected to have kv"%string)
  | Some kvs => (with_buffer lrw (foldl addKV (buffer lrw) kvs), None)
  end.

(** The body of the quantization branch of [bufferCheckpoint], on the
    loop's copy of the resolved span. *)
Definition quantized (d : Z) (lrw : lrwp) (resolvedSpan : jobspb.ResolvedSpan)
  : jobspb.ResolvedSpan :=
  if (0 <? d)
     && hlc.After (jobspb.Timestamp resolvedSpan) (InitialScanTimestamp lrw)
  then
    let t := jobspb.Timestamp resolvedSpan in
    let t := {| hlc.WallTime := hlc.WallTime t; hlc.Logical := 0 |} in
    let t := {| hlc.WallTime :=
                  Int64.sub (hlc.WallTime t) (Z.rem (hlc.WallTime t) d);
                hlc.Logical := hlc.Logical t |} in
    {| jobspb.Span := jobspb.Span resolvedSpan; jobspb.Timestamp := t |}
  else resolvedSpan.

Fixpoint forwardResolved (d : Z) (resolvedSpans : list jobspb.ResolvedSpan)
    (lrw : lrwp) : lrwp * option error :=
  match resolvedSpans with
  | [] => (lrw, None)
  | resolvedSpan :: rest =>
      let resolvedSpan := quantized d lrw resolvedSpan in
      match span.Forward (frontier lrw) (jobspb.Span resolvedSpan)
              (jobspb.Timestamp resolvedSpan) with
      | (f, (_, Some err)) =>
          (with_frontier lrw f,
           Some (errors_Wrap err "unable to forward checkpoint frontier"))
      | (f, (_, None)) => forwardResolved d rest (with_frontier lrw f)
      end
  end.

Definition elided (lrw : lrwp) : bool :=
  match knobs lrw with
  | Some streamingKnobs =>
      match ElideCheckpointEvent streamingKnobs with
      | Some hook => hook (span.Frontier_ts (frontier lrw))
      | None => false
      end
  | None => false
  end.

Definition bufferCheckpoint (event : streamingccl.Event) (lrw : lrwp)
  : lrwp * option error :=
  if elided lrw then (lrw, None)
  else
    match streamingccl.GetResolvedSpans event with
    | None =>
        (lrw, Some "checkpoint event expected to have resolved spans"%string)
    | Some resolvedSpans =>
        let d := quantize (sv lrw) in
        match forwardResolved d resolvedSpans lrw with
        | (lrw, Some err) => (lrw, Some err)
        | (lrw, None) =>
            let m := metrics lrw in
            (with_metrics lrw
               {| FlushOnSize := FlushOnSize m;
                  FlushOnTime := FlushOnTime m;
                  CheckpointEvents := Int64.add (CheckpointEvents m) 1 |},
             None)
        end
    end.

(** The threshold check at the end of [handleEvent]. *)
Definition flushOnThresholds (w : world) (lrw : lrwp) : lrwp * option error :=
  let '(shouldFlush, mustFlush) := shouldFlushOnKVSize (buffer lrw) (sv lrw) in
  if mustFlush then flush w flushOnSize lrw
  else if shouldFlush then maybeFlush w flushOnSize lrw
  else (lrw, None).

Definition afterReceivingEvent (lrw : lrwp) : option error :=
  match knobs lrw with
  | Some streamingKnobs =>
      match RunAfterReceivingEvent streamingKnobs with
      | Some r => r
      | None => None
      end
  | None => None
  end.

Definition handleEvent (w : world) (event : streamingccl.Event) (lrw : lrwp)
  : result (lrwp * option error) :=
  (* the admit latency reads event.GetKVs()[0] *)
  _ ← match streamingccl.Event_Type event with
      | streamingccl.KVEvent =>
          kv ← index (default [] (streamingccl.GetKVs event)) 0; Ok ()
      | _ => Ok ()
      end;
  match afterReceivingEvent lrw with
  | Some err => Ok (lrw, Some err)
  | None =>
      let switched :=
        match streamingccl.Event_Type event with
        | streamingccl.KVEvent => bufferKVs (streamingccl.GetKVs event) lrw
        | streamingccl.CheckpointEvent => bufferCheckpoint event lrw
        | streamingccl.SSTableEvent | streamingccl.DeleteRangeEvent =>
            (lrw, Some "unexpected event for online stream"%string)
        | streamingccl.SplitEvent => (lrw, None)
        | streamingccl.OtherEvent _ =>
            (lrw, Some "unknown streaming event type"%string)
        end in
      match switched with
      | (lrw, Some err) => Ok (lrw, Some err)
      | (lrw, None) => Ok (flushOnThresholds w lrw)
      end
  end.
End Processor.

(** ** The batch applier *)

Module keys.
(** [keys.EnsureSafeSplitKey] lies outside the sources: an operation of
    the environment, with its two Go results. *)
Class SplitKeys : Type :=
  EnsureSafeSplitKey : roachpb.Key → roachpb.Key * option error.
End keys.
Export keys (SplitKeys, EnsureSafeSplitKey).

Module slices.
(** [slices.SortFunc] of the Go library: an operation of the environment,
    given by the slice it leaves behind. *)
Class Sorter : Type :=
  SortFunc : ∀ A : Type, (A → A → Z) → list A → list A.
Arguments SortFunc {_ A} cmp s.

(** What the library promises: for a comparison that is a strict weak
    ordering (the sign of [cmp a b] is the opposite of that of [cmp b a], and
    "not greater" is transitive), the slice is rearranged into ascending
    order.  The sort need not be stable. *)
Definition sorts (S : Sorter) : Prop :=
  ∀ (A : Type) (cmp : A → A → Z) (s : list A),
    (∀ a b, cmp a b < 0 ↔ 0 < cmp b a) →
    Transitive (λ a b, cmp a b <= 0) →
    SortFunc cmp s ≡ₚ s
    ∧ StronglySorted (λ a b, cmp a b <= 0) (SortFunc cmp s).
End slices.
Export slices (Sorter, SortFunc).

Record batchStats : Type := { byteSize : Z }.

(** The interface [BatchHandler]; a handler is a value that changes with
    every batch it is given, and what its answers depend on is part of that
    value. *)
Class BatchHandler (H : Type) : Type :=
  HandleBatch : H → list roachpb.KeyValue → H * (batchStats * option error).

(** The interface [RowProcessor]. *)
Class RowProcessor (R : Type) : Type :=
  ProcessRow : R → roachpb.KeyValue → R * option error.

Module descs.
(** What [HandleBatch] uses of [descs.DB].  [Txn] lies outside the sources,
    and nothing is said of how it runs the closure it is given: it is an
    operation of the environment that takes the store as the call finds it,
    the closure as a function on what the closure captures and changes, and
    the captured state at the call; it gives the store, the captured state
    and the error at its return.  It may run the closure once, several times
    or not at all, and it may fail on its own. *)
Class DB (D : Type) : Type :=
  Txn : D → ∀ S : Type, (S → S * option error) → S → D * (S * option error).
End descs.
Export descs (DB, Txn).

(** [txnBatch]. *)
Record txnBatch (D R : Type) : Type := { db : D; rp : R }.
Arguments db {D R} _.
Arguments rp {D R} _.

(** The loop of the closure of [txnBatch.HandleBatch]. *)
Fixpoint txnBatch_rows `{Sizer} `{RowProcessor R} (r : R) (stats : batchStats)
    (batch : list roachpb.KeyValue) : R * (batchStats * option error) :=
  match batch with
  | [] => (r, (stats, None))
  | kv :: batch' =>
      let stats := {| byteSize := Int64.add (byteSize stats) (Size kv) |} in
      match ProcessRow r kv with
      | (r', Some err) => (r', (stats, Some err))
      | (r', None) => txnBatch_rows r' stats batch'
      end
  end.

(** The closure that [HandleBatch] gives to [Txn], on what it captures and
    changes: the row processor and [stats], which is declared outside the
    closure.  [SetOmitInRangefeeds] marks the transaction, which belongs to
    the store. *)
Definition txnBatch_closure `{Sizer} `{RowProcessor R}
    (batch : list roachpb.KeyValue) (captured : R * batchStats)
  : (R * batchStats) * option error :=
  let '(r, (stats, err)) := txnBatch_rows captured.1 captured.2 batch in
  ((r, stats), err).

Global Instance txnBatch_HandleBatch `{Sizer} `{DB D} `{RowProcessor R}
  : BatchHandler (txnBatch D R) := λ t batch,
  let stats := {| byteSize := 0 |} in
  let '(d, ((r, stats), err)) :=
    Txn (db t) (R * batchStats)%type (txnBatch_closure batch) (rp t, stats) in
  ({| db := d; rp := r |}, (stats, err)).

Section BatchApplier.
Context `{!Sizer} `{!SplitKeys} `{!Sorter} `{!BatchHandler Handler}.

(** The closure [k] of [flushBuffer]: the split-safe key. *)
Definition k (kv : roachpb.KeyValue) : roachpb.Key :=
  match EnsureSafeSplitKey (roachpb.KeyValue_Key kv) with
  | (p, None) => p
  | (_, Some _) => roachpb.KeyValue_Key kv
  end.

(** The comparison given to [slices.SortFunc]. *)
Definition byKeyThenTimestamp (a b : roachpb.KeyValue) : Z :=
  let c := roachpb.Compare (k a) (k b) in
  if negb (c =? 0) then c
  else hlc.Compare (roachpb.ts a) (roachpb.ts b).

(** [for chunkEnd < len(kvs) && k(kvs[chunkEnd-1]).Equal(k(kvs[chunkEnd]))
    { chunkEnd++ }] *)
Fixpoint extendChunk (fuel : nat) (kvs : list roachpb.KeyValue)
    (chunkEnd : Z) : result Z :=
  match fuel with
  | O => OutOfFuel
  | S fuel =>
      if chunkEnd <? len kvs then
        a ← index kvs (Int64.sub chunkEnd 1);
        b ← index kvs chunkEnd;
        if roachpb.Equal (k a) (k b)
        then extendChunk fuel kvs (Int64.add chunkEnd 1)
        else Ok chunkEnd
      else Ok chunkEnd
  end.

(** What a worker goroutine captures. *)
Record chunk : Type := {
  chunk_bh : Handler;
  batchStart : Z;
  chunkEnd : Z
}.

(** [for worker := range lrw.bh { ... }]: the goroutines started, and the
    value of [chunkStart] after the loop.  The inner loop is given one step
    for every element of the slice and one for its last test. *)
Fixpoint assignChunks (bh : list Handler) (kvs : list roachpb.KeyValue)
    (chunkSize chunkStart : Z) : result (list chunk * Z) :=
  match bh with
  | [] => Ok ([], chunkStart)
  | h :: bh' =>
      if len kvs <=? chunkStart then Ok ([], chunkStart)
      else
        let batchStart := chunkStart in
        chunkEnd ← extendChunk (S (length kvs)) kvs
                     (Z.min (Int64.add chunkStart chunkSize) (len kvs));
        let chunkStart := chunkEnd in
        '(started, final) ← assignChunks bh' kvs chunkSize chunkStart;
        Ok ({| chunk_bh := h; batchStart := batchStart;
               chunkEnd := chunkEnd |} :: started, final)
  end.

(** The body of a worker goroutine: the batches it hands to its handler, in
    order, and how it ends. *)
Fixpoint worker (fuel : nat) (bh : Handler) (kvs : list roachpb.KeyValue)
    (batchSize batchStart chunkEnd : Z)
  : list (list roachpb.KeyValue) * result (option error) :=
  match fuel with
  | O => ([], OutOfFuel)
  | S fuel =>
      if batchStart <? chunkEnd then
        let batchEnd := Z.min (Int64.add batchStart batchSize) chunkEnd in
        match slice kvs batchStart batchEnd with
        | Ok batch =>
            match HandleBatch bh batch with
            | (_, (_, Some err)) => ([batch], Ok (Some err))
            | (bh, (_, None)) =>
                let '(batches, r) :=
                  worker fuel bh kvs batchSize batchEnd chunkEnd in
                (batch :: batches, r)
            end
        | Panic p => ([], Panic p)
        | OutOfFuel => ([], OutOfFuel)
        end
      else ([], Ok None)
  end.

(** Modelled from the spec: [ctxgroup.Group.Wait] is not among the sources.
    It waits for all workers, and the first error from any worker is the
    error of the flush; of several errors, the one of the worker started
    first is taken here. *)
Fixpoint g_Wait (rs : list (result (option error)))
  : result (option error) :=
  match rs with
  | [] => Ok None
  | r :: rs' =>
      e ← r;
      e' ← g_Wait rs';
      Ok (match e with Some _ => e | None => e' end)
  end.

(** [max((len(kvs)/len(lrw.bh))+1, batchSize)] *)
Definition chunkSize_of (kvs : list roachpb.KeyValue) (bh : list Handler)
    (batchSize : Z) : result Z :=
  if len bh =? 0 then Panic DivideByZero
  else Ok (Z.max (Int64.add (Z.quot (len kvs) (len bh)) 1) batchSize).

(** The goroutine of a chunk. *)
Definition run (fuel : nat) (kvs : list roachpb.KeyValue) (batchSize : Z)
    (c : chunk) : list (list roachpb.KeyValue) * result (option error) :=
  worker fuel (chunk_bh c) kvs batchSize (batchStart c) (chunkEnd c).

(** [flushBuffer], with the fields of the receiver it uses as arguments.
    The buffer goes back to the pool on return. *)
Definition flushBuffer (fuel : nat) (settings : Values) (bh : list Handler)
    (b : flushableBuffer) : result (jobspb.ResolvedSpans * option error) :=
  if len (curKVBatch (fb_buffer b)) =? 0 then Ok (fb_checkpoint b, None)
  else
    let kvs := curKVBatch (fb_buffer b) in
    let batchSize := flushBatchSize settings in
    let kvs := SortFunc byKeyThenTimestamp kvs in
    chunkSize ← chunkSize_of kvs bh batchSize;
    '(started, chunkStart) ← assignChunks bh kvs chunkSize 0;
    if negb (chunkStart =? len kvs) then Panic AssertionFailed
    else
      err ← g_Wait ((λ c, (run fuel kvs batchSize c).2) <$> started);
      match err with
      | Some err => Ok (fb_checkpoint b, Some err)
      | None => Ok (fb_checkpoint b, None)
      end.
End BatchApplier.

(** ** The goroutines of the processor *)

(** How a loop of the processor stands: it waits for more input, or it has
    returned. *)
Inductive exit : Type :=
  | Waiting
  | Returns (err : option error).

(** What a [select] of [consumeEvents] receives: an event, the closing of
    the event channel, or the timer, with the reading of the clock that
    [timeutil.Since] takes. *)
Inductive selected : Type :=
  | EventReceived (event : streamingccl.Event)
  | EventsClosed
  | TimerFired (now : Z).

(** [time.Time.Sub]: a duration, kept within the range of an [int64]. *)
Definition time_Sub (t u : Z) : Z :=
  Z.max Int64.min_int (Z.min Int64.max_int (t - u)).

Section Goroutines.
Context `{!Sizer} `{!span.Frontier F}.
Local Abbreviation lrwp := (logicalReplicationWriterProcessor F).

(** One turn of the loop of [consumeEvents]. *)
Definition consumeStep (sel : selected) (w : world) (lrw : lrwp)
  : result (lrwp * exit) :=
  match sel with
  | EventsClosed =>
      match flush w flushOnClose lrw with
      | (lrw, Some err) => Ok (lrw, Returns (Some err))
      | (lrw, None) => Ok (lrw, Returns None)
      end
  | EventReceived event =>
      r ← handleEvent w event lrw;
      match r with
      | (lrw, Some err) => Ok (lrw, Returns (Some err))
      | (lrw, None) => Ok (lrw, Waiting)
      end
  | TimerFired now =>
      let minFlushInterval := minimumFlushInterval (sv lrw) in
      if minFlushInterval <=? time_Sub now (lastFlushTime lrw) then
        match maybeFlush w flushOnTime lrw with
        | (lrw, Some err) => Ok (lrw, Returns (Some err))
        | (lrw, None) => Ok (lrw, Waiting)
        end
      else Ok (lrw, Waiting)
  end.

(** One turn of the loop of [consumeEvents] as the rest of the processor
    shapes it: what the [select] receives, what the flush loop has last
    stored in [flushInProgress] when the turn comes to load it, and what the
    rest of the system decides during the turn.  [consumeEvents] itself
    never stores to the flag. *)
Record turn : Type := {
  turn_selected : selected;
  turn_flushInProgress : bool;
  turn_world : world
}.

Definition with_flushInProgress (lrw : lrwp) (stored : bool) : lrwp :=
  {| InitialScanTimestamp := InitialScanTimestamp lrw; sv := sv lrw;
     knobs := knobs lrw; buffer := buffer lrw; frontier := frontier lrw;
     lastFlushTime := lastFlushTime lrw;
     lastFlushFrontier := lastFlushFrontier lrw;
     flushInProgress := stored; flushCh := flushCh lrw;
     metrics := metrics lrw |}.

(** [consumeEvents], turn after turn. *)
Fixpoint consumeEvents (inputs : list turn) (lrw : lrwp)
  : result (lrwp * exit) :=
  match inputs with
  | [] => Ok (lrw, Waiting)
  | t :: inputs' =>
      let lrw := with_flushInProgress lrw (turn_flushInProgress t) in
      r ← consumeStep (turn_selected t) (turn_world t) lrw;
      match r with
      | (lrw, Returns err) => Ok (lrw, Returns err)
      | (lrw, Waiting) => consumeEvents inputs' lrw
      end
  end.
End Goroutines.

(** [sendError], on the content of [errCh], a channel with room for one
    error: [None] is the empty channel. *)
Definition sendError (errCh : option error) (err : option error)
  : option error :=
  match err with
  | None => errCh
  | Some e =>
      match errCh with
      | None => Some e
      | Some _ => errCh
      end
  end.

(** [bufferPool]: [Get] takes some buffer out of the pool, the one at [i], and
    makes a new one when there is none; the pool may also lose a buffer at
    any time. *)
Definition bufferPool_Get (i : nat) (pool : list ingestionBuffer)
  : ingestionBuffer * list ingestionBuffer :=
  match pool !! i with
  | Some b => (b, delete i pool)
  | None => (NewIngestionBuffer, pool)
  end.

Definition releaseBuffer (pool : list ingestionBuffer) (b : ingestionBuffer)
  : list ingestionBuffer :=
  reset b :: pool.

(** What is done with the pool, one step at a time. *)
Inductive pool_step : Type :=
  | Get (i : nat)
  | Release (b : ingestionBuffer)
  | Lose (i : nat).

(** The buffers that [getBuffer] has returned, oldest first, and the pool
    that is left. *)
Fixpoint pool_run (steps : list pool_step) (pool : list ingestionBuffer)
  : list ingestionBuffer * list ingestionBuffer :=
  match steps with
  | [] => ([], pool)
  | Get i :: steps' =>
      let '(b, pool) := bufferPool_Get i pool in
      let '(got, pool) := pool_run steps' pool in
      (b :: got, pool)
  | Release b :: steps' => pool_run steps' (releaseBuffer pool b)
  | Lose i :: steps' => pool_run steps' (delete i pool)
  end.

Definition maxWriterWorkers : nat := 32.

(** The loop of [newLogicalReplicationWriterProcessor] that fills [bhPool]:
    [db] is [flowCtx.Cfg.DB] and [make i] is what
    [makeSQLLastWriteWinsHandler] returns at turn [i]; on an error the
    constructor returns it and no processor. *)
Fixpoint bhPool_fill {D R : Type} (db : D) (make : nat → R * option error)
    (i n : nat) : list (txnBatch D R) + error :=
  match n with
  | O => inl []
  | S n' =>
      match make i with
      | (_, Some err) => inr err
      | (rp, None) =>
          match bhPool_fill db make (S i) n' with
          | inl bhPool => inl ({| db := db; rp := rp |} :: bhPool)
          | inr err => inr err
          end
      end
  end.

Definition bhPool_new {D R : Type} (db : D) (make : nat → R * option error)
  : list (txnBatch D R) + error :=
  bhPool_fill db make 0 maxWriterWorkers.

Section FlushLoop.
Context `{!Sizer} `{!SplitKeys} `{!Sorter} `{!BatchHandler Handler}.

(** The handler of a worker goroutine when the goroutine ends. *)
Fixpoint worker_bh (fuel : nat) (bh : Handler) (kvs : list roachpb.KeyValue)
    (batchSize batchStart chunkEnd : Z) : Handler :=
  match fuel with
  | O => bh
  | S fuel =>
      if batchStart <? chunkEnd then
        let batchEnd := Z.min (Int64.add batchStart batchSize) chunkEnd in
        match slice kvs batchStart batchEnd with
        | Ok batch =>
            match HandleBatch bh batch with
            | (bh, (_, Some err)) => bh
            | (bh, (_, None)) =>
                worker_bh fuel bh kvs batchSize batchEnd chunkEnd
            end
        | _ => bh
        end
      else bh
  end.

(** The numbers of rows that a worker goroutine passes to
    [RecordBatchApplied], one for each batch applied: [batchEnd-batchStart],
    read after [batchStart = batchEnd]. *)
Fixpoint worker_recorded (fuel : nat) (bh : Handler)
    (kvs : list roachpb.KeyValue) (batchSize batchStart chunkEnd : Z)
  : list Z :=
  match fuel with
  | O => []
  | S fuel =>
      if batchStart <? chunkEnd then
        let batchEnd := Z.min (Int64.add batchStart batchSize) chunkEnd in
        match slice kvs batchStart batchEnd with
        | Ok batch =>
            match HandleBatch bh batch with
            | (bh, (_, Some err)) => []
            | (bh, (_, None)) =>
                let batchStart := batchEnd in
                Int64.sub batchEnd batchStart
                :: worker_recorded fuel bh kvs batchSize batchStart chunkEnd
            end
        | _ => []
        end
      else []
  end.

(** The handlers of [lrw.bh] after [flushBuffer]: those of the chunks as
    their workers leave them, the others as they were. *)
Definition bh_after (fuel : nat) (settings : Values) (bh : list Handler)
    (b : flushableBuffer) : list Handler :=
  if len (curKVBatch (fb_buffer b)) =? 0 then bh
  else
    let batchSize := flushBatchSize settings in
    let kvs := SortFunc byKeyThenTimestamp (curKVBatch (fb_buffer b)) in
    match chunkSize_of kvs bh batchSize with
    | Ok chunkSize =>
        match assignChunks bh kvs chunkSize 0 with
        | Ok (started, _) =>
            ((λ c, worker_bh fuel (chunk_bh c) kvs batchSize (batchStart c)
                     (chunkEnd c)) <$> started)
            ++ drop (length started) bh
        | _ => bh
        end
    | _ => bh
    end.

(** What the flush loop owns and shares: the handlers, the flag
    [flushInProgress], and the checkpoints it has sent on [checkpointCh]. *)
Record flusher : Type := {
  fl_bh : list Handler;
  fl_flushInProgress : bool;
  fl_checkpointCh : list jobspb.ResolvedSpans
}.

(** [flushLoop], on what it receives from [flushCh]: a buffer, with whether
    its checkpoint is taken from [checkpointCh] before [stopCh] is closed, or
    the closing of the channel. *)
Fixpoint flushLoop (fuel : nat) (settings : Values)
    (inbox : list (option (flushableBuffer * bool))) (fl : flusher)
  : result (flusher * exit) :=
  match inbox with
  | [] => Ok (fl, Waiting)
  | None :: _ => Ok (fl, Returns None)
  | Some (bufferToFlush, taken) :: inbox' =>
      let fl := {| fl_bh := fl_bh fl; fl_flushInProgress := true;
                   fl_checkpointCh := fl_checkpointCh fl |} in
      r ← flushBuffer fuel settings (fl_bh fl) bufferToFlush;
      let bh := bh_after fuel settings (fl_bh fl) bufferToFlush in
      match r with
      | (_, Some err) =>
          Ok ({| fl_bh := bh; fl_flushInProgress := true;
                 fl_checkpointCh := fl_checkpointCh fl |}, Returns (Some err))
      | (resolvedSpan, None) =>
          if taken then
            flushLoop fuel settings inbox'
              {| fl_bh := bh; fl_flushInProgress := false;
                 fl_checkpointCh := fl_checkpointCh fl ++ [resolvedSpan] |}
          else
            Ok ({| fl_bh := bh; fl_flushInProgress := true;
                   fl_checkpointCh := fl_checkpointCh fl |}, Returns None)
      end
  end.
End FlushLoop.

(** ** Reference implementations of the environment

    Small implementations of the interfaces above, on which the processor
    can be run. *)

(** The size of a pair: the bytes of its key and of its value. *)
Definition payloadSize : Sizer :=
  λ kv, len (roachpb.KeyValue_Key kv)
        + len (roachpb.Value_RawBytes (roachpb.KeyValue_Value kv)).

(** A split-safe key that drops the last byte of the key (its column family
    suffix) and fails on the empty key. *)
Definition dropFamily : SplitKeys :=
  λ key, match key with
         | [] => ([], Some "empty key"%string)
         | _ :: _ => (removelast key, None)
         end.

(** A merge sort. *)
Definition mergeSorter : Sorter :=
  λ A cmp s,
    @merge_sort A (λ a b, cmp a b <= 0) (λ a b, Z_le_dec (cmp a b) 0) s.

(** A row processor that records the rows it is given. *)
Definition recordRows : RowProcessor (list roachpb.KeyValue) :=
  λ r kv, (r ++ [kv], None).

(** A store whose [Txn] runs the closure once and returns its error. *)
Definition runsOnce : DB unit := λ d S f s, (d, f s).

(** A store whose [Txn] runs the closure again after a first run that
    failed, on the state that run left, and returns the error of the last
    run. *)
Definition retriesOnce : DB unit :=
  λ d S f s, match f s with
             | (s', Some _) => (d, f s')
             | (s', None) => (d, (s', None))
             end.

(** A row processor that takes the number of rows it is set to and fails
    on the next one. *)
Definition rejectAfter : RowProcessor nat :=
  λ n kv, match n with
          | O => (O, Some "row rejected"%string)
          | S n' => (n', None)
          end.

(** A frontier over spans that are always forwarded together: a forwarded
    timestamp raises every entry below it. *)
Definition jointFrontier : Type := list (roachpb.Span * hlc.Timestamp).

Definition jointFrontier_ts (f : jointFrontier) : hlc.Timestamp :=
  match f with
  | [] => {| hlc.WallTime := 0; hlc.Logical := 0 |}
  | (_, t) :: f' =>
      foldr (λ e m, if hlc.Less e.2 m then e.2 else m) t f'
  end.

Definition jointFrontier_ops : span.Frontier jointFrontier := {|
  span.Forward f _ t :=
    ((λ e, (e.1, if hlc.Less e.2 t then t else e.2)) <$> f,
     (hlc.Less (jointFrontier_ts f) t, None));
  span.Frontier_ts := jointFrontier_ts;
  span.Entries_list f := f;
  span.Len f := len f
|}.

(** ** Sample data *)

(** The settings as they are registered. *)
Definition registered : Values := {|
  minimumFlushInterval := 5 * 1000000000;
  targetKVBufferLen := 32;
  maxKVBufferSize := Z.shiftl 128 20;
  flushBatchSize := 32;
  quantize := 5 * 1000000000
|}.

Definition with_limits (target size : Z) : Values := {|
  minimumFlushInterval := minimumFlushInterval registered;
  targetKVBufferLen := target;
  maxKVBufferSize := size;
  flushBatchSize := flushBatchSize registered;
  quantize := quantize registered
|}.

Definition at_time (wall logical : Z) : hlc.Timestamp :=
  {| hlc.WallTime := wall; hlc.Logical := logical |}.

Definition pair_at (key : roachpb.Key) (wall : Z) : roachpb.KeyValue :=
  {| roachpb.KeyValue_Key := key;
     roachpb.KeyValue_Value :=
       {| roachpb.Value_RawBytes := ["v"%byte];
          roachpb.Value_Timestamp := at_time wall 0 |} |}.

(** Five pairs on three rows: the last byte of a key is its column family. *)
Definition five_pairs : list roachpb.KeyValue :=
  [ pair_at ["b"; "1"]%byte 30; pair_at ["a"; "2"]%byte 20;
    pair_at ["a"; "1"]%byte 10; pair_at ["c"; "1"]%byte 5;
    pair_at ["a"; "1"]%byte 15 ].

Definition span_a_z : roachpb.Span :=
  {| roachpb.Span_Key := ["a"%byte]; roachpb.Span_EndKey := ["z"%byte] |}.

Definition recorder : txnBatch unit (list roachpb.KeyValue) :=
  {| db := tt; rp := [] |}.

(** A processor that tracks [span_a_z], with an initial scan timestamp, a
    buffer and settings to choose. *)
Definition processor (initial : hlc.Timestamp) (b : ingestionBuffer)
    (settings : Values) : logicalReplicationWriterProcessor jointFrontier := {|
  InitialScanTimestamp := initial;
  sv := settings;
  knobs := None;
  buffer := b;
  frontier := [(span_a_z, at_time 7 0)];
  lastFlushTime := 0;
  lastFlushFrontier := at_time 0 0;
  flushInProgress := false;
  flushCh := [];
  metrics := {| FlushOnSize := 0; FlushOnTime := 0; CheckpointEvents := 0 |}
|}.

Definition event_of (t : streamingccl.EventType) : streamingccl.Event :=
  {| streamingccl.Event_Type := t; streamingccl.GetKVs := None;
     streamingccl.GetResolvedSpans := None |}.

Definition taken_at (now : Z) : world :=
  {| flushCh_ready := true; timeutil_Now := now |}.

(** The registered settings with another batch size. *)
Definition with_batch_size (n : Z) : Values := {|
  minimumFlushInterval := minimumFlushInterval registered;
  targetKVBufferLen := targetKVBufferLen registered;
  maxKVBufferSize := maxKVBufferSize registered;
  flushBatchSize := n;
  quantize := quantize registered
|}.

(** A processor whose flush loop is at work. *)
Definition in_flight (lrw : logicalReplicationWriterProcessor jointFrontier)
  : logicalReplicationWriterProcessor jointFrontier := {|
  InitialScanTimestamp := InitialScanTimestamp lrw;
  sv := sv lrw;
  knobs := knobs lrw;
  buffer := buffer lrw;
  frontier := frontier lrw;
  lastFlushTime := lastFlushTime lrw;
  lastFlushFrontier := lastFlushFrontier lrw;
  flushInProgress := true;
  flushCh := flushCh lrw;
  metrics := metrics lrw
|}.

(** An event with pairs. *)
Definition kv_event (kvs : list roachpb.KeyValue) : streamingccl.Event :=
  {| streamingccl.Event_Type := streamingccl.KVEvent;
     streamingccl.GetKVs := Some kvs;
     streamingccl.GetResolvedSpans := None |}.

(** Two pairs on row [a]. *)
Definition two_on_a : list roachpb.KeyValue :=
  [ pair_at ["a"; "2"]%byte 20; pair_at ["a"; "1"]%byte 10 ].

(** ** Notions used to state the properties *)

(** The sum of the sizes of a sequence of pairs. *)
Definition total_size `{!Sizer} (kvs : list roachpb.KeyValue) : Z :=
  foldr (λ kv n, Size kv + n) 0 kvs.

(** [m] is the least timestamp among [kvs]; [hlc.MaxTimestamp] when there is
    none. *)
Definition least_timestamp (m : hlc.Timestamp) (kvs : list roachpb.KeyValue)
  : Prop :=
  match kvs with
  | [] => m = hlc.MaxTimestamp
  | _ :: _ =>
      (∃ kv, kv ∈ kvs ∧ m = roachpb.ts kv)
      ∧ ∀ kv, kv ∈ kvs → hlc.LessEq m (roachpb.ts kv) = true
  end.

(** A buffer as the event loop first sees it: new, or reset. *)
Definition fresh (b : ingestionBuffer) : Prop :=
  b = NewIngestionBuffer ∨ ∃ b0, b = reset b0.

(** A frontier entry as a resolved span. *)
Definition resolved (e : roachpb.Span * hlc.Timestamp) : jobspb.ResolvedSpan :=
  {| jobspb.Span := e.1; jobspb.Timestamp := e.2 |}.

(** The elements of [s[lo:hi]]. *)
Definition seg {A} (s : list A) (lo hi : Z) : list A :=
  take (Z.to_nat (hi - lo)) (drop (Z.to_nat lo) s).

Section ChunkNotions.
Context `{!SplitKeys} {Handler : Type}.

(** The split-safe key changes between positions [e - 1] and [e]. *)
Definition key_change (s : list roachpb.KeyValue) (e : Z) : Prop :=
  ∃ a b, 1 <= e ∧ s !! Z.to_nat (e - 1) = Some a ∧ s !! Z.to_nat e = Some b
         ∧ k a ≠ k b.

(** Position [i] of the slice is given to the worker of chunk [c]. *)
Definition in_chunk (c : chunk (Handler := Handler)) (i : nat) : Prop :=
  batchStart c <= Z.of_nat i < chunkEnd c.

(** The chunks follow one another from [from] to [to]; none is empty. *)
Fixpoint tiles (from to : Z) (cs : list (chunk (Handler := Handler)))
  : Prop :=
  match cs with
  | [] => from = to
  | c :: cs' =>
      batchStart c = from ∧ from < chunkEnd c ∧ tiles (chunkEnd c) to cs'
  end.

(** What the loop over the workers guarantees of a chunk it starts: it
    lies within the slice, reaches the target size unless the slice ends
    before, and ends at the first position from there on that is the end of
    the slice or a change of key. *)
Definition chunk_ok (s : list roachpb.KeyValue) (chunkSize : Z)
    (c : chunk (Handler := Handler)) : Prop :=
  0 <= batchStart c
  ∧ chunkEnd c <= len s
  ∧ batchStart c + chunkSize <= Int64.max_int
  ∧ Z.min (batchStart c + chunkSize) (len s) <= chunkEnd c
  ∧ (chunkEnd c = len s ∨ key_change s (chunkEnd c))
  ∧ ∀ p, Z.min (batchStart c + chunkSize) (len s) <= p < chunkEnd c →
         ¬ key_change s p.
End ChunkNotions.

(** What a handler answers to the batches it is given one after the other,
    each in the state the batch before left it in. *)
Fixpoint answers `{!BatchHandler Handler} (h : Handler)
    (batches : list (list roachpb.KeyValue)) : list (option error) :=
  match batches with
  | [] => []
  | batch :: batches' =>
      let '(h', (_, err)) := HandleBatch h batch in
      err :: answers h' batches'
  end.

(** The pairs of an event that [handleEvent] buffers. *)
Definition kvs_of (event : streamingccl.Event) : list roachpb.KeyValue :=
  match streamingccl.Event_Type event with
  | streamingccl.KVEvent => default [] (streamingccl.GetKVs event)
  | _ => []
  end.

(** The pairs handed to the flush loop so far, and the pairs the processor
    has taken in: those handed over and those still in its buffer. *)
Definition handed {F} (lrw : logicalReplicationWriterProcessor F)
  : list roachpb.KeyValue :=
  mjoin ((λ b, curKVBatch (fb_buffer b)) <$> flushCh lrw).

Definition received {F} (lrw : logicalReplicationWriterProcessor F)
  : list roachpb.KeyValue :=
  handed lrw ++ curKVBatch (buffer lrw).

(** What a step that may flush keeps: the pairs taken in, the frontier and
    what is read of the settings; it hands over one buffer at most. *)
Definition kept {F} (lrw lrw' : logicalReplicationWriterProcessor F) : Prop :=
  received lrw' = received lrw
  ∧ flushCh lrw `prefix_of` flushCh lrw'
  ∧ (length (flushCh lrw') <= S (length (flushCh lrw)))%nat
  ∧ frontier lrw' = frontier lrw
  ∧ sv lrw' = sv lrw ∧ knobs lrw' = knobs lrw
  ∧ InitialScanTimestamp lrw' = InitialScanTimestamp lrw.

(** The pairs of the events among what [consumeEvents] receives. *)
Definition selected_kvs (sel : selected) : list roachpb.KeyValue :=
  match sel with
  | EventReceived event => kvs_of event
  | _ => []
  end.

Definition kvs_in (inputs : list turn) : list roachpb.KeyValue :=
  mjoin ((λ t, selected_kvs (turn_selected t)) <$> inputs).

(** The row processor after the rows of [batch], one after the other. *)
Definition after_rows `{!RowProcessor R} (r : R)
    (batch : list roachpb.KeyValue) : R :=
  foldl (λ r kv, (ProcessRow r kv).1) r batch.

(** The frontier after the resolved spans [rss], quantized, have been
    forwarded into it one after the other. *)
Definition after_forwards `{!span.Frontier F} (d : Z)
    (lrw : logicalReplicationWriterProcessor F)
    (rss : list jobspb.ResolvedSpan) : F :=
  foldl (λ f rs, (span.Forward f (jobspb.Span (quantized d lrw rs))
                    (jobspb.Timestamp (quantized d lrw rs))).1)
    (frontier lrw) rss.

(** [Txn], called on the store [d], runs the closure it is given once and
    returns the captured state and the error of that run. *)
Definition runs_once `{!DB D} (d : D) : Prop :=
  ∀ (S : Type) (f : S → S * option error) (s : S), (Txn d S f s).2 = f s.

Section FlushNotions.
Context `{!Sizer} `{!SplitKeys} `{!Sorter} `{!BatchHandler Handler}.

(** The handlers after the buffers [bs] have been flushed one after the
    other. *)
Definition bh_after_all (fuel : nat) (settings : Values) (bh : list Handler)
    (bs : list flushableBuffer) : list Handler :=
  foldl (bh_after fuel settings) bh bs.

(** [flushBuffer] returns without error, and with its checkpoint, for each
    of the buffers [bs], flushed one after the other with the handlers as
    the flush before left them. *)
Fixpoint flushed_in_turn (fuel : nat) (settings : Values) (bh : list Handler)
    (bs : list flushableBuffer) : Prop :=
  match bs with
  | [] => True
  | b :: bs' =>
      flushBuffer fuel settings bh b = Ok (fb_checkpoint b, None)
      ∧ flushed_in_turn fuel settings (bh_after fuel settings bh b) bs'
  end.
End FlushNotions.

(** The first error of a sequence of errors, some of which are [nil]. *)
Fixpoint first_error (errs : list (option error)) : option error :=
  match errs with
  | [] => None
  | Some e :: _ => Some e
  | None :: errs' => first_error errs'
  end.

(** * Properties *)

(** Arithmetic goals whose hypotheses are boolean tests. *)
Ltac bool_lia :=
  repeat match goal with
    | H : _ && _ = true |- _ => apply andb_true_iff in H; destruct H
    | H : _ && _ = false |- _ => apply andb_false_iff in H; destruct H
    | H : _ || _ = true |- _ => apply orb_true_iff in H; destruct H
    | H : _ || _ = false |- _ => apply orb_false_iff in H; destruct H
    | H : negb _ = true |- _ => apply negb_true_iff in H
    | H : negb _ = false |- _ => apply negb_false_iff in H
    end;
  rewrite ?Z.ltb_lt, ?Z.ltb_ge, ?Z.leb_le, ?Z.leb_gt, ?Z.eqb_eq, ?Z.eqb_neq
    in *;
  lia.

(** Boolean tests in the goal that hold by arithmetic. *)
Ltac bool_lia_goal :=
  rewrite ?andb_true_iff, ?orb_true_iff, ?negb_true_iff,
    ?Z.ltb_lt, ?Z.leb_le, ?Z.eqb_eq, ?Z.ltb_ge, ?Z.leb_gt, ?Z.eqb_neq;
  lia.

(** ** Machine integers: facts *)

Lemma wrap_in_range z : Int64.in_range z → Int64.wrap z = z.
Proof.
  unfold Int64.in_range, Int64.min_int, Int64.max_int, Int64.wrap.
  intros Hz. rewrite Z.mod_small; lia.
Qed.

Lemma wrap_add_l x y : Int64.wrap (Int64.wrap x + y) = Int64.wrap (x + y).
Proof.
  unfold Int64.wrap. f_equal.
  replace ((x + 2 ^ 63) `mod` 2 ^ 64 - 2 ^ 63 + y + 2 ^ 63)
    with ((x + 2 ^ 63) `mod` 2 ^ 64 + y) by lia.
  rewrite Z.add_mod_idemp_l by lia. f_equal. lia.
Qed.

Lemma len_nonneg {A} (s : list A) : 0 <= len s.
Proof. unfold len. lia. Qed.

Lemma len_app {A} (s t : list A) : len (s ++ t) = len s + len t.
Proof. unfold len. rewrite length_app. lia. Qed.

Lemma len_nil_iff {A} (s : list A) : len s = 0 ↔ s = [].
Proof. unfold len. destruct s; simpl; split; intros; try done; lia. Qed.

(** ** Timestamps: facts *)

Lemma LessEq_refl t : hlc.LessEq t t = true.
Proof. unfold hlc.LessEq. rewrite Z.eqb_refl, Z.leb_refl. apply orb_true_r. Qed.

Lemma LessEq_spec t s :
  hlc.LessEq t s = true
  ↔ hlc.WallTime t < hlc.WallTime s
    ∨ (hlc.WallTime t = hlc.WallTime s ∧ hlc.Logical t <= hlc.Logical s).
Proof. unfold hlc.LessEq. lia. Qed.

Lemma Less_spec t s :
  hlc.Less t s = true
  ↔ hlc.WallTime t < hlc.WallTime s
    ∨ (hlc.WallTime t = hlc.WallTime s ∧ hlc.Logical t < hlc.Logical s).
Proof. unfold hlc.Less. lia. Qed.

Lemma Less_false_LessEq t s : hlc.Less t s = false → hlc.LessEq s t = true.
Proof.
  intros Hf. apply LessEq_spec.
  destruct (hlc.Less t s) eqn:E; [done|].
  assert (¬ (hlc.WallTime t < hlc.WallTime s
             ∨ (hlc.WallTime t = hlc.WallTime s
                ∧ hlc.Logical t < hlc.Logical s))) as Hn.
  { rewrite <- Less_spec. congruence. }
  lia.
Qed.

Lemma LessEq_trans t s u :
  hlc.LessEq t s = true → hlc.LessEq s u = true → hlc.LessEq t u = true.
Proof. rewrite !LessEq_spec. lia. Qed.

Lemma Compare_le_LessEq t s : hlc.Compare t s <= 0 ↔ hlc.LessEq t s = true.
Proof.
  rewrite LessEq_spec. unfold hlc.Compare.
  repeat case_match; lia.
Qed.

Lemma wf_LessEq_Max t : hlc.wf t → hlc.LessEq t hlc.MaxTimestamp = true.
Proof.
  intros [Hw Hl]. apply LessEq_spec. simpl.
  unfold Int64.in_range, Int64.in_range32 in *. lia.
Qed.

Lemma LessEq_antisym t s :
  hlc.LessEq t s = true → hlc.LessEq s t = true → t = s.
Proof.
  rewrite !LessEq_spec. destruct t, s; simpl. intros ? ?.
  f_equal; lia.
Qed.

(** ** The ingestion buffer *)

Section Buffer.
Context `{!Sizer}.

Lemma fresh_new b : fresh b → b = NewIngestionBuffer.
Proof. intros [-> | [b0 ->]]; reflexivity. Qed.

Lemma foldl_addKV_batch kvs b :
  curKVBatch (foldl addKV b kvs) = curKVBatch b ++ kvs.
Proof.
  revert b. induction kvs as [|kv kvs IH]; intros b; simpl.
  - by rewrite app_nil_r.
  - rewrite IH. simpl. by rewrite <- app_assoc.
Qed.

Lemma total_size_nonneg kvs :
  Forall (λ kv, 0 <= Size kv) kvs → 0 <= total_size kvs.
Proof. induction 1; simpl; lia. Qed.

(** The byte size is the sum of the sizes as a Go [int] holds it. *)
Lemma foldl_addKV_size kvs b :
  Int64.in_range (curKVBatchSize b) →
  curKVBatchSize (foldl addKV b kvs)
  = Int64.wrap (curKVBatchSize b + total_size kvs).
Proof.
  revert b. induction kvs as [|kv kvs IH]; intros b Hb; simpl.
  - rewrite Z.add_0_r. symmetry. by apply wrap_in_range.
  - rewrite IH; simpl.
    + unfold Int64.add. rewrite wrap_add_l. f_equal. lia.
    + unfold Int64.add, Int64.wrap, Int64.in_range, Int64.min_int,
        Int64.max_int.
      pose proof (Z.mod_pos_bound (curKVBatchSize b + Size kv + 2 ^ 63)
                    (2 ^ 64) ltac:(lia)).
      lia.
Qed.

Lemma foldl_addKV_min_below kvs b :
  hlc.LessEq (minTimestamp (foldl addKV b kvs)) (minTimestamp b) = true
  ∧ ∀ kv, kv ∈ kvs →
      hlc.LessEq (minTimestamp (foldl addKV b kvs)) (roachpb.ts kv) = true.
Proof.
  revert b. induction kvs as [|kv kvs IH]; intros b; simpl.
  - split; [apply LessEq_refl | intros kv Hin; by apply elem_of_nil in Hin].
  - destruct (IH (addKV b kv)) as [Hb Hall]. simpl in Hb.
    assert (hlc.LessEq (minTimestamp (addKV b kv)) (minTimestamp b) = true
            ∧ hlc.LessEq (minTimestamp (addKV b kv)) (roachpb.ts kv) = true)
      as [H1 H2].
    { simpl. destruct (hlc.Less (roachpb.ts kv) (minTimestamp b)) eqn:E.
      - split; [|apply LessEq_refl].
        apply Less_spec in E. apply LessEq_spec. lia.
      - split; [apply LessEq_refl|]. by apply Less_false_LessEq. }
    split; [by eapply LessEq_trans|].
    intros kv' [->|Hin]%elem_of_cons; [by eapply LessEq_trans|by apply Hall].
Qed.

Lemma foldl_addKV_min_attained kvs b :
  minTimestamp (foldl addKV b kvs) = minTimestamp b
  ∨ ∃ kv, kv ∈ kvs ∧ minTimestamp (foldl addKV b kvs) = roachpb.ts kv.
Proof.
  revert b. induction kvs as [|kv kvs IH]; intros b; simpl; [by left|].
  destruct (IH (addKV b kv)) as [Heq | (kv' & Hin & Heq)].
  - rewrite Heq. simpl.
    destruct (hlc.Less (roachpb.ts kv) (minTimestamp b)); [|by left].
    right. exists kv. split; [apply list_elem_of_here | done].
  - right. exists kv'. split; [by apply list_elem_of_further | done].
Qed.

(** C8: after any sequence of [addKV] calls on a new or reset buffer, the
    byte size is the sum of the sizes of the pairs added, as a Go [int] holds
    it: the sum itself when the sizes, which [Size()] does not make negative,
    add up to an [int]; the minimum timestamp is the least of the timestamps
    of the pairs, which are values of the Go type ([hlc.MaxTimestamp] when
    nothing was added); [reset] gives back the empty buffer. *)
Theorem addKV_accounting (b : ingestionBuffer) (kvs : list roachpb.KeyValue) :
  fresh b →
  Forall (λ kv, hlc.wf (roachpb.ts kv)) kvs →
  let b' := foldl addKV b kvs in
  curKVBatch b' = kvs
  ∧ curKVBatchSize b' = Int64.wrap (total_size kvs)
  ∧ (Forall (λ kv, 0 <= Size kv) kvs →
     total_size kvs <= Int64.max_int →
     curKVBatchSize b' = total_size kvs)
  ∧ least_timestamp (minTimestamp b') kvs
  ∧ len (curKVBatch (reset b')) = 0
  ∧ curKVBatchSize (reset b') = 0
  ∧ minTimestamp (reset b') = hlc.MaxTimestamp.
Proof.
  intros ->%fresh_new Hwf. cbv zeta.
  split; [by rewrite foldl_addKV_batch|].
  assert (curKVBatchSize (foldl addKV NewIngestionBuffer kvs)
          = Int64.wrap (total_size kvs)) as Hsize.
  { by rewrite foldl_addKV_size. }
  split; [done|].
  split.
  { intros Hpos Hsum. rewrite Hsize. apply wrap_in_range.
    pose proof (total_size_nonneg kvs Hpos).
    unfold Int64.in_range, Int64.min_int. lia. }
  split; [|done].
  assert (∀ kv0, kv0 ∈ kvs →
            (∃ kv, kv ∈ kvs
               ∧ minTimestamp (foldl addKV NewIngestionBuffer kvs)
                 = roachpb.ts kv)
            ∧ ∀ kv, kv ∈ kvs →
                hlc.LessEq (minTimestamp (foldl addKV NewIngestionBuffer kvs))
                  (roachpb.ts kv) = true) as Hleast.
  { intros kv0 Hin0.
    destruct (foldl_addKV_min_below kvs NewIngestionBuffer) as [_ Hbelow].
    split; [|done].
    destruct (foldl_addKV_min_attained kvs NewIngestionBuffer)
      as [Heq | Hex]; [|done].
    exists kv0. split; [done|].
    apply LessEq_antisym; [by apply Hbelow|].
    rewrite Heq. apply wf_LessEq_Max.
    rewrite Forall_forall in Hwf. by apply Hwf. }
  destruct kvs as [|kv0 kvs0]; [done|].
  apply (Hleast kv0), list_elem_of_here.
Qed.

(** C4, as the code has it: a flush is forced when the hard limit is
    positive and reached; short of the hard limit, an optional flush is
    asked for when the row count reaches the target, and none below it. *)
Theorem shouldFlushOnKVSize_thresholds (b : ingestionBuffer) (sv : Values) :
  (0 < maxKVBufferSize sv →
   maxKVBufferSize sv <= curKVBatchSize b →
   shouldFlushOnKVSize b sv = (true, true))
  ∧ (targetKVBufferLen sv <= len (curKVBatch b) →
     curKVBatchSize b < maxKVBufferSize sv →
     shouldFlushOnKVSize b sv = (true, false))
  ∧ (len (curKVBatch b) < targetKVBufferLen sv →
     curKVBatchSize b < maxKVBufferSize sv →
     shouldFlushOnKVSize b sv = (false, false)).
Proof.
  unfold shouldFlushOnKVSize.
  repeat split; intros; repeat case_match; try done; exfalso; bool_lia.
Qed.

(** C10: with a hard limit of zero or less no flush is ever forced; with a
    target length of zero or less even the empty buffer asks for a flush. *)
Theorem shouldFlushOnKVSize_disabled (b : ingestionBuffer) (sv : Values) :
  (maxKVBufferSize sv <= 0 → (shouldFlushOnKVSize b sv).2 = false)
  ∧ (targetKVBufferLen sv <= 0 → curKVBatch b = [] →
     (shouldFlushOnKVSize b sv).1 = true).
Proof.
  unfold shouldFlushOnKVSize. split.
  - intros Hmax. destruct (_ && _) eqn:E; [exfalso; bool_lia|].
    by case_match.
  - intros Htarget ->. destruct (_ && _) eqn:E; [done|].
    case_match; [done|]. unfold len in *. simpl in *. exfalso. bool_lia.
Qed.
End Buffer.

(** ** The flush coordinator and the event handler *)

Section Coordinator.
Context `{!Sizer} `{!span.Frontier F}.
Local Abbreviation lrwp := (logicalReplicationWriterProcessor F).

Lemma flush_no_error w reason (lrw : lrwp) : (flush w reason lrw).2 = None.
Proof. unfold flush. by destruct (flushCh_ready w). Qed.

Lemma maybeFlush_no_error w reason (lrw : lrwp) :
  (maybeFlush w reason lrw).2 = None.
Proof.
  unfold maybeFlush. repeat case_match; try done. apply flush_no_error.
Qed.

Lemma flushOnThresholds_no_error w (lrw : lrwp) :
  (flushOnThresholds w lrw).2 = None.
Proof.
  unfold flushOnThresholds.
  destruct (shouldFlushOnKVSize _ _) as [[] []];
    auto using flush_no_error, maybeFlush_no_error.
Qed.

(** C5: [maybeFlush] returns [nil] and leaves the processor as it is when a
    flush is in flight, or when the buffer is empty and the frontier is not
    past the last flushed frontier; in every other case it is [flush]. *)
Theorem maybeFlush_noop_or_flush (w : world) (reason : flushReason)
    (lrw : lrwp) :
  (flushInProgress lrw = true
   ∨ (curKVBatch (buffer lrw) = []
      ∧ hlc.LessEq (span.Frontier_ts (frontier lrw)) (lastFlushFrontier lrw)
        = true) →
   maybeFlush w reason lrw = (lrw, None))
  ∧ (flushInProgress lrw = false →
     curKVBatch (buffer lrw) ≠ []
     ∨ hlc.LessEq (span.Frontier_ts (frontier lrw)) (lastFlushFrontier lrw)
       = false →
     maybeFlush w reason lrw = flush w reason lrw).
Proof.
  unfold maybeFlush. split.
  - intros [-> | [Hempty ->]]; [done|].
    rewrite Hempty. simpl. by destruct (flushInProgress lrw).
  - intros -> [Hne | ->].
    + destruct (len (curKVBatch (buffer lrw)) =? 0) eqn:E; [|done].
      apply Z.eqb_eq, len_nil_iff in E. done.
    + by rewrite andb_false_r.
Qed.

(** *** Quantization of checkpoints *)




Lemma bufferCheckpoint_forwards event (lrw : lrwp) resolvedSpans :
  streamingccl.GetResolvedSpans event = Some resolvedSpans →
  elided lrw = false →
  frontier (bufferCheckpoint event lrw).1
  = frontier (forwardResolved (quantize (sv lrw)) resolvedSpans lrw).1
  ∧ (bufferCheckpoint event lrw).2
    = (forwardResolved (quantize (sv lrw)) resolvedSpans lrw).2.
Proof.
  intros Hspans Hel. unfold bufferCheckpoint. rewrite Hel, Hspans.
  by destruct (forwardResolved _ _ _) as [lrw' [err|]].
Qed.


(** *** Events the handler rejects *)

Lemma bufferKVs_nil (lrw : lrwp) :
  bufferKVs None lrw = (lrw, Some "kv event expected to have kv"%string).
Proof. reflexivity. Qed.

(** C9, as the code has it by design: an event of a class that is not
    supported (SSTable, DeleteRange, unknown) and a checkpoint event whose
    resolved spans are [nil], which no testing knob elides, make
    [handleEvent] return an error and leave the processor as it is; a split
    event, when no testing knob fails, returns no error and changes the
    processor only through the threshold check that ends the handling of
    every event, which does nothing below both thresholds. *)
Theorem handleEvent_rejects (w : world) (event : streamingccl.Event)
    (lrw : lrwp) :
  (streamingccl.Event_Type event = streamingccl.SSTableEvent
   ∨ streamingccl.Event_Type event = streamingccl.DeleteRangeEvent
   ∨ (∃ code, streamingccl.Event_Type event = streamingccl.OtherEvent code) →
   ∃ err, handleEvent w event lrw = Ok (lrw, Some err))
  ∧ (streamingccl.Event_Type event = streamingccl.CheckpointEvent →
     streamingccl.GetResolvedSpans event = None →
     elided lrw = false →
     ∃ err, handleEvent w event lrw = Ok (lrw, Some err))
  ∧ (streamingccl.Event_Type event = streamingccl.SplitEvent →
     afterReceivingEvent lrw = None →
     handleEvent w event lrw = Ok (flushOnThresholds w lrw)
     ∧ (flushOnThresholds w lrw).2 = None
     ∧ (shouldFlushOnKVSize (buffer lrw) (sv lrw) = (false, false) →
        handleEvent w event lrw = Ok (lrw, None))).
Proof.
  unfold handleEvent. split; [|split].
  - intros [-> | [-> | [code ->]]]; simpl;
      destruct (afterReceivingEvent lrw); eauto.
  - intros -> Hnil Hel. simpl. unfold bufferCheckpoint.
    rewrite Hel, Hnil. destruct (afterReceivingEvent lrw); eauto.
  - intros -> ->. simpl.
    split; [|split].
    + by destruct (flushOnThresholds w lrw) as [? ?].
    + apply flushOnThresholds_no_error.
    + intros Hbelow. unfold flushOnThresholds. by rewrite Hbelow.
Qed.

(** A KV event without pairs stops [handleEvent] before [bufferKVs] is
    reached: the admit latency is taken from the first pair. *)
Lemma handleEvent_KVEvent_empty w event (lrw : lrwp) :
  streamingccl.Event_Type event = streamingccl.KVEvent →
  default [] (streamingccl.GetKVs event) = [] →
  handleEvent w event lrw = Panic IndexOutOfRange.
Proof. intros Ht Hkvs. unfold handleEvent. by rewrite Ht, Hkvs. Qed.

(** *** Checkpoints *)

Lemma visit_all {S : Type} es (g : roachpb.Span → hlc.Timestamp → S → S) s :
  span.visit es (λ sp t a, (g sp t a, span.ContinueMatch)) s
  = foldl (λ a e, g e.1 e.2 a) s es.
Proof.
  revert s. induction es as [|[sp t] es IH]; intros s; simpl; [done|].
  apply IH.
Qed.

Lemma collect_filter es (acc : list jobspb.ResolvedSpan) :
  foldl (λ a (e : roachpb.Span * hlc.Timestamp),
           if negb (hlc.IsEmpty e.2)
           then a ++ [ {| jobspb.Span := e.1; jobspb.Timestamp := e.2 |} ]
           else a) acc es
  = acc ++ (resolved <$> filter (λ e, hlc.IsEmpty e.2 = false) es).
Proof.
  revert acc. induction es as [|[sp t] es IH]; intros acc; simpl.
  - by rewrite app_nil_r.
  - rewrite IH. destruct (hlc.IsEmpty t) eqn:E; simpl.
    + by rewrite filter_cons_False by (simpl; congruence).
    + rewrite filter_cons_True by done. simpl. by rewrite <- app_assoc.
Qed.

Lemma checkpoint_of_filter (f : F) :
  jobspb.ResolvedSpans_list (checkpoint_of f)
  = resolved <$> filter (λ e, hlc.IsEmpty e.2 = false) (span.Entries_list f).
Proof.
  unfold checkpoint_of, span.Entries. simpl. rewrite visit_all.
  by rewrite collect_filter.
Qed.

Lemma resolved_inj : Inj (=) (=) resolved.
Proof. intros [s1 t1] [s2 t2] Heq. by injection Heq as -> ->. Qed.
End Coordinator.

(** ** Keys: facts *)

Lemma to_N_inj x y : Byte.to_N x = Byte.to_N y → x = y.
Proof.
  intros Heq. pose proof (Byte.of_to_N x) as Hx.
  rewrite Heq, Byte.of_to_N in Hx. congruence.
Qed.

Lemma Equal_eq (a b : roachpb.Key) : roachpb.Equal a b = true ↔ a = b.
Proof.
  revert b. induction a as [|x a IH]; intros [|y b]; simpl; try done.
  rewrite andb_true_iff, IH. split.
  - intros [Hxy ->]. f_equal. by apply Byte.byte_dec_bl.
  - intros [= -> ->]. split; [by apply Byte.byte_dec_lb | done].
Qed.

Lemma Compare_eq (a b : roachpb.Key) : roachpb.Compare a b = 0 ↔ a = b.
Proof.
  revert b. induction a as [|x a IH]; intros [|y b]; simpl; try done.
  destruct (N.compare _ _) eqn:E.
  - apply N.compare_eq_iff, to_N_inj in E as ->. rewrite IH.
    split; [by intros -> | by intros [= ->]].
  - split; [done|]. intros [= -> ->]. by rewrite N.compare_refl in E.
  - split; [done|]. intros [= -> ->]. by rewrite N.compare_refl in E.
Qed.

Lemma Compare_antisym (a b : roachpb.Key) :
  roachpb.Compare b a = - roachpb.Compare a b.
Proof.
  revert b. induction a as [|x a IH]; intros [|y b]; simpl; try done.
  rewrite (N.compare_antisym (Byte.to_N x) (Byte.to_N y)).
  destruct (N.compare (Byte.to_N x) (Byte.to_N y)); simpl; [apply IH|done..].
Qed.

Lemma Compare_trans (a b c : roachpb.Key) :
  roachpb.Compare a b <= 0 → roachpb.Compare b c <= 0 →
  roachpb.Compare a c <= 0.
Proof.
  revert b c. induction a as [|x a IH]; intros [|y b] [|z c]; simpl; try lia.
  destruct (N.compare (Byte.to_N x) (Byte.to_N y)) eqn:Exy;
    destruct (N.compare (Byte.to_N y) (Byte.to_N z)) eqn:Eyz; try lia.
  - apply N.compare_eq_iff in Exy, Eyz.
    rewrite Exy, Eyz, N.compare_refl. apply IH.
  - apply N.compare_eq_iff in Exy. rewrite Exy, Eyz. lia.
  - apply N.compare_eq_iff in Eyz. rewrite <- Eyz, Exy. lia.
  - intros _ _. rewrite N.compare_lt_iff in Exy, Eyz.
    assert (Byte.to_N x < Byte.to_N z)%N as Hlt by lia.
    apply N.compare_lt_iff in Hlt. rewrite Hlt. lia.
Qed.

Lemma Compare_le_antisym (a b : roachpb.Key) :
  roachpb.Compare a b <= 0 → roachpb.Compare b a <= 0 → a = b.
Proof.
  intros Hab Hba. apply Compare_eq. rewrite Compare_antisym in Hba. lia.
Qed.

(** ** The comparison of the sort *)

Section Comparison.
Context `{!SplitKeys}.

Lemma byKeyThenTimestamp_le a b :
  byKeyThenTimestamp a b <= 0
  ↔ roachpb.Compare (k a) (k b) < 0
    ∨ (k a = k b ∧ hlc.LessEq (roachpb.ts a) (roachpb.ts b) = true).
Proof.
  unfold byKeyThenTimestamp.
  destruct (roachpb.Compare (k a) (k b) =? 0) eqn:E; simpl.
  - apply Z.eqb_eq in E. rewrite Compare_le_LessEq, E.
    apply Compare_eq in E. split; [by right | intros [?|[_ ?]]; [lia|done]].
  - apply Z.eqb_neq in E. split; [left; lia|].
    intros [?|[Heq _]]; [lia|]. by apply Compare_eq in Heq.
Qed.

Lemma byKeyThenTimestamp_key a b :
  byKeyThenTimestamp a b <= 0 → roachpb.Compare (k a) (k b) <= 0.
Proof.
  rewrite byKeyThenTimestamp_le. intros [?|[Heq _]]; [lia|].
  apply Compare_eq in Heq. lia.
Qed.

Lemma byKeyThenTimestamp_trans :
  Transitive (λ a b, byKeyThenTimestamp a b <= 0).
Proof.
  intros a b c. rewrite !byKeyThenTimestamp_le.
  intros [Hab|[Hab Tab]] [Hbc|[Hbc Tbc]].
  - left. pose proof (Compare_trans (k a) (k b) (k c)) as Ht.
    destruct (decide (roachpb.Compare (k a) (k c) = 0)) as [E|E]; [|lia].
    apply Compare_eq in E. rewrite E in Hab.
    rewrite (Compare_antisym (k b) (k c)) in Hab. lia.
  - left. by rewrite <- Hbc.
  - left. by rewrite Hab.
  - right. split; [congruence | by eapply LessEq_trans].
Qed.

Lemma hlc_Compare_antisym t s : hlc.Compare s t = - hlc.Compare t s.
Proof. unfold hlc.Compare. repeat case_match; lia. Qed.

Lemma byKeyThenTimestamp_consistent a b :
  byKeyThenTimestamp a b < 0 ↔ 0 < byKeyThenTimestamp b a.
Proof.
  unfold byKeyThenTimestamp.
  rewrite (Compare_antisym (k a) (k b)).
  rewrite (hlc_Compare_antisym (roachpb.ts a) (roachpb.ts b)).
  destruct (roachpb.Compare (k a) (k b) =? 0) eqn:E.
  - apply Z.eqb_eq in E. rewrite E. simpl. lia.
  - apply Z.eqb_neq in E.
    replace (- roachpb.Compare (k a) (k b) =? 0) with false
      by (symmetry; bool_lia_goal).
    simpl. lia.
Qed.
End Comparison.

(** ** Slices: facts *)

Lemma index_ok {A} (s : list A) (i : Z) :
  0 <= i < len s → ∃ x, index s i = Ok x ∧ s !! Z.to_nat i = Some x.
Proof.
  intros Hi. unfold index.
  destruct (lookup_lt_is_Some_2 s (Z.to_nat i)) as [x Hx].
  { unfold len in Hi. lia. }
  exists x. rewrite Hx.
  by replace ((0 <=? i) && (i <? len s)) with true by (symmetry; bool_lia_goal).
Qed.

Lemma add_in_range a b :
  Int64.min_int <= a + b <= Int64.max_int → Int64.add a b = a + b.
Proof. intros. by apply wrap_in_range. Qed.

Lemma sub_in_range a b :
  Int64.min_int <= a - b <= Int64.max_int → Int64.sub a b = a - b.
Proof. intros. by apply wrap_in_range. Qed.

(** ** Chunking *)

Section Chunking.
Context `{!Sizer} `{!SplitKeys} `{!Sorter} `{!BatchHandler Handler}.
Implicit Types (s : list roachpb.KeyValue) (bh : list Handler).

(** The inner loop stops at the first position, from where it starts,
    that is the end of the slice or a change of key. *)
Lemma extendChunk_spec s fuel c :
  len s <= Int64.max_int →
  1 <= c <= len s →
  (Z.to_nat (len s - c) < fuel)%nat →
  ∃ e, extendChunk fuel s c = Ok e
       ∧ c <= e <= len s
       ∧ (e = len s ∨ key_change s e)
       ∧ ∀ p, c <= p < e → ¬ key_change s p.
Proof.
  intros Hmax. revert c. induction fuel as [|fuel IH]; intros c Hc Hfuel;
    [lia|]. simpl.
  destruct (c <? len s) eqn:Elt.
  - apply Z.ltb_lt in Elt.
    rewrite sub_in_range by (unfold Int64.min_int, Int64.max_int in *; lia).
    destruct (index_ok s (c - 1)) as (a & -> & Ha); [lia|].
    destruct (index_ok s c) as (b & -> & Hb); [lia|]. simpl.
    destruct (roachpb.Equal (k a) (k b)) eqn:Eeq.
    + apply Equal_eq in Eeq.
      rewrite add_in_range
        by (unfold Int64.min_int, Int64.max_int in *; lia).
      destruct (IH (c + 1)) as (e & He & Hbounds & Hend & Hrun); [lia..|].
      exists e. split; [done|]. split; [lia|]. split; [done|].
      intros p Hp. destruct (decide (p = c)) as [->|Hne].
      * intros (a' & b' & _ & Ha' & Hb' & Hne). congruence.
      * apply Hrun. lia.
    + exists c. split; [done|]. split; [lia|]. split; [|intros p; lia].
      right. exists a, b. repeat split; try done; try lia.
      intros Heq. apply Equal_eq in Heq. congruence.
  - apply Z.ltb_ge in Elt. exists c. split; [done|]. split; [lia|].
    split; [left; lia | intros p; lia].
Qed.

Local Arguments extendChunk : simpl never.

Lemma assignChunks_spec s chunkSize bh chunkStart :
  2 * len s <= Int64.max_int →
  1 <= chunkSize <= Int64.max_int →
  0 <= chunkStart <= len s →
  (chunkStart < len s → chunkStart + chunkSize <= Int64.max_int) →
  ∃ cs final,
    assignChunks bh s chunkSize chunkStart = Ok (cs, final)
    ∧ chunkStart <= final <= len s
    ∧ Z.min (chunkStart + len bh * chunkSize) (len s) <= final
    ∧ tiles chunkStart final cs
    ∧ Forall (chunk_ok s chunkSize) cs
    ∧ chunk_bh <$> cs = take (length cs) bh.
Proof.
  intros Hlen Hsize. revert chunkStart.
  induction bh as [|h bh IH]; intros chunkStart Hstart Hfit; simpl.
  { exists [], chunkStart. repeat split; try done; try lia.
    unfold len. simpl. lia. }
  destruct (len s <=? chunkStart) eqn:Ebreak.
  { apply Z.leb_le in Ebreak. exists [], chunkStart.
    repeat split; try done; lia. }
  apply Z.leb_gt in Ebreak. specialize (Hfit Ebreak).
  rewrite add_in_range by (unfold Int64.min_int, Int64.max_int in *; lia).
  destruct (extendChunk_spec s (S (length s))
              (Z.min (chunkStart + chunkSize) (len s)))
    as (e & -> & He & Hend & Hrun); [unfold len in *; lia..|].
  simpl.
  destruct (IH e) as (cs & final & -> & Hfinal & Hcover & Htiles & Hok & Hbh);
    [lia..|].
  simpl. eexists _, final. split; [done|].
  assert (0 <= len bh * chunkSize) as Hprod
    by (apply Z.mul_nonneg_nonneg; [apply len_nonneg | lia]).
  assert (len (h :: bh) = 1 + len bh) as Hcons
    by (unfold len; simpl; lia).
  rewrite Hcons.
  split; [lia|]. split; [lia|]. split; [simpl; repeat split; [lia|done]|].
  split; [|simpl; f_equal; exact Hbh].
  constructor; [|done]. unfold chunk_ok. simpl.
  repeat split; try done; lia.
Qed.

Lemma chunkSize_of_spec s bh batchSize :
  bh ≠ [] →
  len s < Int64.max_int →
  batchSize <= Int64.max_int →
  ∃ chunkSize,
    chunkSize_of s bh batchSize = Ok chunkSize
    ∧ chunkSize = Z.max (len s `div` len bh + 1) batchSize
    ∧ 1 <= chunkSize <= Int64.max_int
    ∧ len s < len bh * chunkSize.
Proof.
  intros Hbh Hlen Hbatch. unfold chunkSize_of.
  assert (0 < len bh) as Hn.
  { destruct bh; [done|]. unfold len. simpl. lia. }
  pose proof (len_nonneg s) as Hs.
  replace (len bh =? 0) with false by (symmetry; bool_lia_goal).
  rewrite Z.quot_div_nonneg by lia.
  pose proof (Z.div_mod (len s) (len bh) ltac:(lia)) as Hdm.
  pose proof (Z.mod_pos_bound (len s) (len bh) Hn) as Hm.
  pose proof (Z.div_pos (len s) (len bh) Hs Hn) as Hq0.
  pose proof (Z.div_le_upper_bound (len s) (len bh) (len s) Hn) as Hq.
  assert (len s `div` len bh <= len s) as Hqs by (apply Hq; nia).
  rewrite add_in_range by (unfold Int64.min_int, Int64.max_int in *; lia).
  eexists. split; [done|]. split; [done|]. split; [lia|].
  assert (len bh * (len s `div` len bh + 1)
          <= len bh * Z.max (len s `div` len bh + 1) batchSize) as Hmono
    by (apply Z.mul_le_mono_nonneg_l; lia).
  revert Hdm Hm Hmono. generalize (len s `mod` len bh).
  generalize (len s `div` len bh). intros q r Hdm Hm Hmono. nia.
Qed.
End Chunking.

(** ** Segments of a slice *)

Lemma slice_seg {A} (s : list A) lo hi batch :
  slice s lo hi = Ok batch → 0 <= lo <= hi ∧ hi <= len s ∧ batch = seg s lo hi.
Proof.
  unfold slice. destruct (_ && _) eqn:E; [|done].
  intros [= <-]. repeat split; try done; bool_lia.
Qed.

Lemma slice_ok {A} (s : list A) lo hi :
  0 <= lo <= hi → hi <= len s → slice s lo hi = Ok (seg s lo hi).
Proof.
  intros Hlo Hhi. unfold slice.
  by replace ((0 <=? lo) && (lo <=? hi) && (hi <=? len s)) with true
    by (symmetry; bool_lia_goal).
Qed.

Lemma seg_empty {A} (s : list A) lo : seg s lo lo = [].
Proof. unfold seg. by rewrite Z.sub_diag. Qed.

Lemma seg_app {A} (s : list A) lo mid hi :
  0 <= lo <= mid → mid <= hi →
  seg s lo mid ++ seg s mid hi = seg s lo hi.
Proof.
  intros Hlo Hhi. unfold seg.
  replace (drop (Z.to_nat mid) s)
    with (drop (Z.to_nat (mid - lo)) (drop (Z.to_nat lo) s))
    by (rewrite drop_drop; f_equal; lia).
  rewrite take_take_drop. f_equal. lia.
Qed.

Lemma seg_prefix {A} (s : list A) lo mid hi :
  0 <= lo <= mid → mid <= hi → seg s lo mid `prefix_of` seg s lo hi.
Proof. intros Hlo Hhi. exists (seg s mid hi). by rewrite seg_app. Qed.

Lemma seg_lookup {A} (s : list A) lo hi (i : nat) x :
  0 <= lo →
  seg s lo hi !! i = Some x →
  s !! (Z.to_nat lo + i)%nat = Some x ∧ lo + Z.of_nat i < hi.
Proof.
  intros Hlo. unfold seg. intros Hx.
  assert (i < Z.to_nat (hi - lo))%nat as Hi.
  { apply lookup_lt_Some in Hx. rewrite length_take in Hx. lia. }
  rewrite lookup_take_lt, lookup_drop in Hx by done. split; [done|lia].
Qed.

(** ** Sorted slices *)

Lemma sorted_lookup {A} (R : relation A) (s : list A) (i j : nat) a b :
  StronglySorted R s → (i < j)%nat →
  s !! i = Some a → s !! j = Some b → R a b.
Proof.
  intros Hs. revert i j. induction Hs as [|x l Hl IH Hx]; intros i j Hij Ha Hb.
  { by rewrite lookup_nil in Ha. }
  destruct j as [|j]; [lia|]. simpl in Hb. destruct i as [|i]; simpl in Ha.
  - injection Ha as ->. rewrite Forall_forall in Hx.
    by eapply Hx, list_elem_of_lookup_2.
  - eapply (IH i j); [lia|done..].
Qed.

Section Workers.
Context {sizer : Sizer} {splitKeys : SplitKeys} {sorter : Sorter}
  `{!BatchHandler Handler}.
Implicit Types (s : list roachpb.KeyValue) (bh : list Handler).

Local Abbreviation sorted_slice s :=
  (StronglySorted (λ a b, byKeyThenTimestamp a b <= 0) s).

Lemma sorted_keys s (i j : nat) a b :
  sorted_slice s → (i <= j)%nat →
  s !! i = Some a → s !! j = Some b →
  roachpb.Compare (k a) (k b) <= 0.
Proof.
  intros Hs Hij Ha Hb. destruct (decide (i = j)) as [->|Hne].
  - assert (a = b) as -> by congruence.
    assert (roachpb.Compare (k b) (k b) = 0) as -> by by apply Compare_eq.
    done.
  - apply byKeyThenTimestamp_key.
    apply (sorted_lookup (λ a b, byKeyThenTimestamp a b <= 0) s i j);
      [done|lia|done..].
Qed.

(** No change of key lies between two positions with the same key. *)
Lemma no_split s e (i j : nat) a b :
  sorted_slice s → key_change s e →
  Z.of_nat i < e <= Z.of_nat j →
  s !! i = Some a → s !! j = Some b → k a ≠ k b.
Proof.
  intros Hs (a' & b' & He & Ha' & Hb' & Hne) Hij Ha Hb Heq.
  assert (roachpb.Compare (k a) (k a') <= 0) as H1
    by (eapply (sorted_keys s i (Z.to_nat (e - 1))); [done|lia|done..]).
  assert (roachpb.Compare (k a') (k b') <= 0) as H2
    by (eapply (sorted_keys s (Z.to_nat (e - 1)) (Z.to_nat e));
        [done|lia|done..]).
  assert (roachpb.Compare (k b') (k b) <= 0) as H3
    by (eapply (sorted_keys s (Z.to_nat e) j); [done|lia|done..]).
  apply Hne, Compare_le_antisym; [done|].
  rewrite <- Heq in H3. eauto using Compare_trans.
Qed.

Lemma tiles_starts s chunkSize from to
    (cs : list (chunk (Handler := Handler))) :
  tiles from to cs →
  Forall (chunk_ok s chunkSize) cs →
  from = 0 ∨ from = len s ∨ key_change s from →
  ∀ c, c ∈ cs → batchStart c = 0 ∨ key_change s (batchStart c).
Proof.
  revert from. induction cs as [|c0 cs IH]; intros from Ht Hok Hfrom c Hc.
  { by apply elem_of_nil in Hc. }
  destruct Ht as (Hstart & Hlt & Ht).
  apply Forall_cons in Hok as [Hok0 Hok].
  destruct Hok0 as (_ & Hend & _ & _ & Hchange & _).
  apply elem_of_cons in Hc as [->|Hc].
  - rewrite Hstart. destruct Hfrom as [?|[?|?]]; [by left|lia|by right].
  - eapply (IH (chunkEnd c0)); [done..| |done].
    right. destruct Hchange as [?|?]; [by left|by right].
Qed.

Lemma tiles_nonempty from to (cs : list (chunk (Handler := Handler))) :
  tiles from to cs → ∀ c, c ∈ cs → batchStart c < chunkEnd c.
Proof.
  revert from. induction cs as [|c0 cs IH]; intros from Ht c Hc.
  { by apply elem_of_nil in Hc. }
  destruct Ht as (Hstart & Hlt & Ht).
  apply elem_of_cons in Hc as [->|Hc]; [lia | by eapply IH].
Qed.

Lemma tiles_cover from to (cs : list (chunk (Handler := Handler))) (i : nat) :
  tiles from to cs → from <= Z.of_nat i < to →
  ∃ c, c ∈ cs ∧ in_chunk c i.
Proof.
  revert from. induction cs as [|c0 cs IH]; intros from Ht Hi; simpl in Ht.
  { lia. }
  destruct Ht as (Hstart & Hlt & Ht).
  destruct (decide (Z.of_nat i < chunkEnd c0)) as [Hin|Hout].
  - exists c0. split; [apply list_elem_of_here|]. unfold in_chunk. lia.
  - destruct (IH (chunkEnd c0)) as (c & Hc & Hin); [done|lia|].
    exists c. split; [by apply list_elem_of_further | done].
Qed.

(** Two positions with the same key are on the same side of every chunk. *)
Lemma same_key_same_chunk s chunkSize (c : chunk (Handler := Handler))
    (i j : nat) a b :
  sorted_slice s →
  chunk_ok s chunkSize c →
  batchStart c = 0 ∨ key_change s (batchStart c) →
  s !! i = Some a → s !! j = Some b → k a = k b →
  (i <= j)%nat →
  in_chunk c i ↔ in_chunk c j.
Proof.
  intros Hs (_ & Hend & _ & _ & Hchange & _) Hstart Ha Hb Heq Hij.
  pose proof (lookup_lt_Some _ _ _ Hb) as Hj.
  unfold in_chunk, len in *.
  assert (¬ Z.of_nat i < chunkEnd c <= Z.of_nat j) as Hno_end.
  { intros Hbetween. destruct Hchange as [?|Hchange]; [lia|].
    by eapply (no_split s (chunkEnd c) i j). }
  assert (¬ Z.of_nat i < batchStart c <= Z.of_nat j) as Hno_start.
  { intros Hbetween. destruct Hstart as [?|Hstart]; [lia|].
    by eapply (no_split s (batchStart c) i j). }
  lia.
Qed.

(** A worker hands its handler consecutive segments of its chunk, from the
    start of the chunk on. *)
Lemma worker_applies fuel h s batchSize bs ce batches r :
  0 <= bs <= ce → ce <= len s →
  worker fuel h s batchSize bs ce = (batches, r) →
  ∃ m, bs <= m <= ce
       ∧ concat batches = seg s bs m
       ∧ (r = Ok None → m = ce).
Proof.
  revert h bs batches r.
  induction fuel as [|fuel IH]; intros h bs batches r Hbs Hce; simpl.
  { intros [= <- <-]. exists bs. rewrite seg_empty.
    split; [lia|]. by split. }
  destruct (bs <? ce) eqn:Elt.
  - apply Z.ltb_lt in Elt.
    destruct (slice s bs _) as [batch|p|] eqn:Eslice.
    + apply slice_seg in Eslice as (Hlo & Hhi & ->).
      set (batchEnd := Z.min (Int64.add bs batchSize) ce) in *.
      assert (batchEnd <= ce) as Hbe by (unfold batchEnd; lia).
      destruct (HandleBatch h _) as [h' [stats [err|]]].
      * intros [= <- <-]. exists batchEnd. simpl. rewrite app_nil_r.
        split; [lia|]. by split.
      * destruct (worker fuel h' s batchSize batchEnd ce)
          as [batches' r'] eqn:Erec.
        intros [= <- <-].
        destruct (IH h' batchEnd batches' r') as (m & Hm & Hcat & Hdone);
          [lia|done..|].
        exists m. simpl. rewrite Hcat, seg_app by lia.
        split; [lia|]. by split.
    + intros [= <- <-]. exists bs. rewrite seg_empty.
      split; [lia|]. by split.
    + intros [= <- <-]. exists bs. rewrite seg_empty.
      split; [lia|]. by split.
  - apply Z.ltb_ge in Elt. intros [= <- <-]. exists bs.
    rewrite seg_empty. split; [lia|]. split; [done|]. lia.
Qed.

(** With a batch size of at least one, a worker that is given the time
    returns. *)
Lemma worker_returns fuel h s batchSize bs ce :
  2 * len s <= Int64.max_int →
  1 <= batchSize →
  0 <= bs <= ce → ce <= len s →
  (bs < ce → bs + batchSize <= Int64.max_int) →
  (Z.to_nat (ce - bs) < fuel)%nat →
  ∃ err, (worker fuel h s batchSize bs ce).2 = Ok err.
Proof.
  intros Hlen Hbatch. revert h bs.
  induction fuel as [|fuel IH]; intros h bs Hbs Hce Hfit Hfuel; [lia|].
  simpl. destruct (bs <? ce) eqn:Elt; [|by eexists].
  apply Z.ltb_lt in Elt. specialize (Hfit Elt).
  rewrite add_in_range by (unfold Int64.min_int, Int64.max_int in *; lia).
  rewrite slice_ok by lia.
  destruct (HandleBatch h _) as [h' [stats [err|]]]; [by eexists|].
  destruct (IH h' (Z.min (bs + batchSize) ce)) as [err Herr]; [lia..|].
  destruct (worker fuel h' s batchSize _ ce) as [batches' r'].
  by exists err.
Qed.
(** With a batch size of at least one, a worker that is given the time
    hands its handler the sub-batches of its chunk, of [batchSize] pairs
    each but the last, in order from the start of the chunk; it goes on
    after every answer that is not an error, stops at the first error, and
    returns that error or, at the end of the chunk, [nil]. *)
Lemma worker_in_order fuel h s batchSize bs ce :
  2 * len s <= Int64.max_int →
  1 <= batchSize →
  0 <= bs <= ce → ce <= len s →
  (bs < ce → bs + batchSize <= Int64.max_int) →
  (Z.to_nat (ce - bs) < fuel)%nat →
  let batches := (worker fuel h s batchSize bs ce).1 in
  (∀ (j : nat) batch,
     batches !! j = Some batch →
     bs + Z.of_nat j * batchSize < ce
     ∧ batch = seg s (bs + Z.of_nat j * batchSize)
                 (Z.min (bs + (Z.of_nat j + 1) * batchSize) ce))
  ∧ ∃ err, (worker fuel h s batchSize bs ce).2 = Ok err
           ∧ (bs < ce →
              batches ≠ []
              ∧ answers h batches
                = replicate (length batches - 1) None ++ [err])
           ∧ (bs = ce → batches = [] ∧ err = None).
Proof.
  intros Hlen Hbatch. revert h bs.
  induction fuel as [|fuel IH]; intros h bs Hbs Hce Hfit Hfuel; [lia|].
  cbn [worker]. destruct (bs <? ce) eqn:Elt.
  2: { apply Z.ltb_ge in Elt. simpl. split; [by intros j batch|].
       exists None. split; [done|]. split; [lia|done]. }
  apply Z.ltb_lt in Elt. specialize (Hfit Elt).
  rewrite add_in_range by (unfold Int64.min_int, Int64.max_int in *; lia).
  rewrite slice_ok by lia.
  set (batchEnd := Z.min (bs + batchSize) ce).
  destruct (HandleBatch h (seg s bs batchEnd)) as [h' [stats [err|]]]
    eqn:Hbatch0.
  { cbn [fst snd]. split.
    - intros [|j] batch; [|done]. intros [= <-].
      replace (bs + Z.of_nat 0 * batchSize) with bs by lia.
      replace (bs + (Z.of_nat 0 + 1) * batchSize) with (bs + batchSize)
        by lia.
      done.
    - exists (Some err). split; [done|]. split; [|lia].
      intros _. split; [done|]. cbn [answers]. by rewrite Hbatch0. }
  destruct (IH h' batchEnd) as (Hslices & err & Hr & Hmore & Hend);
    [unfold batchEnd; lia..|].
  destruct (worker fuel h' s batchSize batchEnd ce) as [batches' r'].
  cbn [fst snd] in *. split.
  - intros [|j] batch.
    + intros [= <-].
      replace (bs + Z.of_nat 0 * batchSize) with bs by lia.
      replace (bs + (Z.of_nat 0 + 1) * batchSize) with (bs + batchSize)
        by lia.
      done.
    + intros Hj. cbn [lookup list_lookup] in Hj.
      destruct (Hslices j batch Hj) as [Hlt ->].
      assert (batchEnd = bs + batchSize) as Hbe.
      { unfold batchEnd in *. destruct (Z.le_ge_cases (bs + batchSize) ce);
          [lia|]. assert (0 <= Z.of_nat j * batchSize) by nia. lia. }
      rewrite Hbe in *.
      replace (bs + Z.of_nat (S j) * batchSize)
        with (bs + batchSize + Z.of_nat j * batchSize) by lia.
      replace (bs + (Z.of_nat (S j) + 1) * batchSize)
        with (bs + batchSize + (Z.of_nat j + 1) * batchSize) by lia.
      done.
  - exists err. split; [done|]. split; [|lia].
    intros _. split; [done|]. cbn [answers]. rewrite Hbatch0.
    destruct (decide (batchEnd < ce)) as [Hlt|Hge].
    + destruct (Hmore Hlt) as [Hne ->].
      destruct batches' as [|b0 batches']; [done|]. cbn [length].
      replace (S (S (length batches')) - 1)%nat
        with (S (S (length batches') - 1))%nat by lia.
      done.
    + destruct Hend as [-> ->]; [unfold batchEnd in *; lia|]. done.
Qed.
End Workers.

(** ** The batch applier *)

Section BatchApplierProperties.
Context {sizer : Sizer} {splitKeys : SplitKeys} {sorter : Sorter}
  `{!BatchHandler Handler} `{!span.Frontier F}.
Hypothesis sorter_sorts : slices.sorts sorter.
Implicit Types (kvs s : list roachpb.KeyValue) (bh : list Handler).

Local Abbreviation sorted_slice s :=
  (StronglySorted (λ a b, byKeyThenTimestamp a b <= 0) s).

Lemma SortFunc_spec kvs :
  SortFunc byKeyThenTimestamp kvs ≡ₚ kvs
  ∧ sorted_slice (SortFunc byKeyThenTimestamp kvs)
  ∧ len (SortFunc byKeyThenTimestamp kvs) = len kvs.
Proof.
  destruct (sorter_sorts _ byKeyThenTimestamp kvs
              byKeyThenTimestamp_consistent byKeyThenTimestamp_trans)
    as [Hperm Hsorted].
  repeat split; [done..|]. unfold len. by rewrite Hperm.
Qed.

(** The chunks that [flushBuffer] hands to its workers. *)
Lemma flushBuffer_chunks kvs bh batchSize :
  bh ≠ [] →
  2 * len kvs <= Int64.max_int →
  batchSize <= Int64.max_int →
  let s := SortFunc byKeyThenTimestamp kvs in
  ∃ chunkSize (cs : list (chunk (Handler := Handler))),
    chunkSize_of s bh batchSize = Ok chunkSize
    ∧ assignChunks bh s chunkSize 0 = Ok (cs, len s)
    ∧ batchSize <= chunkSize
    ∧ tiles 0 (len s) cs
    ∧ Forall (chunk_ok s chunkSize) cs.
Proof.
  intros Hbh Hlen Hbatch s.
  destruct (SortFunc_spec kvs) as (_ & _ & Hls). fold s in Hls.
  pose proof (len_nonneg kvs) as Hnn.
  assert (0 < Int64.max_int) as Hpos by done.
  destruct (chunkSize_of_spec s bh batchSize)
    as (chunkSize & Hsize & Hdef & Hrange & Hcover); [done|lia|done|].
  destruct (assignChunks_spec s chunkSize bh 0)
    as (cs & final & Hassign & Hfinal & Hmin & Htiles & Hok & _); [lia..|].
  assert (final = len s) as -> by lia.
  exists chunkSize, cs. repeat split; try done. lia.
Qed.

Lemma worker_no_assertion fuel h s batchSize bs ce :
  (worker fuel h s batchSize bs ce).2 ≠ Panic AssertionFailed.
Proof.
  revert h bs. induction fuel as [|fuel IH]; intros h bs; simpl; [done|].
  destruct (bs <? ce); [|done].
  destruct (slice s bs _) as [batch|p|] eqn:Eslice; [| |done].
  - destruct (HandleBatch h batch) as [h' [stats [err|]]]; [done|].
    specialize (IH h' (Z.min (Int64.add bs batchSize) ce)).
    by destruct (worker fuel h' s batchSize _ ce).
  - unfold slice in Eslice. destruct (_ && _); [done|].
    injection Eslice as <-. done.
Qed.

Lemma g_Wait_no_assertion (rs : list (result (option error))) :
  Forall (λ r, r ≠ Panic AssertionFailed) rs →
  g_Wait rs ≠ Panic AssertionFailed.
Proof.
  induction 1 as [|r rs Hr Hrs IH]; simpl; [done|].
  destruct r as [e|p|]; simpl; [|done..].
  destruct (g_Wait rs) as [e'|p|]; simpl; done.
Qed.

(** Without workers the chunk size divides by zero. *)
Lemma flushBuffer_no_workers fuel settings (b : flushableBuffer) :
  curKVBatch (fb_buffer b) ≠ [] →
  flushBuffer fuel settings (@nil Handler) b = Panic DivideByZero.
Proof.
  intros Hne. unfold flushBuffer.
  destruct (len (curKVBatch (fb_buffer b)) =? 0) eqn:E; [|done].
  by apply Z.eqb_eq, len_nil_iff in E.
Qed.

(** With a batch size of zero a worker whose handler does not fail hands
    it empty batches for as long as it runs. *)
Lemma worker_batch_size_zero fuel h s bs ce :
  (∀ h' batch, (HandleBatch h' batch).2.2 = None) →
  0 <= bs < ce → ce <= len s → len s <= Int64.max_int →
  (worker fuel h s 0 bs ce).2 = OutOfFuel.
Proof.
  intros Hnil Hbs Hce Hmax. revert h.
  induction fuel as [|fuel IH]; intros h; simpl; [done|].
  replace (bs <? ce) with true by (symmetry; bool_lia_goal).
  rewrite add_in_range by (unfold Int64.min_int, Int64.max_int in *; lia).
  rewrite Z.add_0_r, Z.min_l, slice_ok by lia.
  specialize (Hnil h (seg s bs bs)).
  destruct (HandleBatch h (seg s bs bs)) as [h' [stats [err|]]]; [done|].
  specialize (IH h'). by destruct (worker fuel h' s 0 bs ce).
Qed.

(** C1: after the sort, no chunk holds one of two positions with the same
    split-safe key and not the other, and some chunk holds both; every
    chunk ends at the first position, from its target size on, that is the
    end of the slice or a change of key. *)
Theorem chunks_keep_keys_together kvs bh batchSize :
  bh ≠ [] →
  2 * len kvs <= Int64.max_int →
  batchSize <= Int64.max_int →
  let s := SortFunc byKeyThenTimestamp kvs in
  s ≡ₚ kvs
  ∧ ∃ chunkSize (cs : list (chunk (Handler := Handler))),
      chunkSize_of s bh batchSize = Ok chunkSize
      ∧ assignChunks bh s chunkSize 0 = Ok (cs, len s)
      ∧ (∀ (i j : nat) a b,
           s !! i = Some a → s !! j = Some b → k a = k b →
           (∃ c, c ∈ cs ∧ in_chunk c i ∧ in_chunk c j)
           ∧ ∀ c, c ∈ cs → in_chunk c i ↔ in_chunk c j)
      ∧ ∀ c, c ∈ cs →
          (chunkEnd c = len s ∨ key_change s (chunkEnd c))
          ∧ Z.min (batchStart c + chunkSize) (len s) <= chunkEnd c
          ∧ ∀ p, Z.min (batchStart c + chunkSize) (len s) <= p < chunkEnd c →
                 ¬ key_change s p.
Proof.
  intros Hbh Hlen Hbatch s.
  destruct (SortFunc_spec kvs) as (Hperm & Hsorted & Hls). fold s in Hls.
  split; [done|].
  destruct (flushBuffer_chunks kvs bh batchSize)
    as (chunkSize & cs & Hsize & Hassign & _ & Htiles & Hok); [done..|].
  fold s in Hsize, Hassign, Htiles, Hok.
  exists chunkSize, cs. split; [done|]. split; [done|].
  pose proof (tiles_starts s chunkSize 0 (len s) cs Htiles Hok
                ltac:(by left)) as Hstarts.
  rewrite Forall_forall in Hok.
  assert (∀ (i j : nat) a b c,
            s !! i = Some a → s !! j = Some b → k a = k b → c ∈ cs →
            in_chunk c i ↔ in_chunk c j) as Hsame.
  { intros i j a b c Ha Hb Heq Hc.
    destruct (decide (i <= j)%nat) as [Hij|Hij].
    - by apply (same_key_same_chunk s chunkSize c i j a b); auto.
    - symmetry.
      apply (same_key_same_chunk s chunkSize c j i b a); auto. lia. }
  split.
  - intros i j a b Ha Hb Heq.
    split; [|intros c Hc; exact (Hsame i j a b c Ha Hb Heq Hc)].
    destruct (tiles_cover 0 (len s) cs i Htiles) as (c & Hc & Hin).
    { apply lookup_lt_Some in Ha. unfold len. lia. }
    exists c. split; [done|]. split; [done|].
    by apply (Hsame i j a b c Ha Hb Heq Hc).
  - intros c Hc. destruct (Hok c Hc) as (_ & _ & _ & ? & ? & ?). done.
Qed.

(** C2: the slice is sorted by split-safe key, then timestamp; every
    worker, with a batch size of at least one, hands its handler the
    sub-batches of its chunk in order from the start of the chunk, goes on
    after every sub-batch that is applied without error, stops at the first
    error, and returns that error or, at the end of the chunk, [nil]; what it
    has handed over is its chunk from the start on, the whole of it when the
    worker returns without error, so that within a chunk the pairs with the
    same key are applied in the order of their timestamps. *)
Theorem chunk_applied_in_timestamp_order kvs bh batchSize :
  bh ≠ [] →
  2 * len kvs <= Int64.max_int →
  batchSize <= Int64.max_int →
  let s := SortFunc byKeyThenTimestamp kvs in
  s ≡ₚ kvs
  ∧ sorted_slice s
  ∧ ∃ chunkSize (cs : list (chunk (Handler := Handler))),
      chunkSize_of s bh batchSize = Ok chunkSize
      ∧ assignChunks bh s chunkSize 0 = Ok (cs, len s)
      ∧ ∀ c fuel, c ∈ cs →
          let batches := (run fuel s batchSize c).1 in
          let applied := concat batches in
          0 <= batchStart c < chunkEnd c ∧ chunkEnd c <= len s
          ∧ applied `prefix_of` seg s (batchStart c) (chunkEnd c)
          ∧ ((run fuel s batchSize c).2 = Ok None →
             applied = seg s (batchStart c) (chunkEnd c))
          ∧ (1 <= batchSize →
             (Z.to_nat (chunkEnd c - batchStart c) < fuel)%nat →
             batches ≠ []
             ∧ (∀ (j : nat) batch,
                  batches !! j = Some batch →
                  batchStart c + Z.of_nat j * batchSize < chunkEnd c
                  ∧ batch
                    = seg s (batchStart c + Z.of_nat j * batchSize)
                        (Z.min (batchStart c + (Z.of_nat j + 1) * batchSize)
                           (chunkEnd c)))
             ∧ ∃ err, (run fuel s batchSize c).2 = Ok err
                      ∧ answers (chunk_bh c) batches
                        = replicate (length batches - 1) None ++ [err])
          ∧ ∀ (p q : nat) a b,
              (p <= q)%nat →
              applied !! p = Some a → applied !! q = Some b →
              k a = k b →
              hlc.LessEq (roachpb.ts a) (roachpb.ts b) = true.
Proof.
  intros Hbh Hlen Hbatch s.
  destruct (SortFunc_spec kvs) as (Hperm & Hsorted & Hls). fold s in Hls.
  split; [done|]. split; [done|].
  destruct (flushBuffer_chunks kvs bh batchSize)
    as (chunkSize & cs & Hsize & Hassign & Hle & Htiles & Hok); [done..|].
  fold s in Hsize, Hassign, Htiles, Hok.
  exists chunkSize, cs. split; [done|]. split; [done|].
  intros c fuel Hc batches applied. rewrite Forall_forall in Hok.
  destruct (Hok c Hc) as (Hstart & Hend & Hfit & Hreach & _ & _).
  pose proof (tiles_nonempty _ _ _ Htiles c Hc) as Horder.
  split; [lia|]. split; [done|].
  assert (1 <= batchSize →
          (Z.to_nat (chunkEnd c - batchStart c) < fuel)%nat →
          batches ≠ []
          ∧ (∀ (j : nat) batch,
               batches !! j = Some batch →
               batchStart c + Z.of_nat j * batchSize < chunkEnd c
               ∧ batch
                 = seg s (batchStart c + Z.of_nat j * batchSize)
                     (Z.min (batchStart c + (Z.of_nat j + 1) * batchSize)
                        (chunkEnd c)))
          ∧ ∃ err, (run fuel s batchSize c).2 = Ok err
                   ∧ answers (chunk_bh c) batches
                     = replicate (length batches - 1) None ++ [err])
    as Hinorder.
  { intros Hone Hfuel.
    destruct (worker_in_order fuel (chunk_bh c) s batchSize (batchStart c)
                (chunkEnd c)) as (Hslices & err & Hr & Hmore & _);
      try done; try lia.
    destruct (Hmore Horder) as [Hne Hanswers].
    split; [done|]. split; [done|]. by exists err. }
  unfold run in *.
  destruct (worker fuel (chunk_bh c) s batchSize (batchStart c) (chunkEnd c))
    as [batches0 r] eqn:Ework.
  destruct (worker_applies fuel (chunk_bh c) s batchSize (batchStart c)
              (chunkEnd c) batches0 r) as (m & Hm & Hcat & Hdone);
    [lia|done..|].
  simpl in batches. subst batches. simpl in applied. subst applied.
  rewrite Hcat.
  split; [apply seg_prefix; lia|].
  split; [by intros ->%Hdone|].
  split; [exact Hinorder|].
  intros p q a b Hpq Ha Hb Heq.
  apply seg_lookup in Ha as [Ha _]; [|done].
  apply seg_lookup in Hb as [Hb _]; [|done].
  destruct (decide (p = q)) as [->|Hne].
  { assert (a = b) as -> by congruence. apply LessEq_refl. }
  assert (byKeyThenTimestamp a b <= 0) as Hcmp.
  { apply (sorted_lookup (λ a b, byKeyThenTimestamp a b <= 0) s
             (Z.to_nat (batchStart c) + p) (Z.to_nat (batchStart c) + q));
      [done|lia|done..]. }
  apply byKeyThenTimestamp_le in Hcmp as [Hlt|[_ ?]]; [|done].
  rewrite Heq in Hlt.
  assert (roachpb.Compare (k b) (k b) = 0) by by apply Compare_eq. lia.
Qed.

(** C7: for a buffer that is not empty, the loop over the workers, of which
    there is at least one, gives every position of the slice to a chunk and
    leaves [chunkStart] at the length of the slice; whatever the number of
    workers, [flushBuffer] does not end in the assertion failure. *)
Theorem chunks_cover_input kvs bh batchSize :
  kvs ≠ [] →
  2 * len kvs <= Int64.max_int →
  batchSize <= Int64.max_int →
  let s := SortFunc byKeyThenTimestamp kvs in
  (bh ≠ [] →
   ∃ chunkSize (cs : list (chunk (Handler := Handler))),
     chunkSize_of s bh batchSize = Ok chunkSize
     ∧ assignChunks bh s chunkSize 0 = Ok (cs, len s)
     ∧ tiles 0 (len s) cs
     ∧ ∀ (i : nat) a, s !! i = Some a → ∃ c, c ∈ cs ∧ in_chunk c i)
  ∧ ∀ fuel settings b,
      curKVBatch (fb_buffer b) = kvs →
      flushBatchSize settings = batchSize →
      flushBuffer fuel settings bh b ≠ Panic AssertionFailed.
Proof.
  intros Hkvs Hlen Hbatch s.
  assert (bh ≠ [] →
          ∃ chunkSize (cs : list (chunk (Handler := Handler))),
            chunkSize_of s bh batchSize = Ok chunkSize
            ∧ assignChunks bh s chunkSize 0 = Ok (cs, len s)
            ∧ tiles 0 (len s) cs) as Hchunks.
  { intros Hbh.
    destruct (flushBuffer_chunks kvs bh batchSize)
      as (chunkSize & cs & Hsize & Hassign & _ & Htiles & _); [done..|].
    by exists chunkSize, cs. }
  split.
  - intros Hbh. destruct (Hchunks Hbh) as (chunkSize & cs & ? & ? & Htiles).
    exists chunkSize, cs. repeat split; try done.
    intros i a Ha. apply (tiles_cover 0 (len s)); [done|].
    apply lookup_lt_Some in Ha. unfold len. lia.
  - intros fuel settings b Hb Hset. unfold flushBuffer.
    rewrite Hb, Hset. fold s.
    destruct (len kvs =? 0); [done|].
    destruct (decide (bh = [])) as [->|Hbh]; [done|].
    destruct (Hchunks Hbh) as (chunkSize & cs & -> & Hassign & _).
    simpl. rewrite Hassign. simpl. rewrite Z.eqb_refl. simpl.
    pose proof (g_Wait_no_assertion
                  ((λ c, (run fuel s batchSize c).2) <$> cs)) as Hwait.
    destruct (g_Wait _) as [[err|]|p|]; simpl; try done.
    intros [= ->]. apply Hwait; [|done].
    apply Forall_fmap, Forall_forall. intros c _.
    apply worker_no_assertion.
Qed.

(** C6: the checkpoint that [flush] builds holds the entries of the
    frontier, whose spans are pairwise distinct, that have a timestamp that
    is not empty, each of them once; it goes to the flush loop with the
    buffer, and [flushBuffer] returns the checkpoint it was given, also for
    a buffer without pairs. *)
Theorem checkpoint_at_flush (w : world) (reason : flushReason)
    (lrw : logicalReplicationWriterProcessor F) :
  NoDup (span.Entries_list (frontier lrw)).*1 →
  let checkpoint := checkpoint_of (frontier lrw) in
  (∀ rs, rs ∈ jobspb.ResolvedSpans_list checkpoint →
         hlc.IsEmpty (jobspb.Timestamp rs) = false
         ∧ (jobspb.Span rs, jobspb.Timestamp rs)
             ∈ span.Entries_list (frontier lrw))
  ∧ NoDup (jobspb.ResolvedSpans_list checkpoint)
  ∧ (flushCh_ready w = true →
     flushCh (flush w reason lrw).1
     = flushCh lrw
       ++ [ {| fb_buffer := buffer lrw; fb_checkpoint := checkpoint |} ])
  ∧ ∀ fuel settings bh b,
      (curKVBatch (fb_buffer b) = [] →
       flushBuffer fuel settings bh b = Ok (fb_checkpoint b, None))
      ∧ ∀ c err, flushBuffer fuel settings bh b = Ok (c, err) →
                 c = fb_checkpoint b.
Proof.
  intros Hnodup checkpoint. subst checkpoint.
  rewrite checkpoint_of_filter.
  split; [|split; [|split]].
  - intros rs (e & -> & [Hne He]%list_elem_of_filter)%list_elem_of_fmap.
    split; [done|]. by destruct e.
  - apply (@NoDup_fmap_2 _ _ resolved resolved_inj).
    apply NoDup_filter. by eapply NoDup_fmap_1.
  - intros Hready. unfold flush. by rewrite Hready.
  - intros fuel settings bh b. split.
    + intros Hempty. unfold flushBuffer. by rewrite Hempty.
    + intros c err. unfold flushBuffer.
      destruct (len _ =? 0); [by intros [= <- _]|].
      destruct (chunkSize_of _ _ _) as [chunkSize|p|]; simpl; [|done..].
      destruct (assignChunks _ _ _ _) as [[cs final]|p|]; simpl; [|done..].
      destruct (negb _); [done|].
      destruct (g_Wait _) as [[e|]|p|]; simpl; try done;
        by intros [= <- _].
Qed.
End BatchApplierProperties.

(** ** The reference implementations at work *)

Lemma mergeSorter_sorts : slices.sorts mergeSorter.
Proof.
  intros A cmp s Hsign Htrans. unfold SortFunc, mergeSorter.
  assert (Total (λ a b, cmp a b <= 0)) as Htotal.
  { intros a b. destruct (decide (cmp a b <= 0)) as [?|Hgt]; [by left|].
    right. assert (cmp b a < 0) by (apply Hsign; lia). lia. }
  split.
  - apply merge_sort_Permutation.
  - by apply StronglySorted_merge_sort.
Qed.

Section Samples.
Local Existing Instances payloadSize dropFamily mergeSorter runsOnce
  recordRows jointFrontier_ops.

(** The sample pairs, sorted by row and timestamp. *)
Example five_pairs_sorted :
  SortFunc byKeyThenTimestamp five_pairs
  = [ pair_at ["a"; "1"]%byte 10; pair_at ["a"; "1"]%byte 15;
      pair_at ["a"; "2"]%byte 20; pair_at ["b"; "1"]%byte 30;
      pair_at ["c"; "1"]%byte 5 ].
Proof. vm_compute. reflexivity. Qed.

(** With three workers and batches of one pair the target size of a chunk
    is two; the first chunk is extended over the third pair of row [a],
    and the third worker is left without a chunk. *)
Example five_pairs_chunks :
  let s := SortFunc byKeyThenTimestamp five_pairs in
  chunkSize_of s [recorder; recorder; recorder] 1 = Ok 2
  ∧ assignChunks [recorder; recorder; recorder] s 2 0
    = Ok ([ {| chunk_bh := recorder; batchStart := 0; chunkEnd := 3 |};
            {| chunk_bh := recorder; batchStart := 3; chunkEnd := 5 |} ], 5).
Proof. vm_compute. split; reflexivity. Qed.

Example five_pairs_worker :
  let s := SortFunc byKeyThenTimestamp five_pairs in
  worker 4 recorder s 2 0 3
  = ([ [pair_at ["a"; "1"]%byte 10; pair_at ["a"; "1"]%byte 15];
       [pair_at ["a"; "2"]%byte 20] ], Ok None).
Proof. vm_compute. reflexivity. Qed.

(** A batch size of zero keeps a worker handing out empty batches. *)
Example five_pairs_worker_stuck :
  let s := SortFunc byKeyThenTimestamp five_pairs in
  worker 3 recorder s 0 0 3 = ([ []; []; [] ], OutOfFuel).
Proof. vm_compute. reflexivity. Qed.

Example five_pairs_flushed :
  flushBuffer 4 (with_limits 32 0) [recorder; recorder; recorder]
    {| fb_buffer := foldl addKV NewIngestionBuffer five_pairs;
       fb_checkpoint := {| jobspb.ResolvedSpans_list := [] |} |}
  = Ok ({| jobspb.ResolvedSpans_list := [] |}, None).
Proof. vm_compute. reflexivity. Qed.
End Samples.

(** ** The properties on the sample data *)

Section Witnesses.
Local Existing Instances payloadSize dropFamily mergeSorter runsOnce
  recordRows jointFrontier_ops.

Local Abbreviation three_workers := [recorder; recorder; recorder].
Local Abbreviation five_buffered :=
  (foldl addKV NewIngestionBuffer five_pairs).

Lemma addKV_accounting_witness :
  curKVBatch five_buffered = five_pairs
  ∧ curKVBatchSize five_buffered = 15
  ∧ minTimestamp five_buffered = at_time 5 0.
Proof.
  destruct (addKV_accounting NewIngestionBuffer five_pairs)
    as (Hbatch & _ & Hsize & _).
  - left. reflexivity.
  - repeat constructor; vm_compute; discriminate.
  - split; [exact Hbatch|]. split; [|reflexivity].
    apply Hsize; [|vm_compute; discriminate].
    repeat constructor; vm_compute; discriminate.
Defined.

Lemma shouldFlushOnKVSize_thresholds_witness :
  shouldFlushOnKVSize five_buffered (with_limits 32 15) = (true, true)
  ∧ shouldFlushOnKVSize five_buffered (with_limits 5 16) = (true, false)
  ∧ shouldFlushOnKVSize five_buffered (with_limits 6 16) = (false, false).
Proof.
  split; [|split].
  - apply (proj1 (shouldFlushOnKVSize_thresholds five_buffered
                    (with_limits 32 15))); vm_compute;
      [reflexivity | discriminate].
  - apply (proj1 (proj2 (shouldFlushOnKVSize_thresholds five_buffered
                           (with_limits 5 16)))); vm_compute;
      [discriminate | reflexivity].
  - apply (proj2 (proj2 (shouldFlushOnKVSize_thresholds five_buffered
                           (with_limits 6 16)))); vm_compute; reflexivity.
Defined.

(** Against C4 as it is stated: the hard limit is switched off at zero;
    fifteen buffered bytes are not less than the limit, and no flush is
    forced. *)
Lemma shouldFlushOnKVSize_unlimited :
  maxKVBufferSize (with_limits 32 0) <= curKVBatchSize five_buffered
  ∧ shouldFlushOnKVSize five_buffered (with_limits 32 0) = (false, false).
Proof. split; [vm_compute; discriminate | reflexivity]. Qed.

Lemma shouldFlushOnKVSize_disabled_witness :
  (shouldFlushOnKVSize five_buffered (with_limits 32 0)).2 = false
  ∧ (shouldFlushOnKVSize NewIngestionBuffer (with_limits 0 0)).1 = true.
Proof.
  split.
  - apply (proj1 (shouldFlushOnKVSize_disabled five_buffered
                    (with_limits 32 0))). vm_compute. discriminate.
  - apply (proj2 (shouldFlushOnKVSize_disabled NewIngestionBuffer
                    (with_limits 0 0))); [vm_compute; discriminate|].
    reflexivity.
Defined.

Local Abbreviation idle :=
  (processor (at_time 0 0) NewIngestionBuffer registered).

Lemma maybeFlush_noop_or_flush_witness :
  maybeFlush (taken_at 1) flushOnTime (with_frontier idle [])
  = (with_frontier idle [], None)
  ∧ maybeFlush (taken_at 1) flushOnTime idle
    = flush (taken_at 1) flushOnTime idle.
Proof.
  split.
  - apply (proj1 (maybeFlush_noop_or_flush (taken_at 1) flushOnTime
                    (with_frontier idle []))).
    right. split; reflexivity.
  - apply (proj2 (maybeFlush_noop_or_flush (taken_at 1) flushOnTime idle)).
    + reflexivity.
    + right. reflexivity.
Defined.

Local Abbreviation resolved_at t :=
  {| jobspb.Span := span_a_z; jobspb.Timestamp := t |}.


(** Outside the range of a hybrid-logical clock, whose wall times and
    logical components are not negative: Go's [%] truncates towards zero,
    so a wall time below zero is rounded upwards, and a logical component
    below zero is raised to zero. *)
Lemma quantized_negative_components :
  (let lrw := processor (at_time (-10) 0) NewIngestionBuffer registered in
   let rs := resolved_at (at_time (-7) 0) in
   hlc.After (jobspb.Timestamp rs) (InitialScanTimestamp lrw) = true
   ∧ jobspb.Timestamp (quantized 5 lrw rs) = at_time (-5) 0
   ∧ hlc.After (jobspb.Timestamp (quantized 5 lrw rs)) (jobspb.Timestamp rs)
     = true)
  ∧ (let rs := resolved_at (at_time 10 (-1)) in
     hlc.After (jobspb.Timestamp rs) (InitialScanTimestamp idle) = true
     ∧ jobspb.Timestamp (quantized 5 idle rs) = at_time 10 0
     ∧ hlc.After (jobspb.Timestamp (quantized 5 idle rs))
         (jobspb.Timestamp rs) = true).
Proof. vm_compute. repeat split. Qed.

Lemma handleEvent_rejects_witness :
  (∃ err, handleEvent (taken_at 1) (event_of streamingccl.DeleteRangeEvent)
            idle = Ok (idle, Some err))
  ∧ (∃ err, handleEvent (taken_at 1)
              (event_of streamingccl.CheckpointEvent) idle
            = Ok (idle, Some err))
  ∧ handleEvent (taken_at 1) (event_of streamingccl.SplitEvent) idle
    = Ok (idle, None).
Proof.
  split; [|split].
  - apply (proj1 (handleEvent_rejects (taken_at 1)
                    (event_of streamingccl.DeleteRangeEvent) idle)).
    right. left. reflexivity.
  - apply (proj1 (proj2 (handleEvent_rejects (taken_at 1)
                           (event_of streamingccl.CheckpointEvent) idle)));
      reflexivity.
  - apply (proj2 (proj2 (handleEvent_rejects (taken_at 1)
                           (event_of streamingccl.SplitEvent) idle)));
      reflexivity.
Defined.

(** Against C9 as it is stated: a split event that finds the buffer at the
    target length flushes it; a checkpoint event whose list of resolved
    spans is empty but not [nil] is taken without error and counted; a KV
    event without pairs stops the handler with a panic. *)
Lemma handleEvent_split_flushes :
  let full := processor (at_time 0 0) five_buffered (with_limits 5 0) in
  (∃ lrw, handleEvent (taken_at 1) (event_of streamingccl.SplitEvent) full
          = Ok (lrw, None)
          ∧ curKVBatch (buffer full) = five_pairs
          ∧ curKVBatch (buffer lrw) = []
          ∧ flushCh full = []
          ∧ fb_buffer <$> flushCh lrw = [five_buffered])
  ∧ (∃ lrw, handleEvent (taken_at 1)
              {| streamingccl.Event_Type := streamingccl.CheckpointEvent;
                 streamingccl.GetKVs := None;
                 streamingccl.GetResolvedSpans := Some [] |} idle
            = Ok (lrw, None)
            ∧ CheckpointEvents (metrics idle) = 0
            ∧ CheckpointEvents (metrics lrw) = 1)
  ∧ handleEvent (taken_at 1) (event_of streamingccl.KVEvent) full
    = Panic IndexOutOfRange.
Proof.
  split; [|split; [|reflexivity]].
  - eexists. split; [vm_compute; reflexivity|]. repeat split.
  - eexists. split; [vm_compute; reflexivity|]. split; reflexivity.
Qed.
Local Abbreviation five_sorted := (SortFunc byKeyThenTimestamp five_pairs).

(** Positions 0 and 2 of the sorted sample are on row [a]. *)
Lemma chunks_keep_keys_together_witness :
  ∃ chunkSize (cs : list (chunk (Handler := txnBatch _ _))),
    chunkSize_of five_sorted three_workers 1 = Ok chunkSize
    ∧ assignChunks three_workers five_sorted chunkSize 0
      = Ok (cs, len five_sorted)
    ∧ ∀ c, c ∈ cs → in_chunk c 0 ↔ in_chunk c 2.
Proof.
  destruct (chunks_keep_keys_together mergeSorter_sorts five_pairs
              three_workers 1)
    as (_ & chunkSize & cs & Hsize & Hassign & Hsame & _).
  - discriminate.
  - vm_compute. discriminate.
  - vm_compute. discriminate.
  - exists chunkSize, cs. split; [exact Hsize|]. split; [exact Hassign|].
    apply (Hsame 0%nat 2%nat (pair_at ["a"; "1"]%byte 10)
             (pair_at ["a"; "2"]%byte 20)); reflexivity.
Defined.

Lemma chunk_applied_in_timestamp_order_witness :
  StronglySorted (λ a b, byKeyThenTimestamp a b <= 0) five_sorted
  ∧ ∃ chunkSize (cs : list (chunk (Handler := txnBatch _ _))),
      chunkSize_of five_sorted three_workers 1 = Ok chunkSize
      ∧ assignChunks three_workers five_sorted chunkSize 0
        = Ok (cs, len five_sorted)
      ∧ ∀ c, c ∈ cs →
          concat (run 6 five_sorted 1 c).1
          `prefix_of` seg five_sorted (batchStart c) (chunkEnd c)
          ∧ (run 6 five_sorted 1 c).1 ≠ []
          ∧ ∃ err, (run 6 five_sorted 1 c).2 = Ok err
                   ∧ answers (chunk_bh c) (run 6 five_sorted 1 c).1
                     = replicate (length (run 6 five_sorted 1 c).1 - 1) None
                       ++ [err].
Proof.
  destruct (chunk_applied_in_timestamp_order mergeSorter_sorts five_pairs
              three_workers 1)
    as (_ & Hsorted & chunkSize & cs & Hsize & Hassign & Hrun).
  - discriminate.
  - vm_compute. discriminate.
  - vm_compute. discriminate.
  - split; [exact Hsorted|]. exists chunkSize, cs.
    split; [exact Hsize|]. split; [exact Hassign|].
    intros c Hc.
    destruct (Hrun c 6%nat Hc) as (Hstart & Hend & Hprefix & _ & Hinorder & _).
    split; [exact Hprefix|].
    destruct Hinorder as (Hne & _ & Herr).
    + reflexivity.
    + change (len (SortFunc byKeyThenTimestamp five_pairs)) with 5 in Hend.
      lia.
    + split; [exact Hne | exact Herr].
Defined.

Lemma chunks_cover_input_witness :
  flushBuffer 6 registered three_workers
    {| fb_buffer := five_buffered;
       fb_checkpoint := checkpoint_of (frontier idle) |}
  ≠ Panic AssertionFailed.
Proof.
  destruct (chunks_cover_input mergeSorter_sorts five_pairs three_workers 32)
    as [_ Hflush].
  - discriminate.
  - vm_compute. discriminate.
  - vm_compute. discriminate.
  - apply Hflush; reflexivity.
Defined.

Lemma checkpoint_at_flush_witness :
  jobspb.ResolvedSpans_list (checkpoint_of (frontier idle))
  = [resolved_at (at_time 7 0)]
  ∧ NoDup (jobspb.ResolvedSpans_list (checkpoint_of (frontier idle)))
  ∧ flushBuffer 6 registered three_workers
      {| fb_buffer := NewIngestionBuffer;
         fb_checkpoint := checkpoint_of (frontier idle) |}
    = Ok (checkpoint_of (frontier idle), None).
Proof.
  destruct (checkpoint_at_flush (Handler := txnBatch _ _) (taken_at 1)
              flushOnTime idle) as (_ & Hnodup & _ & Hreturned).
  - apply NoDup_singleton.
  - split; [reflexivity|]. split; [exact Hnodup|].
    apply (proj1 (Hreturned 6%nat registered three_workers
                    {| fb_buffer := NewIngestionBuffer;
                       fb_checkpoint := checkpoint_of (frontier idle) |})).
    reflexivity.
Defined.
End Witnesses.

(** ** More on the batch applier *)

Lemma seg_all {A} (s : list A) : seg s 0 (len s) = s.
Proof.
  unfold seg, len. rewrite Z.sub_0_r, Nat2Z.id. simpl.
  by rewrite take_ge.
Qed.

Lemma len_seg {A} (s : list A) lo hi :
  0 <= lo <= hi → hi <= len s → len (seg s lo hi) = hi - lo.
Proof.
  intros Hlo Hhi. unfold seg, len in *.
  rewrite length_take, length_drop. lia.
Qed.

Section BatchApplierMore.
Context {sizer : Sizer} {splitKeys : SplitKeys} {sorter : Sorter}
  `{!BatchHandler Handler}.
Hypothesis sorter_sorts : slices.sorts sorter.
Implicit Types (kvs s : list roachpb.KeyValue) (bh : list Handler).

Local Arguments extendChunk : simpl never.

Lemma tiles_le from to (cs : list (chunk (Handler := Handler))) :
  tiles from to cs → from <= to.
Proof.
  revert from. induction cs as [|c cs IH]; intros from; simpl; [lia|].
  intros (_ & Hlt & Ht). apply IH in Ht. lia.
Qed.

Lemma tiles_concat s from to (cs : list (chunk (Handler := Handler))) :
  0 <= from → tiles from to cs →
  mjoin ((λ c, seg s (batchStart c) (chunkEnd c)) <$> cs) = seg s from to.
Proof.
  revert from. induction cs as [|c cs IH]; intros from Hfrom.
  - simpl. intros <-. by rewrite seg_empty.
  - intros (Hstart & Hlt & Ht).
    transitivity (seg s (batchStart c) (chunkEnd c)
                  ++ mjoin ((λ c, seg s (batchStart c) (chunkEnd c)) <$> cs));
      [reflexivity|].
    rewrite (IH (chunkEnd c)) by (done || lia).
    rewrite Hstart. apply seg_app; [lia|]. by apply tiles_le in Ht.
Qed.

Lemma g_Wait_nil (rs : list (result (option error))) :
  g_Wait rs = Ok None → Forall (λ r, r = Ok None) rs.
Proof.
  induction rs as [|r rs IH]; simpl; [by constructor|].
  destruct r as [[e|]|p|]; simpl; try done.
  - by destruct (g_Wait rs).
  - destruct (g_Wait rs) as [[e|]|p|]; simpl; try done.
    intros _. constructor; [done|]. by apply IH.
Qed.

Lemma g_Wait_returns (rs : list (result (option error))) :
  Forall (λ r, ∃ err, r = Ok err) rs → ∃ err, g_Wait rs = Ok err.
Proof.
  induction 1 as [|r rs [e ->] Hrs [e' IH]]; simpl; [by eexists|].
  rewrite IH. simpl. by eexists.
Qed.

Lemma g_Wait_no_panic (rs : list (result (option error))) p :
  Forall (λ r, r ≠ Panic p) rs → g_Wait rs ≠ Panic p.
Proof.
  induction 1 as [|r rs Hr Hrs IH]; simpl; [done|].
  destruct r as [e|q|]; simpl; [|done..].
  destruct (g_Wait rs) as [e'|q|]; simpl; done.
Qed.

(** A worker within its chunk does not panic when the batch size is not
    negative. *)
Lemma worker_no_panic fuel h s batchSize bs ce p :
  2 * len s <= Int64.max_int →
  0 <= batchSize →
  0 <= bs <= ce → ce <= len s →
  (bs < ce → bs + batchSize <= Int64.max_int) →
  (worker fuel h s batchSize bs ce).2 ≠ Panic p.
Proof.
  intros Hlen Hbatch. revert h bs.
  induction fuel as [|fuel IH]; intros h bs Hbs Hce Hfit; simpl; [done|].
  destruct (bs <? ce) eqn:Elt; [|done].
  apply Z.ltb_lt in Elt. specialize (Hfit Elt).
  rewrite add_in_range by (unfold Int64.min_int, Int64.max_int in *; lia).
  rewrite slice_ok by lia.
  destruct (HandleBatch h _) as [h' [stats [err|]]]; [done|].
  specialize (IH h' (Z.min (bs + batchSize) ce)).
  destruct (worker fuel h' s batchSize _ ce) as [batches' r'].
  simpl in *. apply IH; lia.
Qed.

(** The batches of a worker hold between one and [batchSize] pairs. *)
Lemma worker_batch_sizes fuel h s batchSize bs ce :
  2 * len s <= Int64.max_int →
  1 <= batchSize →
  0 <= bs <= ce → ce <= len s →
  (bs < ce → bs + batchSize <= Int64.max_int) →
  Forall (λ batch, 1 <= len batch <= batchSize)
    (worker fuel h s batchSize bs ce).1.
Proof.
  intros Hlen Hbatch. revert h bs.
  induction fuel as [|fuel IH]; intros h bs Hbs Hce Hfit; simpl;
    [by constructor|].
  destruct (bs <? ce) eqn:Elt; [|by constructor].
  apply Z.ltb_lt in Elt. specialize (Hfit Elt).
  rewrite add_in_range by (unfold Int64.min_int, Int64.max_int in *; lia).
  rewrite slice_ok by lia.
  assert (1 <= len (seg s bs (Z.min (bs + batchSize) ce)) <= batchSize)
    as Hsize by (rewrite len_seg by lia; lia).
  destruct (HandleBatch h _) as [h' [stats [err|]]];
    [constructor; [done | constructor]|].
  specialize (IH h' (Z.min (bs + batchSize) ce)).
  destruct (worker fuel h' s batchSize _ ce) as [batches' r'].
  simpl in *. constructor; [done|]. apply IH; lia.
Qed.

(** X1: when [flushBuffer] returns without error for a buffer that is not
    empty, the batches its workers handed to their handlers, chunk after
    chunk, are together the sorted slice, which holds the pairs of the
    buffer: every pair was handed over once. *)
Theorem flushBuffer_applies_every_pair fuel settings bh (b : flushableBuffer)
    checkpoint :
  let kvs := curKVBatch (fb_buffer b) in
  let batchSize := flushBatchSize settings in
  let s := SortFunc byKeyThenTimestamp kvs in
  kvs ≠ [] →
  2 * len kvs <= Int64.max_int →
  batchSize <= Int64.max_int →
  flushBuffer fuel settings bh b = Ok (checkpoint, None) →
  s ≡ₚ kvs
  ∧ ∃ chunkSize (cs : list (chunk (Handler := Handler))),
      chunkSize_of s bh batchSize = Ok chunkSize
      ∧ assignChunks bh s chunkSize 0 = Ok (cs, len s)
      ∧ mjoin ((λ c, concat (run fuel s batchSize c).1) <$> cs) = s.
Proof.
  intros kvs batchSize s Hne Hlen Hbatch Hflush.
  destruct (SortFunc_spec sorter_sorts kvs) as (Hperm & _ & Hls).
  fold s in Hperm, Hls. split; [done|].
  unfold flushBuffer in Hflush. fold kvs batchSize s in Hflush.
  destruct (len kvs =? 0) eqn:E.
  { by apply Z.eqb_eq, len_nil_iff in E. }
  destruct (decide (bh = [])) as [->|Hbh]; [done|].
  destruct (flushBuffer_chunks sorter_sorts kvs bh batchSize)
    as (chunkSize & cs & Hsize & Hassign & _ & Htiles & Hok); [done..|].
  fold s in Hsize, Hassign, Htiles, Hok.
  exists chunkSize, cs. split; [done|]. split; [done|].
  rewrite Hsize in Hflush. simpl in Hflush.
  rewrite Hassign in Hflush. simpl in Hflush.
  rewrite Z.eqb_refl in Hflush. simpl in Hflush.
  destruct (g_Wait _) as [[err|]|p|] eqn:Ewait; try done.
  apply g_Wait_nil in Ewait. rewrite Forall_fmap in Ewait.
  transitivity (seg s 0 (len s)); [|apply seg_all].
  rewrite <- (tiles_concat s 0 (len s) cs) by done.
  f_equal. apply Forall_fmap_ext_1.
  rewrite Forall_forall in Ewait, Hok. apply Forall_forall. intros c Hc.
  specialize (Ewait c Hc). simpl in Ewait.
  destruct (Hok c Hc) as (Hstart & Hend & _).
  pose proof (tiles_nonempty _ _ _ Htiles c Hc) as Horder.
  unfold run in *.
  destruct (worker fuel (chunk_bh c) s batchSize (batchStart c) (chunkEnd c))
    as [batches r] eqn:Ework.
  destruct (worker_applies fuel (chunk_bh c) s batchSize (batchStart c)
              (chunkEnd c) batches r) as (m & Hm & Hcat & Hdone);
    [lia|done..|].
  simpl in *. rewrite Hcat, (Hdone Ewait). done.
Qed.

(** [flushBuffer] neither panics nor runs on for ever. *)
Lemma flushBuffer_total fuel settings bh (b : flushableBuffer) :
  let kvs := curKVBatch (fb_buffer b) in
  let batchSize := flushBatchSize settings in
  bh ≠ [] →
  2 * len kvs <= Int64.max_int →
  0 <= batchSize <= Int64.max_int →
  (∀ p, flushBuffer fuel settings bh b ≠ Panic p)
  ∧ (1 <= batchSize → (length kvs < fuel)%nat →
     ∃ err, flushBuffer fuel settings bh b = Ok (fb_checkpoint b, err)).
Proof.
  intros kvs batchSize Hbh Hlen Hbatch.
  destruct (SortFunc_spec sorter_sorts kvs) as (_ & _ & Hls).
  unfold flushBuffer. fold kvs batchSize.
  destruct (len kvs =? 0) eqn:E; [split; [done | by eexists]|].
  destruct (flushBuffer_chunks sorter_sorts kvs bh batchSize)
    as (chunkSize & cs & Hsize & Hassign & Hle & Htiles & Hok); [done..|lia|].
  set (s := SortFunc byKeyThenTimestamp kvs) in *.
  rewrite Hsize. simpl. rewrite Hassign. simpl.
  rewrite Z.eqb_refl. simpl.
  rewrite Forall_forall in Hok.
  assert (∀ c, c ∈ cs →
            0 <= batchStart c <= chunkEnd c ∧ chunkEnd c <= len s
            ∧ batchStart c + batchSize <= Int64.max_int) as Hchunk.
  { intros c Hc. destruct (Hok c Hc) as (? & ? & ? & _).
    pose proof (tiles_nonempty _ _ _ Htiles c Hc). lia. }
  split.
  - intros p.
    pose proof (g_Wait_no_panic
                  ((λ c, (run fuel s batchSize c).2) <$> cs) p) as Hwait.
    destruct (g_Wait _) as [[err|]|q|]; simpl; try done.
    intros [= ->]. apply Hwait; [|done].
    apply Forall_fmap, Forall_forall. intros c Hc.
    destruct (Hchunk c Hc) as (? & ? & ?).
    apply worker_no_panic; lia.
  - intros Hone Hfuel.
    destruct (g_Wait_returns ((λ c, (run fuel s batchSize c).2) <$> cs))
      as [err ->].
    { apply Forall_fmap, Forall_forall. intros c Hc.
      destruct (Hchunk c Hc) as (? & ? & ?).
      apply worker_returns; try lia.
      unfold len in *. lia. }
    simpl. destruct err; by eexists.
Qed.

(** X2: with at least one worker and a batch size that is not negative,
    [flushBuffer] does not panic, however long it is left to run; with a
    batch size of at least one it returns, with the checkpoint it was
    given, as soon as every worker has had a step for each pair and one
    more. *)
Theorem flushBuffer_returns fuel settings bh (b : flushableBuffer) :
  let kvs := curKVBatch (fb_buffer b) in
  let batchSize := flushBatchSize settings in
  bh ≠ [] →
  2 * len kvs <= Int64.max_int →
  0 <= batchSize <= Int64.max_int →
  (∀ p, flushBuffer fuel settings bh b ≠ Panic p)
  ∧ (1 <= batchSize → (length kvs < fuel)%nat →
     ∃ err, flushBuffer fuel settings bh b = Ok (fb_checkpoint b, err)).
Proof. apply flushBuffer_total. Qed.

(** X3: with a batch size of at least one, no handler is given an empty
    batch or a batch of more than [batchSize] pairs. *)
Theorem batches_within_batch_size kvs bh batchSize fuel :
  bh ≠ [] →
  2 * len kvs <= Int64.max_int →
  1 <= batchSize <= Int64.max_int →
  let s := SortFunc byKeyThenTimestamp kvs in
  ∃ chunkSize (cs : list (chunk (Handler := Handler))),
    chunkSize_of s bh batchSize = Ok chunkSize
    ∧ assignChunks bh s chunkSize 0 = Ok (cs, len s)
    ∧ ∀ c batch, c ∈ cs → batch ∈ (run fuel s batchSize c).1 →
        1 <= len batch <= batchSize.
Proof.
  intros Hbh Hlen Hbatch s.
  destruct (SortFunc_spec sorter_sorts kvs) as (_ & _ & Hls). fold s in Hls.
  destruct (flushBuffer_chunks sorter_sorts kvs bh batchSize)
    as (chunkSize & cs & Hsize & Hassign & Hle & Htiles & Hok); [done..|lia|].
  fold s in Hsize, Hassign, Htiles, Hok.
  exists chunkSize, cs. split; [done|]. split; [done|].
  intros c batch Hc. rewrite Forall_forall in Hok.
  destruct (Hok c Hc) as (? & ? & ? & _).
  pose proof (tiles_nonempty _ _ _ Htiles c Hc).
  revert batch. apply Forall_forall. unfold run.
  apply worker_batch_sizes; lia.
Qed.

Lemma assignChunks_handlers bh s chunkSize chunkStart
    (cs : list (chunk (Handler := Handler))) final :
  assignChunks bh s chunkSize chunkStart = Ok (cs, final) →
  chunk_bh <$> cs = take (length cs) bh.
Proof.
  revert chunkStart cs. induction bh as [|h bh IH]; intros chunkStart cs; simpl.
  { by intros [= <- _]. }
  destruct (len s <=? chunkStart); [by intros [= <- _]|].
  destruct (extendChunk _ _ _) as [e|p|]; simpl; [|done..].
  destruct (assignChunks bh s chunkSize e) as [[cs' final']|p|] eqn:Erec;
    simpl; [|done..].
  intros [= <- <-]. simpl. f_equal. by eapply IH.
Qed.

(** X4: the chunks are run by the handlers of the pool in order, from the
    first one on: no handler is given two chunks, and there are no more
    chunks than handlers. *)
Theorem chunks_on_their_own_handlers bh s chunkSize chunkStart
    (cs : list (chunk (Handler := Handler))) final :
  assignChunks bh s chunkSize chunkStart = Ok (cs, final) →
  (length cs <= length bh)%nat
  ∧ ∀ (i : nat) c, cs !! i = Some c → bh !! i = Some (chunk_bh c).
Proof.
  intros Hassign%assignChunks_handlers.
  assert (length cs <= length bh)%nat as Hlen.
  { apply (f_equal length) in Hassign.
    rewrite length_fmap, length_take in Hassign. lia. }
  split; [done|]. intros i c Hc.
  assert ((chunk_bh <$> cs) !! i = Some (chunk_bh c)) as Hi
    by by rewrite list_lookup_fmap, Hc.
  rewrite Hassign in Hi. rewrite lookup_take_lt in Hi; [done|].
  apply lookup_lt_Some in Hc. lia.
Qed.

(** X5: when all the pairs of the buffer are on one split-safe key, the
    whole slice is one chunk, run by the first handler, however many
    workers there are. *)
Theorem one_key_one_chunk kvs bh batchSize :
  bh ≠ [] → kvs ≠ [] →
  2 * len kvs <= Int64.max_int →
  batchSize <= Int64.max_int →
  (∀ a b, a ∈ kvs → b ∈ kvs → k a = k b) →
  let s := SortFunc byKeyThenTimestamp kvs in
  ∃ chunkSize h,
    chunkSize_of s bh batchSize = Ok chunkSize
    ∧ bh !! 0%nat = Some h
    ∧ assignChunks bh s chunkSize 0
      = Ok ([ {| chunk_bh := h; batchStart := 0; chunkEnd := len s |} ],
            len s).
Proof.
  intros Hbh Hne Hlen Hbatch Hkey s.
  destruct (SortFunc_spec sorter_sorts kvs) as (Hperm & _ & Hls).
  fold s in Hperm, Hls.
  destruct (flushBuffer_chunks sorter_sorts kvs bh batchSize)
    as (chunkSize & cs & Hsize & Hassign & _ & Htiles & Hok); [done..|].
  fold s in Hsize, Hassign, Htiles, Hok.
  assert (∀ e, ¬ key_change s e) as Hsame.
  { intros e (a & b & _ & Ha & Hb & Hab). apply Hab, Hkey.
    - rewrite <- Hperm. by eapply list_elem_of_lookup_2.
    - rewrite <- Hperm. by eapply list_elem_of_lookup_2. }
  assert (0 < len s) as Hpos.
  { rewrite Hls. pose proof (len_nonneg kvs).
    destruct (decide (len kvs = 0)) as [E|E]; [|lia].
    by apply len_nil_iff in E. }
  destruct cs as [|c cs]; [simpl in Htiles; lia|].
  destruct Htiles as (Hstart & _ & Htiles).
  apply Forall_cons in Hok as [(_ & _ & _ & _ & Hend & _) Hok].
  destruct Hend as [Hend|Hend]; [|by apply Hsame in Hend].
  destruct cs as [|c' cs].
  - pose proof (assignChunks_handlers _ _ _ _ _ _ Hassign) as Hh.
    destruct bh as [|h bh]; [done|]. simpl in Hh. injection Hh as Hh.
    exists chunkSize, h. split; [done|]. split; [done|].
    rewrite Hassign. destruct c as [h0 b0 e0]. simpl in *. by subst.
  - destruct Htiles as (Hstart' & Hlt & _).
    apply Forall_cons in Hok as [(_ & Hend' & _) _]. lia.
Qed.
End BatchApplierMore.

(** ** More on the comparison of the sort *)

Lemma hlc_Compare_eq t s : hlc.Compare t s = 0 ↔ t = s.
Proof.
  split.
  - intros Hc. apply LessEq_antisym; apply Compare_le_LessEq.
    + lia.
    + rewrite hlc_Compare_antisym. lia.
  - intros ->. unfold hlc.Compare. rewrite !Z.ltb_irrefl. done.
Qed.

(** X6: the comparison given to [slices.SortFunc] is what the library
    asks for, a strict weak ordering: the sign of the comparison of [b] with
    [a] is the opposite of that of [a] with [b], "not greater" is transitive,
    and two pairs compare equal exactly when they have the same split-safe
    key and the same timestamp. *)
Theorem byKeyThenTimestamp_strict_weak_ordering `{!SplitKeys} :
  (∀ a b, byKeyThenTimestamp a b < 0 ↔ 0 < byKeyThenTimestamp b a)
  ∧ (∀ a b c, byKeyThenTimestamp a b <= 0 → byKeyThenTimestamp b c <= 0 →
              byKeyThenTimestamp a c <= 0)
  ∧ (∀ a b, byKeyThenTimestamp a b = 0
            ↔ k a = k b ∧ roachpb.ts a = roachpb.ts b).
Proof.
  split; [apply byKeyThenTimestamp_consistent|]. split.
  - intros a b c. apply byKeyThenTimestamp_trans.
  - intros a b. unfold byKeyThenTimestamp.
    destruct (roachpb.Compare (k a) (k b) =? 0) eqn:E; simpl.
    + apply Z.eqb_eq, Compare_eq in E. rewrite hlc_Compare_eq.
      split; [by intros Ht | by intros [_ Ht]].
    + apply Z.eqb_neq in E. split; [done|].
      intros [Hk _]. by apply Compare_eq in Hk.
Qed.

(** ** More on the ingestion buffer *)

Section BufferMore.
Context `{!Sizer}.

Lemma mustFlush_iff (b : ingestionBuffer) (sv : Values) :
  (shouldFlushOnKVSize b sv).2 = true
  ↔ 0 < maxKVBufferSize sv ∧ maxKVBufferSize sv <= curKVBatchSize b.
Proof.
  unfold shouldFlushOnKVSize.
  destruct (0 <? maxKVBufferSize sv) eqn:E1;
    destruct (maxKVBufferSize sv <=? curKVBatchSize b) eqn:E2;
    destruct (targetKVBufferLen sv <=? len (curKVBatch b)) eqn:E3; simpl;
    rewrite ?Z.ltb_lt, ?Z.ltb_ge, ?Z.leb_le, ?Z.leb_gt in E1, E2;
    split; try done; lia.
Qed.

Lemma shouldFlush_iff (b : ingestionBuffer) (sv : Values) :
  (shouldFlushOnKVSize b sv).1 = true
  ↔ (0 < maxKVBufferSize sv ∧ maxKVBufferSize sv <= curKVBatchSize b)
    ∨ targetKVBufferLen sv <= len (curKVBatch b).
Proof.
  unfold shouldFlushOnKVSize.
  destruct (0 <? maxKVBufferSize sv) eqn:E1;
    destruct (maxKVBufferSize sv <=? curKVBatchSize b) eqn:E2;
    destruct (targetKVBufferLen sv <=? len (curKVBatch b)) eqn:E3; simpl;
    rewrite ?Z.ltb_lt, ?Z.ltb_ge, ?Z.leb_le, ?Z.leb_gt in E1, E2, E3;
    split; try done; try lia; auto.
Qed.

(** X7: a buffer that asks for a flush keeps asking for it when a pair is
    added, and a buffer that has to be flushed still has to be: a request
    that [maybeFlush] has passed over comes back with the next event.  The
    size of the pair is not negative, and the sizes add up to a Go [int]. *)
Theorem shouldFlushOnKVSize_stays (b : ingestionBuffer) (sv : Values)
    (kv : roachpb.KeyValue) :
  0 <= Size kv →
  curKVBatchSize b + Size kv <= Int64.max_int →
  0 <= curKVBatchSize b →
  ((shouldFlushOnKVSize b sv).1 = true →
   (shouldFlushOnKVSize (addKV b kv) sv).1 = true)
  ∧ ((shouldFlushOnKVSize b sv).2 = true →
     (shouldFlushOnKVSize (addKV b kv) sv).2 = true).
Proof.
  intros Hkv Hsum Hb.
  rewrite !shouldFlush_iff, !mustFlush_iff. simpl.
  rewrite add_in_range by (unfold Int64.min_int, Int64.max_int in *; lia).
  rewrite len_app. pose proof (len_nonneg [kv]). split; lia.
Qed.
End BufferMore.

(** ** More on the flush coordinator and the event handler *)

Section CoordinatorMore.
Context `{!Sizer} `{!span.Frontier F}.
Local Abbreviation lrwp := (logicalReplicationWriterProcessor F).

(** What [flush] does to the processor when the flush loop takes the
    buffer. *)
Lemma flush_taken w reason (lrw : lrwp) :
  flushCh_ready w = true →
  let lrw' := (flush w reason lrw).1 in
  flushCh lrw'
  = flushCh lrw
    ++ [ {| fb_buffer := buffer lrw;
            fb_checkpoint := checkpoint_of (frontier lrw) |} ]
  ∧ buffer lrw' = NewIngestionBuffer
  ∧ frontier lrw' = frontier lrw
  ∧ lastFlushFrontier lrw' = span.Frontier_ts (frontier lrw)
  ∧ lastFlushTime lrw' = timeutil_Now w
  ∧ flushInProgress lrw' = flushInProgress lrw
  ∧ sv lrw' = sv lrw ∧ knobs lrw' = knobs lrw
  ∧ InitialScanTimestamp lrw' = InitialScanTimestamp lrw.
Proof.
  intros Hready. unfold flush. rewrite Hready. simpl.
  repeat (split; [reflexivity|]). reflexivity.
Qed.

Lemma handed_snoc (lrw lrw' : lrwp) b :
  flushCh lrw' = flushCh lrw ++ [b] →
  handed lrw' = handed lrw ++ curKVBatch (fb_buffer b).
Proof.
  intros Hch. unfold handed. rewrite Hch, fmap_app, join_app. simpl.
  by rewrite app_nil_r.
Qed.

Lemma kept_refl (lrw : lrwp) : kept lrw lrw.
Proof. unfold kept. repeat split; try done. lia. Qed.

Lemma flush_kept w reason (lrw : lrwp) :
  flushCh_ready w = true → kept lrw (flush w reason lrw).1.
Proof.
  intros Hready.
  destruct (flush_taken w reason lrw Hready)
    as (Hch & Hbuf & Hfr & _ & _ & _ & Hsv & Hkn & Hin).
  unfold kept, received.
  rewrite (handed_snoc lrw _ _ Hch), Hbuf, Hch. simpl.
  rewrite app_nil_r, length_app. simpl.
  repeat split; try done; [by eexists | lia].
Qed.

Lemma maybeFlush_kept w reason (lrw : lrwp) :
  flushCh_ready w = true → kept lrw (maybeFlush w reason lrw).1.
Proof.
  intros Hready. unfold maybeFlush.
  destruct (flushInProgress lrw); [apply kept_refl|].
  destruct (_ && _); [apply kept_refl | by apply flush_kept].
Qed.

Lemma flushOnThresholds_kept w (lrw : lrwp) :
  flushCh_ready w = true → kept lrw (flushOnThresholds w lrw).1.
Proof.
  intros Hready. unfold flushOnThresholds.
  destruct (shouldFlushOnKVSize _ _) as [[] []];
    auto using flush_kept, maybeFlush_kept, kept_refl.
Qed.

(** X8: right after a flush that the flush loop has taken, [maybeFlush]
    does nothing: the buffer is empty and the frontier is where the flush
    left its mark. *)
Theorem maybeFlush_after_flush (w w' : world) (reason reason' : flushReason)
    (lrw : lrwp) :
  flushCh_ready w = true →
  maybeFlush w' reason' (flush w reason lrw).1
  = ((flush w reason lrw).1, None).
Proof.
  intros Hready.
  destruct (flush_taken w reason lrw Hready)
    as (_ & Hbuf & Hfr & Hmark & _).
  unfold maybeFlush.
  destruct (flushInProgress (flush w reason lrw).1); [done|].
  rewrite Hbuf, Hmark, Hfr, LessEq_refl. done.
Qed.

(** Forwarding resolved spans changes the frontier and nothing else. *)
Lemma forwardResolved_frontier_only d rss (lrw : lrwp) :
  let lrw' := (forwardResolved d rss lrw).1 in
  buffer lrw' = buffer lrw ∧ flushCh lrw' = flushCh lrw
  ∧ lastFlushFrontier lrw' = lastFlushFrontier lrw
  ∧ lastFlushTime lrw' = lastFlushTime lrw
  ∧ flushInProgress lrw' = flushInProgress lrw
  ∧ sv lrw' = sv lrw ∧ knobs lrw' = knobs lrw
  ∧ InitialScanTimestamp lrw' = InitialScanTimestamp lrw
  ∧ metrics lrw' = metrics lrw.
Proof.
  revert lrw. induction rss as [|rs rss IH]; intros lrw; simpl; [done|].
  destruct (span.Forward _ _ _) as [f [moved [err|]]]; simpl; [done|].
  apply (IH (with_frontier lrw f)).
Qed.

(** X9: [bufferCheckpoint] changes the frontier and the count of checkpoint
    events and nothing else: the buffer, what was handed to the flush loop
    and the marks of the last flush stay; the event is counted when it is
    not elided and all its spans were forwarded without error, and only
    then. *)
Theorem bufferCheckpoint_frontier_only (event : streamingccl.Event)
    (lrw : lrwp) :
  let lrw' := (bufferCheckpoint event lrw).1 in
  let err := (bufferCheckpoint event lrw).2 in
  buffer lrw' = buffer lrw ∧ flushCh lrw' = flushCh lrw
  ∧ lastFlushFrontier lrw' = lastFlushFrontier lrw
  ∧ lastFlushTime lrw' = lastFlushTime lrw
  ∧ flushInProgress lrw' = flushInProgress lrw
  ∧ sv lrw' = sv lrw ∧ knobs lrw' = knobs lrw
  ∧ InitialScanTimestamp lrw' = InitialScanTimestamp lrw
  ∧ FlushOnSize (metrics lrw') = FlushOnSize (metrics lrw)
  ∧ FlushOnTime (metrics lrw') = FlushOnTime (metrics lrw)
  ∧ CheckpointEvents (metrics lrw')
    = (if decide (elided lrw = false ∧ err = None)
       then Int64.add (CheckpointEvents (metrics lrw)) 1
       else CheckpointEvents (metrics lrw)).
Proof.
  unfold bufferCheckpoint. destruct (elided lrw) eqn:Hel; cbv zeta.
  { cbn [fst snd]. destruct (decide _) as [[? _]|_]; done. }
  destruct (streamingccl.GetResolvedSpans event) as [rss|].
  2: { cbn [fst snd]. destruct (decide _) as [[_ ?]|_]; done. }
  pose proof (forwardResolved_frontier_only (quantize (sv lrw)) rss lrw)
    as Hkeep.
  destruct (forwardResolved _ rss lrw) as [lrw' [err|]]; cbn [fst snd] in *;
    destruct Hkeep as (? & ? & ? & ? & ? & ? & ? & ? & ->).
  - destruct (decide _) as [[_ ?]|_]; done.
  - destruct (decide _) as [_|Hn]; [done|]. by destruct Hn.
Qed.

Lemma bufferCheckpoint_kept event (lrw : lrwp) :
  let lrw' := (bufferCheckpoint event lrw).1 in
  received lrw' = received lrw ∧ flushCh lrw' = flushCh lrw
  ∧ sv lrw' = sv lrw ∧ knobs lrw' = knobs lrw.
Proof.
  unfold bufferCheckpoint. destruct (elided lrw); [done|].
  destruct (streamingccl.GetResolvedSpans event) as [rss|]; [|done].
  pose proof (forwardResolved_frontier_only (quantize (sv lrw)) rss lrw)
    as (Hb & Hch & _ & _ & _ & Hsv & Hkn & _).
  destruct (forwardResolved _ rss lrw) as [lrw' [err|]]; simpl in *;
    unfold received, handed; simpl; by rewrite Hb, Hch.
Qed.

Lemma bufferCheckpoint_fields event (lrw : lrwp) :
  let lrw' := (bufferCheckpoint event lrw).1 in
  buffer lrw' = buffer lrw ∧ flushCh lrw' = flushCh lrw
  ∧ flushInProgress lrw' = flushInProgress lrw ∧ sv lrw' = sv lrw.
Proof.
  unfold bufferCheckpoint. destruct (elided lrw); [done|].
  destruct (streamingccl.GetResolvedSpans event) as [rss|]; [|done].
  pose proof (forwardResolved_frontier_only (quantize (sv lrw)) rss lrw)
    as (Hb & Hch & _ & _ & Hin & Hsv & _).
  by destruct (forwardResolved _ rss lrw) as [lrw' [err|]].
Qed.

Lemma foldl_addKV_app kvs l (b : ingestionBuffer) :
  curKVBatch (foldl addKV b kvs) ++ l = curKVBatch b ++ kvs ++ l.
Proof. by rewrite foldl_addKV_batch, <- app_assoc. Qed.

(** What [handleEvent] does to the pairs, the channel and the frontier. *)
Lemma handleEvent_effect (w : world) (event : streamingccl.Event)
    (lrw lrw' : lrwp) (err : option error) :
  flushCh_ready w = true →
  handleEvent w event lrw = Ok (lrw', err) →
  received lrw'
  = received lrw ++ (if err is None then kvs_of event else [])
  ∧ flushCh lrw `prefix_of` flushCh lrw'
  ∧ (length (flushCh lrw') <= S (length (flushCh lrw)))%nat
  ∧ (streamingccl.Event_Type event ≠ streamingccl.CheckpointEvent →
     frontier lrw' = frontier lrw).
Proof.
  intros Hready. unfold handleEvent, kvs_of.
  assert (∀ lrw1 : lrwp,
            received lrw1 = received lrw → flushCh lrw1 = flushCh lrw →
            received lrw1 = received lrw ++ []
            ∧ flushCh lrw `prefix_of` flushCh lrw1
            ∧ (length (flushCh lrw1) <= S (length (flushCh lrw)))%nat)
    as Hsame.
  { intros lrw1 -> ->. rewrite app_nil_r. split; [done|]. split; [done|lia]. }
  assert (∀ (lrw1 : lrwp) kvs,
            received lrw1 = received lrw ++ kvs →
            flushCh lrw1 = flushCh lrw →
            let lrw2 := (flushOnThresholds w lrw1).1 in
            received lrw2 = received lrw ++ kvs
            ∧ flushCh lrw `prefix_of` flushCh lrw2
            ∧ (length (flushCh lrw2) <= S (length (flushCh lrw)))%nat
            ∧ frontier lrw2 = frontier lrw1) as Hcheck.
  { intros lrw1 kvs Hrec Hch lrw2.
    destruct (flushOnThresholds_kept w lrw1 Hready)
      as (Hrec2 & Hpre & Hlen & Hfr & _).
    fold lrw2 in Hrec2, Hpre, Hlen, Hfr.
    rewrite Hch in Hpre, Hlen. by rewrite Hrec2, Hrec. }
  pose proof (flushOnThresholds_no_error w) as Hnil.
  destruct (streamingccl.Event_Type event) eqn:Etype; simpl.
  - (* a KV event *)
    destruct (index _ 0) as [kv|p|]; simpl; [|done..].
    destruct (afterReceivingEvent lrw) as [e|].
    { intros [= <- <-]. destruct (Hsame lrw) as (?&?&?); done. }
    destruct (streamingccl.GetKVs event) as [kvs|]; simpl.
    + specialize (Hcheck (with_buffer lrw (foldl addKV (buffer lrw) kvs)) kvs).
      specialize (Hnil (with_buffer lrw (foldl addKV (buffer lrw) kvs))).
      destruct (flushOnThresholds w _) as [lrw2 e2]. simpl in *. subst e2.
      intros [= <- <-].
      destruct Hcheck as (?&?&?&?); [|done|done].
      unfold received, handed. simpl.
      by rewrite foldl_addKV_batch, app_assoc.
    + intros [= <- <-]. destruct (Hsame lrw) as (?&?&?); done.
  - destruct (afterReceivingEvent lrw) as [e|]; intros [= <- <-];
      destruct (Hsame lrw) as (?&?&?); done.
  - destruct (afterReceivingEvent lrw) as [e|]; intros [= <- <-];
      destruct (Hsame lrw) as (?&?&?); done.
  - (* a checkpoint event *)
    destruct (afterReceivingEvent lrw) as [e|].
    { intros [= <- <-]. destruct (Hsame lrw) as (?&?&?); done. }
    destruct (bufferCheckpoint_kept event lrw) as (Hrec & Hch & _).
    destruct (bufferCheckpoint event lrw) as [lrw1 [e|]]; simpl in *.
    + intros [= <- <-]. destruct (Hsame lrw1) as (?&?&?); done.
    + specialize (Hcheck lrw1 []). specialize (Hnil lrw1).
      destruct (flushOnThresholds w lrw1) as [lrw2 e2]. simpl in *. subst e2.
      intros [= <- <-].
      destruct Hcheck as (?&?&?&?); [by rewrite app_nil_r|done|done].
  - (* a split event *)
    destruct (afterReceivingEvent lrw) as [e|].
    { intros [= <- <-]. destruct (Hsame lrw) as (?&?&?); done. }
    specialize (Hcheck lrw []). specialize (Hnil lrw).
    destruct (flushOnThresholds w lrw) as [lrw2 e2]. simpl in *. subst e2.
    intros [= <- <-].
    destruct Hcheck as (?&?&?&?); [by rewrite app_nil_r|done|done].
  - destruct (afterReceivingEvent lrw) as [e|]; intros [= <- <-];
      destruct (Hsame lrw) as (?&?&?); done.
Qed.

(** X10: [handleEvent] loses no pair and makes none up, as long as the flush
    loop takes what it is handed: the pairs handed over and those in the
    buffer are, in order, what they were, followed by the pairs of the
    event when no error is returned; at most one buffer is handed over;
    only a checkpoint event changes the frontier. *)
Theorem handleEvent_conserves (w : world) (event : streamingccl.Event)
    (lrw lrw' : lrwp) (err : option error) :
  flushCh_ready w = true →
  handleEvent w event lrw = Ok (lrw', err) →
  received lrw'
  = received lrw ++ (if err is None then kvs_of event else [])
  ∧ flushCh lrw `prefix_of` flushCh lrw'
  ∧ (length (flushCh lrw') <= S (length (flushCh lrw)))%nat
  ∧ (streamingccl.Event_Type event ≠ streamingccl.CheckpointEvent →
     frontier lrw' = frontier lrw).
Proof. apply handleEvent_effect. Qed.


Lemma kvs_in_cons t inputs :
  kvs_in (t :: inputs) = selected_kvs (turn_selected t) ++ kvs_in inputs.
Proof. reflexivity. Qed.

(** One turn of [consumeEvents]. *)
Lemma consumeStep_conserves sel w (lrw lrw' : lrwp) ex :
  flushCh_ready w = true →
  consumeStep sel w lrw = Ok (lrw', ex) →
  ∃ got, received lrw' = received lrw ++ got
         ∧ got `prefix_of` selected_kvs sel
         ∧ (ex = Waiting → got = selected_kvs sel)
         ∧ flushCh lrw `prefix_of` flushCh lrw'
         ∧ (ex = Returns None →
            curKVBatch (buffer lrw') = [] ∧ sel = EventsClosed).
Proof.
  intros Hready.
  destruct sel as [event| |now]; simpl.
  - destruct (handleEvent w event lrw) as [[lrw1 err]|p|] eqn:Hev;
      simpl; [|done..].
    destruct (handleEvent_effect w event lrw lrw1 err Hready Hev)
      as (Hrec & Hpre & _).
    destruct err as [e|]; intros [= <- <-]; eexists; (split; [exact Hrec|]).
    + split; [apply prefix_nil|]. done.
    + done.
  - pose proof (flush_kept w flushOnClose lrw Hready) as (Hrec & Hpre & _).
    destruct (flush_taken w flushOnClose lrw Hready) as (_ & Hbuf & _).
    pose proof (flush_no_error w flushOnClose lrw) as Hnil.
    destruct (flush w flushOnClose lrw) as [lrw1 e]. simpl in *. subst e.
    intros [= <- <-]. exists []. rewrite app_nil_r, Hbuf. done.
  - destruct (_ <=? _).
    + pose proof (maybeFlush_kept w flushOnTime lrw Hready) as (Hrec & Hpre & _).
      pose proof (maybeFlush_no_error w flushOnTime lrw) as Hnil.
      destruct (maybeFlush w flushOnTime lrw) as [lrw1 e]. simpl in *. subst e.
      intros [= <- <-]. exists []. rewrite app_nil_r. done.
    + intros [= <- <-]. exists []. rewrite app_nil_r. done.
Qed.

(** X11: [consumeEvents] loses no pair and makes none up, as long as the
    flush loop takes what it is handed, and whatever the flush loop stores
    in [flushInProgress] between the turns: what is handed over or buffered
    is what it was, then the pairs of the events received, in the order
    received, up to the event at which the loop returns; while the loop
    goes on it is all of them. Buffers handed over stay handed over. When
    the loop returns without error, the event channel was closed and every
    pair taken in has been handed to the flush loop: the buffer is empty. *)
Theorem consumeEvents_conserves (inputs : list turn)
    (lrw lrw' : lrwp) (ex : exit) :
  Forall (λ t, flushCh_ready (turn_world t) = true) inputs →
  consumeEvents inputs lrw = Ok (lrw', ex) →
  (∃ got, received lrw' = received lrw ++ got
          ∧ got `prefix_of` kvs_in inputs
          ∧ (ex = Waiting → got = kvs_in inputs))
  ∧ flushCh lrw `prefix_of` flushCh lrw'
  ∧ (ex = Returns None →
     curKVBatch (buffer lrw') = [] ∧ handed lrw' = received lrw'
     ∧ EventsClosed ∈ turn_selected <$> inputs).
Proof.
  intros Hready. revert lrw.
  induction Hready as [|[sel stored w] inputs Hw Hready IH]; intros lrw.
  { intros [= <- <-]. split; [|done]. exists []. by rewrite app_nil_r. }
  cbn [consumeEvents turn_selected turn_flushInProgress turn_world] in *.
  destruct (consumeStep sel w (with_flushInProgress lrw stored))
    as [[lrw1 ex1]|p|] eqn:Hstep; simpl; [|done..].
  destruct (consumeStep_conserves sel w _ lrw1 ex1 Hw Hstep)
    as (got1 & Hrec1 & Hpre1 & Hall1 & Hch1 & Hend1).
  change (received (with_flushInProgress lrw stored)) with (received lrw)
    in Hrec1.
  change (flushCh (with_flushInProgress lrw stored)) with (flushCh lrw)
    in Hch1.
  rewrite kvs_in_cons. cbn [turn_selected].
  destruct ex1 as [|err1].
  - intros Hrest.
    destruct (IH lrw1 Hrest) as ((got & Hrec & Hpre & Hall) & Hch & Hend).
    rewrite (Hall1 eq_refl) in Hrec1.
    split; [|split].
    + exists (selected_kvs sel ++ got).
      rewrite Hrec, Hrec1, <- app_assoc. split; [done|].
      split; [by apply prefix_app|]. intros Hex. by rewrite (Hall Hex).
    + by etrans.
    + intros Hex. destruct (Hend Hex) as (? & ? & ?).
      split; [done|]. split; [done|]. by apply list_elem_of_further.
  - intros [= <- <-]. split; [|split; [done|]].
    + exists got1. split; [done|]. split; [|done].
      by apply prefix_app_r.
    + intros [= ->]. destruct (Hend1 eq_refl) as [Hbuf ->].
      split; [done|]. split; [|apply list_elem_of_here].
      unfold received. by rewrite Hbuf, app_nil_r.
Qed.

(** The threshold check while a flush is in progress. *)
Lemma flushOnThresholds_in_progress w (lrw : lrwp) :
  flushInProgress lrw = true →
  let lrw' := (flushOnThresholds w lrw).1 in
  if (shouldFlushOnKVSize (buffer lrw) (sv lrw)).2
  then buffer lrw' = NewIngestionBuffer
       ∧ flushCh lrw'
         = flushCh lrw
           ++ (if flushCh_ready w
               then [ {| fb_buffer := buffer lrw;
                         fb_checkpoint := checkpoint_of (frontier lrw) |} ]
               else [])
  else lrw' = lrw.
Proof.
  intros Hin. unfold flushOnThresholds.
  destruct (shouldFlushOnKVSize _ _) as [shouldFlush []]; simpl.
  - unfold flush. destruct (flushCh_ready w); simpl; [done|].
    by rewrite app_nil_r.
  - destruct shouldFlush; [|done]. unfold maybeFlush. by rewrite Hin.
Qed.

(** X12: while a flush is in progress, [handleEvent] buffers the pairs of
    the event and hands nothing to the flush loop, unless the buffer, with
    these pairs in it, has reached the limit on its size: then it is
    replaced by an empty one, and handed over with the checkpoint of the
    frontier if the flush loop takes it. *)
Theorem handleEvent_backpressure (w : world) (event : streamingccl.Event)
    (lrw lrw' : lrwp) (err : option error) :
  flushInProgress lrw = true →
  handleEvent w event lrw = Ok (lrw', err) →
  let b :=
    foldl addKV (buffer lrw) (if err is None then kvs_of event else []) in
  if (shouldFlushOnKVSize b (sv lrw)).2 && bool_decide (err = None)
  then buffer lrw' = NewIngestionBuffer
       ∧ flushCh lrw'
         = flushCh lrw
           ++ (if flushCh_ready w
               then [ {| fb_buffer := b;
                         fb_checkpoint := checkpoint_of (frontier lrw') |} ]
               else [])
  else buffer lrw' = b ∧ flushCh lrw' = flushCh lrw.
Proof.
  intros Hin. unfold handleEvent, kvs_of.
  assert (∀ lrw1 : lrwp,
            flushInProgress lrw1 = true → sv lrw1 = sv lrw →
            flushCh lrw1 = flushCh lrw →
            let lrw2 := (flushOnThresholds w lrw1).1 in
            if (shouldFlushOnKVSize (buffer lrw1) (sv lrw)).2 && true
            then buffer lrw2 = NewIngestionBuffer
                 ∧ flushCh lrw2
                   = flushCh lrw
                     ++ (if flushCh_ready w
                         then [ {| fb_buffer := buffer lrw1;
                                   fb_checkpoint :=
                                     checkpoint_of (frontier lrw2) |} ]
                         else [])
            else buffer lrw2 = buffer lrw1 ∧ flushCh lrw2 = flushCh lrw)
    as Hcheck.
  { intros lrw1 Hin1 Hsv Hch lrw2.
    pose proof (flushOnThresholds_in_progress w lrw1 Hin1) as Hthr.
    assert (frontier lrw2 = frontier lrw1) as Hfr.
    { unfold lrw2, flushOnThresholds, maybeFlush, flush.
      rewrite Hin1. repeat case_match; done. }
    simpl in Hthr. fold lrw2 in Hthr. rewrite Hsv in Hthr.
    rewrite andb_true_r, Hfr.
    destruct (shouldFlushOnKVSize (buffer lrw1) (sv lrw)).2.
    - by rewrite <- Hch.
    - by rewrite Hthr. }
  pose proof (flushOnThresholds_no_error w) as Hnil.
  destruct (streamingccl.Event_Type event) eqn:Etype; simpl.
  - destruct (index _ 0) as [kv|p|]; simpl; [|done..].
    destruct (afterReceivingEvent lrw) as [e|]; [intros [= <- <-]; simpl; by rewrite andb_false_r|].
    destruct (streamingccl.GetKVs event) as [kvs|]; simpl;
      [|intros [= <- <-]; simpl; by rewrite andb_false_r].
    specialize (Hcheck (with_buffer lrw (foldl addKV (buffer lrw) kvs))
                  Hin eq_refl eq_refl).
    specialize (Hnil (with_buffer lrw (foldl addKV (buffer lrw) kvs))).
    destruct (flushOnThresholds w _) as [lrw2 e2]. simpl in *. subst e2.
    intros [= <- <-]. exact Hcheck.
  - destruct (afterReceivingEvent lrw) as [e|]; intros [= <- <-]; simpl; by rewrite andb_false_r.
  - destruct (afterReceivingEvent lrw) as [e|]; intros [= <- <-]; simpl; by rewrite andb_false_r.
  - destruct (afterReceivingEvent lrw) as [e|]; [intros [= <- <-]; simpl; by rewrite andb_false_r|].
    pose proof (bufferCheckpoint_fields event lrw)
      as (Hb & Hch & Hin1 & Hsv).
    destruct (bufferCheckpoint event lrw) as [lrw1 [e|]]; simpl in *.
    + intros [= <- <-]. simpl. by rewrite andb_false_r.
    + rewrite Hin in Hin1. specialize (Hcheck lrw1 Hin1 Hsv Hch).
      specialize (Hnil lrw1).
      destruct (flushOnThresholds w lrw1) as [lrw2 e2]. simpl in *. subst e2.
      intros [= <- <-]. by rewrite Hb in Hcheck.
  - destruct (afterReceivingEvent lrw) as [e|]; [intros [= <- <-]; simpl; by rewrite andb_false_r|].
    specialize (Hcheck lrw Hin eq_refl eq_refl). specialize (Hnil lrw).
    destruct (flushOnThresholds w lrw) as [lrw2 e2]. simpl in *. subst e2.
    intros [= <- <-]. exact Hcheck.
  - destruct (afterReceivingEvent lrw) as [e|]; intros [= <- <-]; simpl; by rewrite andb_false_r.
Qed.

(** X13: quantizing a resolved span a second time changes nothing, for
    every granularity and every wall time of an [int64], negative ones
    included. *)
Theorem quantized_idempotent (d : Z) (lrw : lrwp) (rs : jobspb.ResolvedSpan) :
  Int64.in_range (hlc.WallTime (jobspb.Timestamp rs)) →
  quantized d lrw (quantized d lrw rs) = quantized d lrw rs.
Proof.
  intros Hw. unfold quantized at 2.
  destruct (_ && _) eqn:Hcond; [|unfold quantized; by rewrite Hcond].
  pose proof Hcond as Hc.
  apply andb_true_iff in Hc as [Hd _]. apply Z.ltb_lt in Hd.
  unfold quantized. rewrite Hcond.
  cbn [jobspb.Timestamp jobspb.Span hlc.WallTime hlc.Logical].
  set (wt := hlc.WallTime (jobspb.Timestamp rs)) in *.
  pose proof (Z.quot_rem' wt d) as Hqr.
  assert (0 <= Z.rem wt d <= wt ∨ wt <= Z.rem wt d <= 0) as Hr.
  { destruct (Z.le_ge_cases 0 wt) as [Hpos|Hneg].
    - pose proof (Z.rem_nonneg wt d ltac:(lia) Hpos).
      pose proof (Z.rem_le wt d Hpos Hd). lia.
    - pose proof (Z.rem_nonpos wt d ltac:(lia) Hneg).
      pose proof (Z.rem_opp_l' wt d) as Hopp.
      pose proof (Z.rem_le (- wt) d ltac:(lia) Hd). lia. }
  unfold Int64.in_range, Int64.min_int, Int64.max_int in Hw.
  assert (Int64.sub wt (Z.rem wt d) = d * (wt ÷ d)) as ->.
  { rewrite sub_in_range; unfold Int64.min_int, Int64.max_int; lia. }
  rewrite (Z.mul_comm d), Z.rem_mul by lia.
  rewrite sub_in_range; [rewrite Z.sub_0_r; by case_match|].
  unfold Int64.min_int, Int64.max_int. lia.
Qed.

(** X14: quantizing keeps the order of the timestamps that are after the
    initial scan timestamp. *)
Theorem quantized_monotone (d : Z) (lrw : lrwp) (rs rs' : jobspb.ResolvedSpan) :
  Int64.in_range (hlc.WallTime (jobspb.Timestamp rs)) →
  Int64.in_range (hlc.WallTime (jobspb.Timestamp rs')) →
  hlc.After (jobspb.Timestamp rs) (InitialScanTimestamp lrw) = true →
  hlc.After (jobspb.Timestamp rs') (InitialScanTimestamp lrw) = true →
  hlc.LessEq (jobspb.Timestamp rs) (jobspb.Timestamp rs') = true →
  hlc.LessEq (jobspb.Timestamp (quantized d lrw rs))
    (jobspb.Timestamp (quantized d lrw rs')) = true.
Proof.
  intros Hw Hw' Ha Ha' Hle. unfold quantized. rewrite Ha, Ha', !andb_true_r.
  destruct (0 <? d) eqn:Hd; [|done]. apply Z.ltb_lt in Hd.
  cbn [jobspb.Timestamp hlc.WallTime hlc.Logical].
  apply LessEq_spec in Hle. apply LessEq_spec. simpl.
  set (a := hlc.WallTime (jobspb.Timestamp rs)) in *.
  set (b := hlc.WallTime (jobspb.Timestamp rs')) in *.
  assert (a <= b) as Hab by lia.
  assert (∀ x, Int64.in_range x → Int64.sub x (Z.rem x d) = d * (x ÷ d))
    as Hq.
  { intros x Hx. pose proof (Z.quot_rem' x d) as Hqr.
    assert (0 <= Z.rem x d <= x ∨ x <= Z.rem x d <= 0) as Hr.
    { destruct (Z.le_ge_cases 0 x) as [Hpos|Hneg].
      - pose proof (Z.rem_nonneg x d ltac:(lia) Hpos).
        pose proof (Z.rem_le x d Hpos Hd). lia.
      - pose proof (Z.rem_nonpos x d ltac:(lia) Hneg).
        pose proof (Z.rem_opp_l' x d) as Hopp.
        pose proof (Z.rem_le (- x) d ltac:(lia) Hd). lia. }
    unfold Int64.in_range, Int64.min_int, Int64.max_int in Hx.
    rewrite sub_in_range; unfold Int64.min_int, Int64.max_int; lia. }
  rewrite !Hq by done.
  pose proof (Z.quot_le_mono a b d Hd Hab) as Hmono.
  revert Hmono. generalize (a ÷ d) (b ÷ d). intros qa qb Hmono. nia.
Qed.

(** X22: a tick of the flush timer, once the minimum flush interval has
    passed since the last flush and while no flush is in progress, hands
    the buffer to the flush loop with the checkpoint of the frontier when
    there are pairs in the buffer or the frontier is past the frontier of
    the last flush; the flush is counted as a flush on time, and the loop
    goes on. *)
Theorem timer_flushes_progress (now : Z) (w : world) (lrw : lrwp) :
  flushCh_ready w = true →
  flushInProgress lrw = false →
  minimumFlushInterval (sv lrw) <= time_Sub now (lastFlushTime lrw) →
  curKVBatch (buffer lrw) ≠ []
  ∨ hlc.After (span.Frontier_ts (frontier lrw)) (lastFlushFrontier lrw)
    = true →
  ∃ lrw', consumeStep (TimerFired now) w lrw = Ok (lrw', Waiting)
          ∧ flushCh lrw'
            = flushCh lrw
              ++ [ {| fb_buffer := buffer lrw;
                      fb_checkpoint := checkpoint_of (frontier lrw) |} ]
          ∧ buffer lrw' = NewIngestionBuffer
          ∧ lastFlushFrontier lrw' = span.Frontier_ts (frontier lrw)
          ∧ lastFlushTime lrw' = timeutil_Now w
          ∧ FlushOnTime (metrics lrw')
            = Int64.add (FlushOnTime (metrics lrw)) 1.
Proof.
  intros Hready Hin Hdue Hwork. unfold consumeStep.
  replace (_ <=? _) with true by (symmetry; by apply Z.leb_le).
  unfold maybeFlush. rewrite Hin.
  replace (_ && _) with false.
  - unfold flush. rewrite Hready. simpl. eexists. split; [done|]. done.
  - symmetry. apply andb_false_iff. destruct Hwork as [Hne|Hafter].
    + left. apply Z.eqb_neq. by rewrite len_nil_iff.
    + right. unfold hlc.After in Hafter. by apply negb_true_iff.
Qed.

Local Arguments quantized : simpl never.

Lemma after_forwards_cons d (lrw : lrwp) rs rss :
  after_forwards d lrw (rs :: rss)
  = after_forwards d
      (with_frontier lrw
         (span.Forward (frontier lrw) (jobspb.Span (quantized d lrw rs))
            (jobspb.Timestamp (quantized d lrw rs))).1) rss.
Proof. reflexivity. Qed.

Lemma forwardResolved_spec d rss (lrw : lrwp) :
  let out := forwardResolved d rss lrw in
  ∃ i : nat,
    (∀ j rs, (j < i)%nat → rss !! j = Some rs →
             (span.Forward (after_forwards d lrw (take j rss))
                (jobspb.Span (quantized d lrw rs))
                (jobspb.Timestamp (quantized d lrw rs))).2.2 = None)
    ∧ match out.2 with
      | None =>
          i = length rss ∧ frontier out.1 = after_forwards d lrw rss
      | Some err =>
          ∃ rs e, rss !! i = Some rs
                  ∧ (span.Forward (after_forwards d lrw (take i rss))
                       (jobspb.Span (quantized d lrw rs))
                       (jobspb.Timestamp (quantized d lrw rs))).2.2
                    = Some e
                  ∧ frontier out.1 = after_forwards d lrw (take (S i) rss)
                  ∧ err
                    = errors_Wrap e "unable to forward checkpoint frontier"
      end.
Proof.
  revert lrw. induction rss as [|rs rss IH]; intros lrw.
  { exists 0%nat. split; [intros; lia|]. done. }
  cbn [forwardResolved]. cbv zeta.
  destruct (span.Forward (frontier lrw) (jobspb.Span (quantized d lrw rs))
              (jobspb.Timestamp (quantized d lrw rs)))
    as [f [moved [e|]]] eqn:Hfw.
  { exists 0%nat. split; [intros; lia|]. exists rs, e.
    split; [done|]. cbn [take fst snd]. rewrite after_forwards_cons.
    change (after_forwards d lrw []) with (frontier lrw). rewrite Hfw.
    done. }
  destruct (IH (with_frontier lrw f)) as (i & Hbefore & Hout).
  exists (S i). split.
  - intros [|j] rs' Hj Hrs'.
    + injection Hrs' as <-. cbn [take]. unfold after_forwards at 1.
      cbn [foldl]. by rewrite Hfw.
    + cbn [take]. rewrite after_forwards_cons, Hfw.
      apply (Hbefore j rs'); [lia|done].
  - destruct (forwardResolved d rss (with_frontier lrw f)) as [lrw2 [err|]];
      cbn [fst snd] in *.
    + destruct Hout as (rs' & e & Hrs' & Hfail & Hfr & ->).
      exists rs', e. split; [done|].
      cbn [take]. rewrite !after_forwards_cons, Hfw. done.
    + destruct Hout as [-> Hfr]. split; [done|].
      rewrite after_forwards_cons, Hfw. done.
Qed.

(** X24: [bufferCheckpoint] forwards the resolved spans of the event,
    quantized, into the frontier one after the other, and stops at the
    first span that the frontier refuses: it returns that error, wrapped,
    and the spans before it stay forwarded; without such a span all are
    forwarded. *)
Theorem bufferCheckpoint_stops_at_first_error (event : streamingccl.Event)
    (lrw : lrwp) (rss : list jobspb.ResolvedSpan) :
  let d := quantize (sv lrw) in
  let out := bufferCheckpoint event lrw in
  streamingccl.GetResolvedSpans event = Some rss →
  elided lrw = false →
  ∃ i : nat,
    (∀ j rs, (j < i)%nat → rss !! j = Some rs →
             (span.Forward (after_forwards d lrw (take j rss))
                (jobspb.Span (quantized d lrw rs))
                (jobspb.Timestamp (quantized d lrw rs))).2.2 = None)
    ∧ match out.2 with
      | None =>
          i = length rss ∧ frontier out.1 = after_forwards d lrw rss
      | Some err =>
          ∃ rs e, rss !! i = Some rs
                  ∧ (span.Forward (after_forwards d lrw (take i rss))
                       (jobspb.Span (quantized d lrw rs))
                       (jobspb.Timestamp (quantized d lrw rs))).2.2
                    = Some e
                  ∧ frontier out.1 = after_forwards d lrw (take (S i) rss)
                  ∧ err
                    = errors_Wrap e "unable to forward checkpoint frontier"
      end.
Proof.
  intros d out Hspans Hel.
  destruct (bufferCheckpoint_forwards event lrw rss Hspans Hel)
    as [Hfr Herr].
  destruct (forwardResolved_spec d rss lrw) as (i & Hbefore & Hout).
  exists i. split; [done|].
  unfold out. rewrite Herr, Hfr. exact Hout.
Qed.
End CoordinatorMore.

(** ** More on the goroutines, the pools and the batch handler *)

(** X15: of the errors that the goroutines of the processor send, the first
    one stays in [errCh] and the later ones are dropped, as long as nothing
    is taken from the channel; a [nil] error is not sent. *)
Theorem sendError_first_wins (errCh : option error)
    (errs : list (option error)) :
  foldl sendError errCh errs = first_error (errCh :: errs).
Proof.
  revert errCh. induction errs as [|err errs IH]; intros errCh; simpl.
  - by destruct errCh.
  - rewrite IH. by destruct errCh, err.
Qed.

Lemma bufferPool_Get_new i pool :
  Forall (λ b, b = NewIngestionBuffer) pool →
  (bufferPool_Get i pool).1 = NewIngestionBuffer
  ∧ Forall (λ b, b = NewIngestionBuffer) (bufferPool_Get i pool).2.
Proof.
  intros Hpool. unfold bufferPool_Get.
  destruct (pool !! i) as [b|] eqn:Hi; simpl.
  - split; [by eapply (Forall_lookup_1 _ _ _ _ Hpool)|by apply Forall_delete].
  - done.
Qed.

Lemma pool_run_new steps pool :
  Forall (λ b, b = NewIngestionBuffer) pool →
  Forall (λ b, b = NewIngestionBuffer) (pool_run steps pool).1
  ∧ Forall (λ b, b = NewIngestionBuffer) (pool_run steps pool).2.
Proof.
  revert pool. induction steps as [|[i|b|i] steps IH]; intros pool Hpool;
    simpl.
  - by split.
  - destruct (bufferPool_Get_new i pool Hpool) as [Hb Hrest].
    destruct (bufferPool_Get i pool) as [b pool1]. simpl in *.
    specialize (IH pool1 Hrest).
    destruct (pool_run steps pool1) as [got pool2]. simpl in *.
    destruct IH. split; [by constructor|done].
  - apply IH. by constructor.
  - apply IH. by apply Forall_delete.
Qed.

(** X16: whatever buffers are released to the pool, in whatever state, and
    whichever buffers the pool hands out or loses, [getBuffer] returns a
    buffer without pairs, of size zero, with the largest timestamp as its
    minimum: a buffer as [NewIngestionBuffer] makes it. *)
Theorem getBuffer_as_new (steps : list pool_step) :
  Forall (λ b, b = NewIngestionBuffer) (pool_run steps []).1.
Proof. by apply pool_run_new. Qed.

Lemma bhPool_fill_spec {D R} (d : D) (make : nat → R * option error)
    (i n : nat) :
  match bhPool_fill d make i n with
  | inl bhPool =>
      length bhPool = n
      ∧ ∀ j, (j < n)%nat →
             (make (i + j)%nat).2 = None
             ∧ bhPool !! j = Some {| db := d; rp := (make (i + j)%nat).1 |}
  | inr err =>
      ∃ j, (j < n)%nat ∧ (make (i + j)%nat).2 = Some err
           ∧ ∀ j', (j' < j)%nat → (make (i + j')%nat).2 = None
  end.
Proof.
  revert i. induction n as [|n IH]; intros i; simpl.
  { split; [done|]. intros j Hj. lia. }
  destruct (make i) as [r [err|]] eqn:Hmake.
  { exists 0%nat. rewrite Nat.add_0_r, Hmake. split; [lia|].
    split; [done|]. intros j' Hj'. lia. }
  specialize (IH (S i)).
  destruct (bhPool_fill d make (S i) n) as [bhPool|err].
  - destruct IH as [Hlen Hall]. split; [simpl; by rewrite Hlen|].
    intros [|j] Hj.
    + by rewrite Nat.add_0_r, Hmake.
    + replace (i + S j)%nat with (S i + j)%nat by lia.
      apply Hall. lia.
  - destruct IH as (j & Hj & Herr & Hbefore).
    exists (S j). replace (i + S j)%nat with (S i + j)%nat by lia.
    split; [lia|]. split; [done|].
    intros [|j'] Hj'.
    + by rewrite Nat.add_0_r, Hmake.
    + replace (i + S j')%nat with (S i + j')%nat by lia.
      apply Hbefore. lia.
Qed.

(** X17: the constructor gives the processor [maxWriterWorkers] batch
    handlers, 32 of them, each around the row processor made at its turn, or
    it stops at the first row processor that cannot be made and returns that
    error. *)
Theorem bhPool_new_spec {D R} (d : D) (make : nat → R * option error) :
  match bhPool_new d make with
  | inl bhPool =>
      length bhPool = 32%nat
      ∧ ∀ j, (j < 32)%nat →
             (make j).2 = None
             ∧ bhPool !! j = Some {| db := d; rp := (make j).1 |}
  | inr err =>
      ∃ j, (j < 32)%nat ∧ (make j).2 = Some err
           ∧ ∀ j', (j' < j)%nat → (make j').2 = None
  end.
Proof. apply (bhPool_fill_spec d make 0 maxWriterWorkers). Qed.

Section Constructed.
Context `{!Sizer} `{!SplitKeys} {sorter : Sorter} `{!DB D}
  `{!RowProcessor R}.

(** X21: with the batch handlers that the constructor makes, [flushBuffer]
    does not divide by zero: the chunk size is the larger of the batch size
    and of one more than a 32nd of the number of pairs; it does not panic,
    and with a batch size of at least one it returns, with the checkpoint it
    was given. *)
Theorem constructed_handlers_flush (d : D) (make : nat → R * option error)
    (bh : list (txnBatch D R)) (fuel : nat) (settings : Values)
    (b : flushableBuffer) :
  let kvs := curKVBatch (fb_buffer b) in
  let batchSize := flushBatchSize settings in
  slices.sorts sorter →
  bhPool_new d make = inl bh →
  2 * len kvs <= Int64.max_int →
  0 <= batchSize <= Int64.max_int →
  chunkSize_of (SortFunc byKeyThenTimestamp kvs) bh batchSize
  = Ok (Z.max (len kvs `div` 32 + 1) batchSize)
  ∧ (∀ p, flushBuffer fuel settings bh b ≠ Panic p)
  ∧ (1 <= batchSize → (length kvs < fuel)%nat →
     ∃ err, flushBuffer fuel settings bh b = Ok (fb_checkpoint b, err)).
Proof.
  intros kvs batchSize Hsorts Hnew Hlen Hbatch.
  pose proof (bhPool_fill_spec d make 0 maxWriterWorkers) as Hspec.
  unfold bhPool_new in Hnew. rewrite Hnew in Hspec.
  destruct Hspec as [Hbh _].
  assert (bh ≠ []) as Hne by (intros ->; done).
  split.
  - destruct (SortFunc_spec Hsorts kvs) as (_ & _ & Hls).
    pose proof (len_nonneg kvs).
    destruct (chunkSize_of_spec (SortFunc byKeyThenTimestamp kvs) bh
                batchSize) as (chunkSize & -> & -> & _);
      [done|unfold Int64.max_int in *; lia..|].
    rewrite Hls. unfold len at 2. rewrite Hbh. done.
  - by apply flushBuffer_total.
Qed.
End Constructed.

Section BatchHandlerMore.
Context `{!Sizer} `{!RowProcessor R}.

Lemma total_size_snoc kvs kv :
  total_size (kvs ++ [kv]) = total_size kvs + Size kv.
Proof.
  unfold total_size. induction kvs as [|kv' kvs IH]; simpl; [lia|].
  rewrite IH. lia.
Qed.

Lemma wrap_wrap x : Int64.wrap (Int64.wrap x) = Int64.wrap x.
Proof. pose proof (wrap_add_l x 0) as Hw. by rewrite !Z.add_0_r in Hw. Qed.

Lemma txnBatch_rows_spec (r : R) (stats : batchStats) batch :
  Int64.wrap (byteSize stats) = byteSize stats →
  let out := txnBatch_rows r stats batch in
  ∃ i : nat,
    (∀ j kv, (j < i)%nat → batch !! j = Some kv →
             (ProcessRow (after_rows r (take j batch)) kv).2 = None)
    ∧ match out.2.2 with
      | None =>
          i = length batch ∧ out.1 = after_rows r batch
          ∧ byteSize out.2.1
            = Int64.wrap (byteSize stats + total_size batch)
      | Some err =>
          ∃ kv, batch !! i = Some kv
                ∧ ProcessRow (after_rows r (take i batch)) kv
                  = (out.1, Some err)
                ∧ byteSize out.2.1
                  = Int64.wrap (byteSize stats
                                + total_size (take (S i) batch))
      end.
Proof.
  revert r stats. induction batch as [|kv batch IH]; intros r stats Hstats;
    simpl.
  { exists 0%nat. split; [intros; lia|]. rewrite Z.add_0_r. done. }
  destruct (ProcessRow r kv) as [r' [err|]] eqn:Hrow; simpl.
  { exists 0%nat. split; [intros; lia|]. exists kv. simpl.
    rewrite Hrow, Z.add_0_r. done. }
  destruct (IH r' {| byteSize := Int64.add (byteSize stats) (Size kv) |})
    as (i & Hbefore & Hout).
  { simpl. apply wrap_wrap. }
  exists (S i). split.
  - intros [|j] kv' Hj; simpl.
    + intros [= <-]. by rewrite Hrow.
    + unfold after_rows in *. simpl. rewrite Hrow. simpl.
      apply Hbefore. lia.
  - unfold after_rows in *. simpl in *. rewrite Hrow. simpl.
    destruct (txnBatch_rows r' _ batch) as [r2 [stats2 [err|]]];
      simpl in *.
    + destruct Hout as (kv' & Hkv' & Hfail & Hsize). exists kv'.
      split; [done|]. split; [done|].
      rewrite Hsize. unfold Int64.add. rewrite wrap_add_l. f_equal.
      unfold total_size. simpl. lia.
    + destruct Hout as (-> & -> & Hsize). split; [done|]. split; [done|].
      rewrite Hsize. unfold Int64.add. rewrite wrap_add_l. f_equal.
      unfold total_size. simpl. lia.
Qed.

(** X18: every run of the closure that [txnBatch.HandleBatch] gives to
    [Txn] hands the rows of the batch to the row processor one after the
    other and stops at the first row that fails, whose error it returns;
    without a failure it has handed over every row.  The run adds to
    [stats.byteSize], in [int] arithmetic, the sizes of the rows it handed
    over, the failing one included.  [HandleBatch] returns the error that
    [Txn] returns and [stats] as the runs left it: when [Txn] runs the
    closure once and returns its error, they are those of that run, counted
    from zero. *)
Theorem HandleBatch_stops_at_first_error (batch : list roachpb.KeyValue) :
  (∀ (r : R) (stats : batchStats),
     Int64.wrap (byteSize stats) = byteSize stats →
     let out := txnBatch_closure batch (r, stats) in
     ∃ i : nat,
       (∀ j kv, (j < i)%nat → batch !! j = Some kv →
                (ProcessRow (after_rows r (take j batch)) kv).2 = None)
       ∧ match out.2 with
         | None =>
             i = length batch ∧ out.1.1 = after_rows r batch
             ∧ byteSize out.1.2
               = Int64.wrap (byteSize stats + total_size batch)
         | Some err =>
             ∃ kv, batch !! i = Some kv
                   ∧ ProcessRow (after_rows r (take i batch)) kv
                     = (out.1.1, Some err)
                   ∧ byteSize out.1.2
                     = Int64.wrap (byteSize stats
                                   + total_size (take (S i) batch))
         end)
  ∧ ∀ (D : Type) (store : DB D) (t : txnBatch D R),
      runs_once (db t) →
      let out := HandleBatch t batch in
      ∃ i : nat,
        (∀ j kv, (j < i)%nat → batch !! j = Some kv →
                 (ProcessRow (after_rows (rp t) (take j batch)) kv).2 = None)
        ∧ match out.2.2 with
          | None =>
              i = length batch ∧ rp out.1 = after_rows (rp t) batch
              ∧ byteSize out.2.1 = Int64.wrap (total_size batch)
          | Some err =>
              ∃ kv, batch !! i = Some kv
                    ∧ ProcessRow (after_rows (rp t) (take i batch)) kv
                      = (rp out.1, Some err)
                    ∧ byteSize out.2.1
                      = Int64.wrap (total_size (take (S i) batch))
          end.
Proof.
  assert (∀ (r : R) (stats : batchStats),
            Int64.wrap (byteSize stats) = byteSize stats →
            let out := txnBatch_closure batch (r, stats) in
            ∃ i : nat,
              (∀ j kv, (j < i)%nat → batch !! j = Some kv →
                       (ProcessRow (after_rows r (take j batch)) kv).2
                       = None)
              ∧ match out.2 with
                | None =>
                    i = length batch ∧ out.1.1 = after_rows r batch
                    ∧ byteSize out.1.2
                      = Int64.wrap (byteSize stats + total_size batch)
                | Some err =>
                    ∃ kv, batch !! i = Some kv
                          ∧ ProcessRow (after_rows r (take i batch)) kv
                            = (out.1.1, Some err)
                          ∧ byteSize out.1.2
                            = Int64.wrap (byteSize stats
                                          + total_size (take (S i) batch))
                end) as Hrun.
  { intros r stats Hstats.
    destruct (txnBatch_rows_spec r stats batch Hstats) as (i & Hbefore & Hout).
    exists i. split; [done|]. unfold txnBatch_closure. simpl.
    destruct (txnBatch_rows r stats batch) as [r2 [stats2 err]]. simpl in *.
    done. }
  split; [exact Hrun|].
  intros D store t Honce.
  destruct (Hrun (rp t) {| byteSize := 0 |} eq_refl) as (i & Hbefore & Hout).
  exists i. split; [done|].
  unfold HandleBatch, txnBatch_HandleBatch.
  specialize (Honce (R * batchStats)%type (txnBatch_closure batch)
                (rp t, {| byteSize := 0 |})).
  destruct (Txn (db t) _ _ _) as [d [[r2 stats2] err]]. simpl in Honce.
  rewrite <- Honce in Hout. simpl in *. done.
Qed.
End BatchHandlerMore.

Section FlushLoopMore.
Context `{!Sizer} `{!SplitKeys} `{!Sorter} `{!BatchHandler Handler}.

(** X19: the number of rows that a worker goroutine reports to
    [RecordBatchApplied] is 0 for every batch it applies, whatever the
    batch holds: the difference [batchEnd-batchStart] is taken after
    [batchStart] has been moved to [batchEnd]. *)
Theorem worker_records_no_rows (fuel : nat) (bh : Handler)
    (kvs : list roachpb.KeyValue) (batchSize batchStart chunkEnd : Z) :
  Forall (λ n, n = 0)
    (worker_recorded fuel bh kvs batchSize batchStart chunkEnd).
Proof.
  revert bh batchStart. induction fuel as [|fuel IH]; intros bh batchStart;
    simpl; [done|].
  destruct (batchStart <? chunkEnd); [|done].
  destruct (slice kvs batchStart _) as [batch|p|]; [|done..].
  destruct (HandleBatch bh batch) as [bh' [stats [err|]]]; [done|].
  constructor; [|apply IH].
  unfold Int64.sub. rewrite Z.sub_diag. reflexivity.
Qed.

Lemma flushBuffer_checkpoint fuel settings (bh : list Handler) b c err :
  flushBuffer fuel settings bh b = Ok (c, err) → c = fb_checkpoint b.
Proof.
  unfold flushBuffer. destruct (len _ =? 0); [by intros [= <- _]|].
  destruct (chunkSize_of _ _ _) as [chunkSize|p|]; simpl; [|done..].
  destruct (assignChunks _ _ _ _) as [[started chunkStart]|p|]; simpl;
    [|done..].
  destruct (negb _); [done|].
  destruct (g_Wait _) as [[e|]|p|]; simpl; [| |done..]; by intros [= <- _].
Qed.

(** X20: the checkpoints that [flushLoop] sends on [checkpointCh] are those
    of the buffers it received, in the order received, each one sent after
    [flushBuffer] returned without error for its buffer, with the handlers
    as the flush before left them. The loop clears [flushInProgress] after
    a checkpoint is taken; it leaves the flag set when it returns because a
    flush failed, whose checkpoint it does not send, and when it returns
    because the processor was stopped before the checkpoint was taken. *)
Theorem flushLoop_checkpoints (fuel : nat) (settings : Values)
    (inbox : list (option (flushableBuffer * bool)))
    (fl fl' : flusher (Handler := Handler)) (ex : exit) :
  flushLoop fuel settings inbox fl = Ok (fl', ex) →
  ∃ sent : list flushableBuffer,
    ((λ b, Some (b, true)) <$> sent) `prefix_of` inbox
    ∧ fl_checkpointCh fl' = fl_checkpointCh fl ++ (fb_checkpoint <$> sent)
    ∧ flushed_in_turn fuel settings (fl_bh fl) sent
    ∧ (sent ≠ [] → ex = Waiting ∨ inbox !! length sent = Some None →
       fl_flushInProgress fl' = false)
    ∧ match ex with
      | Waiting =>
          length sent = length inbox
          ∧ fl_bh fl' = bh_after_all fuel settings (fl_bh fl) sent
      | Returns None =>
          (inbox !! length sent = Some None
           ∧ fl_bh fl' = bh_after_all fuel settings (fl_bh fl) sent)
          ∨ ∃ b, inbox !! length sent = Some (Some (b, false))
                 ∧ flushBuffer fuel settings
                     (bh_after_all fuel settings (fl_bh fl) sent) b
                   = Ok (fb_checkpoint b, None)
                 ∧ fl_flushInProgress fl' = true
      | Returns (Some err) =>
          ∃ b taken,
            inbox !! length sent = Some (Some (b, taken))
            ∧ flushBuffer fuel settings
                (bh_after_all fuel settings (fl_bh fl) sent) b
              = Ok (fb_checkpoint b, Some err)
            ∧ fl_flushInProgress fl' = true
      end.
Proof.
  revert fl. induction inbox as [|[[b taken]|] inbox IH]; intros fl; simpl.
  - intros [= <- <-]. exists []. rewrite app_nil_r. done.
  - destruct (flushBuffer fuel settings (fl_bh fl) b) as [[c err]|p|]
      eqn:Hflush; simpl; [|done..].
    pose proof (flushBuffer_checkpoint _ _ _ _ _ _ Hflush) as ->.
    destruct err as [err|].
    { intros [= <- <-]. exists []. simpl. rewrite app_nil_r.
      split; [apply prefix_nil|]. split; [done|]. split; [done|].
      split; [done|]. by exists b, taken. }
    destruct taken.
    + intros Hrest.
      destruct (IH _ Hrest) as (sent & Hpre & Hch & Hok & Hflag & Hex).
      exists (b :: sent). simpl in *.
      split; [by apply prefix_cons|].
      split; [by rewrite Hch, <- app_assoc|].
      split; [done|].
      split.
      * intros _ Hcase. destruct sent as [|b' sent]; [|by apply Hflag].
        simpl in *. clear Hflag.
        destruct inbox as [|[[b1 taken1]|] inbox]; simpl in *.
        -- by injection Hrest as <- <-.
        -- destruct (flushBuffer _ _ _ b1) as [[c1 [e1|]]|p|]; simpl in *;
             [| |done..].
           ++ injection Hrest as <- <-.
              destruct Hcase as [|]; done.
           ++ destruct taken1.
              ** destruct Hcase as [->|]; [|done].
                 simpl in Hex. lia.
              ** injection Hrest as <- <-. destruct Hcase as [|]; done.
        -- by injection Hrest as <- <-.
      * destruct ex as [|[err|]]; simpl.
        -- destruct Hex as [-> ->]. done.
        -- exact Hex.
        -- exact Hex.
    + intros [= <- <-]. exists []. simpl. rewrite app_nil_r.
      split; [apply prefix_nil|]. split; [done|]. split; [done|].
      split; [done|]. right. by exists b.
  - intros [= <- <-]. exists []. simpl. rewrite app_nil_r.
    split; [apply prefix_nil|]. split; [done|]. split; [done|].
    split; [done|]. by left.
Qed.
End FlushLoopMore.

Section FlushErrors.
Context `{!Sizer} `{!SplitKeys} `{!Sorter} `{!BatchHandler Handler}.

Lemma worker_error fuel (h : Handler) s batchSize bs ce err :
  (worker fuel h s batchSize bs ce).2 = Ok (Some err) →
  ∃ (h' : Handler) batch,
    last (worker fuel h s batchSize bs ce).1 = Some batch
    ∧ (HandleBatch h' batch).2.2 = Some err.
Proof.
  revert h bs. induction fuel as [|fuel IH]; intros h bs; simpl; [done|].
  destruct (bs <? ce); [|done].
  destruct (slice s bs _) as [batch|p|]; [|done..].
  destruct (HandleBatch h batch) as [h1 [stats [e|]]] eqn:Hbatch; simpl.
  - intros [= ->]. exists h, batch. by rewrite Hbatch.
  - specialize (IH h1 (Z.min (Int64.add bs batchSize) ce)).
    destruct (worker fuel h1 s batchSize _ ce) as [batches r]. simpl in *.
    intros Hr. destruct (IH Hr) as (h' & batch' & Hlast & Hfail).
    exists h', batch'. split; [|done].
    destruct batches as [|b0 batches]; [done|]. done.
Qed.

Lemma g_Wait_error (rs : list (result (option error))) err :
  g_Wait rs = Ok (Some err) → Ok (Some err) ∈ rs.
Proof.
  induction rs as [|r rs IH]; simpl; [done|].
  destruct r as [[e|]|p|]; simpl; [| |done..].
  - destruct (g_Wait rs) as [e'|p|]; simpl; [|done..].
    intros [= ->]. apply list_elem_of_here.
  - destruct (g_Wait rs) as [e'|p|]; simpl; [|done..].
    intros [= ->]. apply list_elem_of_further. by apply IH.
Qed.

(** X23: an error that [flushBuffer] returns is the error that the batch
    handler of one of its workers returned for a batch, the last batch that
    worker gave to its handler: [flushBuffer] makes no error of its own,
    and a worker gives nothing to its handler after a failure. *)
Theorem flushBuffer_error_from_handler (fuel : nat) (settings : Values)
    (bh : list Handler) (b : flushableBuffer)
    (checkpoint : jobspb.ResolvedSpans) (err : error) :
  let batchSize := flushBatchSize settings in
  let s := SortFunc byKeyThenTimestamp (curKVBatch (fb_buffer b)) in
  flushBuffer fuel settings bh b = Ok (checkpoint, Some err) →
  ∃ chunkSize (cs : list (chunk (Handler := Handler))) c (h : Handler) batch,
    chunkSize_of s bh batchSize = Ok chunkSize
    ∧ assignChunks bh s chunkSize 0 = Ok (cs, len s)
    ∧ c ∈ cs
    ∧ (run fuel s batchSize c).2 = Ok (Some err)
    ∧ last (run fuel s batchSize c).1 = Some batch
    ∧ (HandleBatch h batch).2.2 = Some err.
Proof.
  intros batchSize s. unfold flushBuffer. fold batchSize s.
  destruct (len _ =? 0); [done|].
  destruct (chunkSize_of s bh batchSize) as [chunkSize|p|] eqn:Hsize; simpl;
    [|done..].
  destruct (assignChunks bh s chunkSize 0) as [[cs chunkStart]|p|]
    eqn:Hassign; simpl; [|done..].
  destruct (chunkStart =? len s) eqn:Eend; simpl; [|done].
  apply Z.eqb_eq in Eend. subst chunkStart.
  destruct (g_Wait _) as [[e|]|p|] eqn:Ewait; simpl; [| |done..];
    [|done].
  intros [= _ ->]. apply g_Wait_error in Ewait.
  apply list_elem_of_fmap in Ewait as (c & Hrun & Hc).
  destruct (worker_error fuel (chunk_bh c) s batchSize (batchStart c)
              (chunkEnd c) err) as (h & batch & Hlast & Hfail); [done|].
  by exists chunkSize, cs, c, h, batch.
Qed.
End FlushErrors.

(** ** The further properties on the sample data *)

Section MoreWitnesses.
Local Existing Instances payloadSize dropFamily mergeSorter runsOnce
  recordRows rejectAfter jointFrontier_ops.

Local Abbreviation three_workers := [recorder; recorder; recorder].
Local Abbreviation five_buffered :=
  (foldl addKV NewIngestionBuffer five_pairs).
Local Abbreviation five_sorted := (SortFunc byKeyThenTimestamp five_pairs).
Local Abbreviation idle :=
  (processor (at_time 0 0) NewIngestionBuffer registered).
Local Abbreviation resolved_at t :=
  {| jobspb.Span := span_a_z; jobspb.Timestamp := t |}.
Local Abbreviation no_checkpoint := {| jobspb.ResolvedSpans_list := [] |}.
Local Abbreviation five_to_flush :=
  {| fb_buffer := five_buffered; fb_checkpoint := no_checkpoint |}.

Lemma flushBuffer_applies_every_pair_witness :
  five_sorted ≡ₚ five_pairs
  ∧ ∃ chunkSize (cs : list (chunk (Handler := txnBatch _ _))),
      chunkSize_of five_sorted three_workers 2 = Ok chunkSize
      ∧ assignChunks three_workers five_sorted chunkSize 0
        = Ok (cs, len five_sorted)
      ∧ mjoin ((λ c, concat (run 6 five_sorted 2 c).1) <$> cs) = five_sorted.
Proof.
  apply (flushBuffer_applies_every_pair mergeSorter_sorts 6
           (with_batch_size 2) three_workers five_to_flush no_checkpoint).
  - discriminate.
  - vm_compute. discriminate.
  - vm_compute. discriminate.
  - vm_compute. reflexivity.
Defined.

Lemma flushBuffer_returns_witness :
  ∃ err, flushBuffer 6 (with_batch_size 2) three_workers five_to_flush
         = Ok (no_checkpoint, err).
Proof.
  destruct (flushBuffer_returns mergeSorter_sorts 6 (with_batch_size 2)
              three_workers five_to_flush) as [_ Hret].
  - discriminate.
  - vm_compute. discriminate.
  - split; vm_compute; discriminate.
  - apply Hret; [vm_compute; discriminate | simpl; lia].
Defined.

Lemma batches_within_batch_size_witness :
  ∃ chunkSize (cs : list (chunk (Handler := txnBatch _ _))),
    chunkSize_of five_sorted three_workers 2 = Ok chunkSize
    ∧ assignChunks three_workers five_sorted chunkSize 0
      = Ok (cs, len five_sorted)
    ∧ ∀ c batch, c ∈ cs → batch ∈ (run 6 five_sorted 2 c).1 →
        1 <= len batch <= 2.
Proof.
  apply (batches_within_batch_size mergeSorter_sorts five_pairs
           three_workers 2 6).
  - discriminate.
  - vm_compute. discriminate.
  - split; vm_compute; discriminate.
Defined.

Lemma chunks_on_their_own_handlers_witness :
  ∃ (cs : list (chunk (Handler := txnBatch _ _))) final,
    assignChunks three_workers five_sorted 2 0 = Ok (cs, final)
    ∧ (length cs <= 3)%nat.
Proof.
  edestruct (chunks_on_their_own_handlers three_workers five_sorted 2 0)
    as [Hlen _]; [vm_compute; reflexivity|].
  eexists _, _. split; [vm_compute; reflexivity|]. exact Hlen.
Defined.

Lemma one_key_one_chunk_witness :
  let s := SortFunc byKeyThenTimestamp two_on_a in
  ∃ chunkSize h,
    chunkSize_of s three_workers 1 = Ok chunkSize
    ∧ three_workers !! 0%nat = Some h
    ∧ assignChunks three_workers s chunkSize 0
      = Ok ([ {| chunk_bh := h; batchStart := 0; chunkEnd := len s |} ],
            len s).
Proof.
  apply (one_key_one_chunk mergeSorter_sorts two_on_a three_workers 1).
  - discriminate.
  - discriminate.
  - vm_compute. discriminate.
  - vm_compute. discriminate.
  - intros a b Ha Hb. unfold two_on_a in Ha, Hb.
    rewrite elem_of_cons, list_elem_of_singleton in Ha, Hb.
    destruct Ha as [->| ->], Hb as [->| ->]; reflexivity.
Defined.

Lemma shouldFlushOnKVSize_stays_witness :
  let b := addKV five_buffered (pair_at ["d"; "1"]%byte 40) in
  (shouldFlushOnKVSize b (with_limits 5 15)).1 = true
  ∧ (shouldFlushOnKVSize b (with_limits 5 15)).2 = true.
Proof.
  destruct (shouldFlushOnKVSize_stays five_buffered (with_limits 5 15)
              (pair_at ["d"; "1"]%byte 40)) as [Hshould Hmust].
  - vm_compute. discriminate.
  - vm_compute. discriminate.
  - vm_compute. discriminate.
  - split; [apply Hshould | apply Hmust]; reflexivity.
Defined.

Lemma maybeFlush_after_flush_witness :
  maybeFlush (taken_at 9) flushOnTime (flush (taken_at 1) flushOnSize idle).1
  = ((flush (taken_at 1) flushOnSize idle).1, None).
Proof.
  apply (maybeFlush_after_flush (taken_at 1) (taken_at 9) flushOnSize
           flushOnTime idle).
  reflexivity.
Defined.

Lemma handleEvent_conserves_witness :
  ∃ lrw', handleEvent (taken_at 1) (kv_event five_pairs) idle
          = Ok (lrw', None)
          ∧ received lrw' = five_pairs.
Proof.
  edestruct (handleEvent_conserves (taken_at 1) (kv_event five_pairs) idle)
    as [Hrec _]; [reflexivity | vm_compute; reflexivity|].
  eexists. split; [vm_compute; reflexivity|]. exact Hrec.
Defined.

(** The flush loop is at work when the event comes and has finished when
    the timer fires. *)
Lemma consumeEvents_conserves_witness :
  let quick := processor (at_time 0 0) NewIngestionBuffer (with_limits 5 0) in
  let inputs :=
    [ {| turn_selected := EventReceived (kv_event five_pairs);
         turn_flushInProgress := true; turn_world := taken_at 1 |};
      {| turn_selected := TimerFired 6000000000;
         turn_flushInProgress := false; turn_world := taken_at 2 |};
      {| turn_selected := EventsClosed;
         turn_flushInProgress := true; turn_world := taken_at 3 |} ] in
  ∃ lrw', consumeEvents inputs quick = Ok (lrw', Returns None)
          ∧ curKVBatch (buffer lrw') = []
          ∧ handed lrw' = received lrw'
          ∧ fb_buffer <$> flushCh lrw' = [five_buffered; NewIngestionBuffer].
Proof.
  intros quick inputs.
  edestruct (consumeEvents_conserves inputs quick) as (_ & _ & Hend);
    [repeat constructor | vm_compute; reflexivity|].
  destruct (Hend eq_refl) as (Hbuf & Hall & _).
  eexists. split; [vm_compute; reflexivity|]. split; [exact Hbuf|].
  split; [exact Hall | reflexivity].
Defined.

Lemma handleEvent_backpressure_witness :
  let busy :=
    in_flight (processor (at_time 0 0) NewIngestionBuffer (with_limits 5 0)) in
  ∃ lrw', handleEvent (taken_at 1) (kv_event five_pairs) busy
          = Ok (lrw', None)
          ∧ buffer lrw' = five_buffered ∧ flushCh lrw' = [].
Proof.
  intros busy.
  eexists. split; [vm_compute; reflexivity|].
  refine (handleEvent_backpressure (taken_at 1) (kv_event five_pairs) busy
            _ None eq_refl _).
  vm_compute. reflexivity.
Defined.

Lemma quantized_idempotent_witness :
  quantized 5 idle (quantized 5 idle (resolved_at (at_time 12 3)))
  = quantized 5 idle (resolved_at (at_time 12 3)).
Proof.
  apply (quantized_idempotent 5 idle (resolved_at (at_time 12 3))).
  vm_compute. split; discriminate.
Defined.

Lemma quantized_monotone_witness :
  hlc.LessEq
    (jobspb.Timestamp (quantized 5 idle (resolved_at (at_time 12 3))))
    (jobspb.Timestamp (quantized 5 idle (resolved_at (at_time 14 0))))
  = true.
Proof.
  apply (quantized_monotone 5 idle (resolved_at (at_time 12 3))
           (resolved_at (at_time 14 0))).
  - vm_compute. split; discriminate.
  - vm_compute. split; discriminate.
  - reflexivity.
  - reflexivity.
  - reflexivity.
Defined.

Lemma flushLoop_checkpoints_witness :
  let failing := [ {| db := tt; rp := 1%nat |}; {| db := tt; rp := 9%nat |} ] in
  let inbox := [ Some (five_to_flush, true); Some (five_to_flush, false) ] in
  (∃ fl' sent,
     flushLoop 6 (with_batch_size 2) inbox
       {| fl_bh := three_workers; fl_flushInProgress := false;
          fl_checkpointCh := [] |}
     = Ok (fl', Returns None)
     ∧ sent = [five_to_flush]
     ∧ fl_checkpointCh fl' = fb_checkpoint <$> sent
     ∧ flushed_in_turn 6 (with_batch_size 2) three_workers sent)
  ∧ ∃ fl',
      flushLoop 6 (with_batch_size 1) inbox
        {| fl_bh := failing; fl_flushInProgress := false;
           fl_checkpointCh := [] |}
      = Ok (fl', Returns (Some "row rejected"%string))
      ∧ fl_checkpointCh fl' = []
      ∧ fl_flushInProgress fl' = true.
Proof.
  intros failing inbox. split.
  - edestruct (flushLoop_checkpoints 6 (with_batch_size 2) inbox
                 {| fl_bh := three_workers; fl_flushInProgress := false;
                    fl_checkpointCh := [] |})
      as (sent & Hpre & Hch & Hok & _ & Hex); [vm_compute; reflexivity|].
    assert (sent = [five_to_flush]) as ->.
    { destruct Hex as [[Hclosed _]|(b & Hb & _)].
      - destruct sent as [|? [|? [|? ?]]]; discriminate.
      - destruct sent as [|b0 [|? [|? ?]]]; try discriminate.
        destruct Hpre as [rest Hpre]. by injection Hpre as <-. }
    eexists _, _. split; [vm_compute; reflexivity|].
    split; [reflexivity|]. split; [exact Hch | exact Hok].
  - edestruct (flushLoop_checkpoints 6 (with_batch_size 1) inbox
                 {| fl_bh := failing; fl_flushInProgress := false;
                    fl_checkpointCh := [] |})
      as (sent & Hpre & Hch & _ & _ & Hex); [vm_compute; reflexivity|].
    destruct Hex as (b & taken & _ & _ & Hflag).
    eexists. split; [vm_compute; reflexivity|].
    split; [reflexivity | exact Hflag].
Defined.

Lemma constructed_handlers_flush_witness :
  let make := λ _ : nat, ([] : list roachpb.KeyValue, None : option error) in
  bhPool_new tt make = inl (replicate 32 recorder)
  ∧ ∃ err, flushBuffer 6 (with_batch_size 2) (replicate 32 recorder)
             five_to_flush
           = Ok (no_checkpoint, err).
Proof.
  intros make. split; [reflexivity|].
  destruct (constructed_handlers_flush tt make (replicate 32 recorder) 6
              (with_batch_size 2) five_to_flush mergeSorter_sorts)
    as (_ & _ & Hret).
  - reflexivity.
  - vm_compute. discriminate.
  - split; vm_compute; discriminate.
  - apply Hret; [vm_compute; discriminate | simpl; lia].
Defined.

Lemma timer_flushes_progress_witness :
  ∃ lrw', consumeStep (TimerFired 6000000000) (taken_at 6000000000) idle
          = Ok (lrw', Waiting)
          ∧ flushCh lrw'
            = [ {| fb_buffer := NewIngestionBuffer;
                   fb_checkpoint := checkpoint_of (frontier idle) |} ]
          ∧ lastFlushFrontier lrw' = at_time 7 0.
Proof.
  destruct (timer_flushes_progress 6000000000 (taken_at 6000000000) idle)
    as (lrw' & Hstep & Hch & _ & Hmark & _).
  - reflexivity.
  - reflexivity.
  - vm_compute. discriminate.
  - right. reflexivity.
  - exists lrw'. split; [exact Hstep|]. split; [exact Hch | exact Hmark].
Defined.

Lemma flushBuffer_error_from_handler_witness :
  let failing := [ {| db := tt; rp := 1%nat |}; {| db := tt; rp := 9%nat |} ] in
  ∃ (h : txnBatch unit nat) batch,
    flushBuffer 6 (with_batch_size 1) failing five_to_flush
    = Ok (no_checkpoint, Some "row rejected"%string)
    ∧ (HandleBatch h batch).2.2 = Some "row rejected"%string.
Proof.
  intros failing.
  destruct (flushBuffer_error_from_handler 6 (with_batch_size 1) failing
              five_to_flush no_checkpoint "row rejected"%string)
    as (_ & _ & _ & h & batch & _ & _ & _ & _ & _ & Hfail).
  - vm_compute. reflexivity.
  - exists h, batch. split; [vm_compute; reflexivity | exact Hfail].
Defined.

Lemma bufferCheckpoint_stops_at_first_error_witness :
  let event :=
    {| streamingccl.Event_Type := streamingccl.CheckpointEvent;
       streamingccl.GetKVs := None;
       streamingccl.GetResolvedSpans :=
         Some [ resolved_at (at_time 12000000000 3);
                resolved_at (at_time 21000000000 0) ] |} in
  (bufferCheckpoint event idle).2 = None
  ∧ frontier (bufferCheckpoint event idle).1
    = [(span_a_z, at_time 20000000000 0)].
Proof.
  intros event.
  destruct (bufferCheckpoint_stops_at_first_error event idle
              [ resolved_at (at_time 12000000000 3);
                resolved_at (at_time 21000000000 0) ])
    as (i & _ & Hout).
  - reflexivity.
  - reflexivity.
  - change (bufferCheckpoint event idle).2 with (@None error) in Hout.
    destruct Hout as [_ Hfr]. split; [reflexivity | exact Hfr].
Defined.

Lemma HandleBatch_stops_at_first_error_witness :
  let out := HandleBatch recorder five_pairs in
  rp out.1 = five_pairs ∧ byteSize out.2.1 = 15 ∧ out.2.2 = None.
Proof.
  intros out.
  destruct (proj2 (HandleBatch_stops_at_first_error five_pairs) unit runsOnce
              recorder) as (i & _ & Hout).
  - intros S f s. reflexivity.
  - change (HandleBatch recorder five_pairs).2.2 with (@None error) in Hout.
    destruct Hout as (_ & Hrows & Hsize).
    split; [exact Hrows|]. split; [exact Hsize | reflexivity].
Defined.

(** A store that runs the closure a second time makes [HandleBatch] count
    the bytes of both runs: [stats] is not reset between them. *)
Example retried_batch_counts_twice :
  let failing : txnBatch unit nat := {| db := tt; rp := 1%nat |} in
  (@HandleBatch _ (@txnBatch_HandleBatch payloadSize unit runsOnce nat
                     rejectAfter) failing five_pairs).2
  = ({| byteSize := 6 |}, Some "row rejected"%string)
  ∧ (@HandleBatch _ (@txnBatch_HandleBatch payloadSize unit retriesOnce nat
                       rejectAfter) failing five_pairs).2
    = ({| byteSize := 9 |}, Some "row rejected"%string).
Proof. split; reflexivity. Qed.
End MoreWitnesses.
